(** * delugerpc: the rencode codec and the Deluge RPC client codec

    A shallow embedding of [rencode/rencode.go], [rencode/encoder.go],
    [rencode/decoder.go] and of the client codec ([WriteRequest],
    [ReadResponseHeader], [ReadResponseBody], [getArgs]).

    Conventions.
    - A Go [byte] is a [Z]; every conversion [byte(x)] is written out as
      [x mod 256].  A [[]byte] and a Go [string] are both [list Z].
    - The [io.Writer] under the encoder is an in-memory buffer, as in the
      tests ([bytes.Buffer]) and in [WriteRequest] (a zlib writer over a
      [bytes.Buffer]); its [Write] appends and does not fail.
    - The [bufio.Reader] under the decoder is the list of bytes that are
      still unread.
    - A Go [error] result is an [option error]; [None] is [nil]. *)

From Stdlib Require Import ZArith List Bool Lia String Ascii.
From Stdlib Require Import Permutation Sorting.Sorted.
Import ListNotations.
Local Open Scope Z_scope.

Set Implicit Arguments.
Set Warnings "-register-all".

(** ** Bytes and strings *)

Definition bytes := list Z.

(** [byte(x)]: conversion of an integer to [uint8]. *)
Definition byte (x : Z) : Z := x mod 256.

(** A string literal of the source, as its bytes. *)
Definition str (s : string) : bytes :=
  List.map (fun a => Z.of_N (N_of_ascii a)) (list_ascii_of_string s).

Definition len {A} (l : list A) : Z := Z.of_nat (List.length l).

(** ** rencode.go: the tag table *)

Module Tag.
Definition maxIntLength : Z := 64.
Definition chrList : Z := 59.
Definition chrDict : Z := 60.
Definition chrInt : Z := 61.
Definition chrInt1 : Z := 62.
Definition chrInt2 : Z := 63.
Definition chrInt4 : Z := 64.
Definition chrInt8 : Z := 65.
Definition chrFloat32 : Z := 66.
Definition chrFloat64 : Z := 44.
Definition chrTrue : Z := 67.
Definition chrFalse : Z := 68.
Definition chrNone : Z := 69.
Definition chrTerm : Z := 127.
Definition intPosFixedStart : Z := 0.
Definition intPosFixedCount : Z := 44.
Definition dictFixedStart : Z := 102.
Definition dictFixedCount : Z := 25.
Definition intNegFixedStart : Z := 70.
Definition intNegFixedCount : Z := 32.
Definition strFixedStart : Z := 128.
Definition strFixedCount : Z := 64.
Definition listFixedStart : Z := strFixedStart + strFixedCount.
Definition listFixedCount : Z := 64.
End Tag.
Import Tag.

(** Limits of [math]. *)
Definition MinInt8 : Z := -128.
Definition MaxInt8 : Z := 127.
Definition MinInt16 : Z := -32768.
Definition MaxInt16 : Z := 32767.
Definition MinInt32 : Z := -2147483648.
Definition MaxInt32 : Z := 2147483647.
Definition MinInt64 : Z := - 2 ^ 63.
Definition MaxInt64 : Z := 2 ^ 63 - 1.
Definition MaxUint64 : Z := 2 ^ 64 - 1.

Definition is_int64 (i : Z) : Prop := MinInt64 <= i <= MaxInt64.
Definition is_uint64 (u : Z) : Prop := 0 <= u <= MaxUint64.

(** ** Decimal text: [strconv.FormatInt], [big.Int.String], [%d] *)

(** Digits of a non-negative number by repeated division by ten, most
    significant first.  [fuel] bounds the number of digits. *)
Fixpoint formatBits (fuel : nat) (u : Z) (acc : bytes) : bytes :=
  match fuel with
  | O => acc
  | S f =>
      if u <? 10 then (48 + u) :: acc
      else formatBits f (u / 10) ((48 + u mod 10) :: acc)
  end.

Definition FormatUint (u : Z) : bytes :=
  formatBits (S (Z.to_nat (Z.log2 u))) u [].

Definition FormatInt (i : Z) : bytes :=
  if i <? 0 then 45 :: FormatUint (- i) else FormatUint i.

(** ** Errors *)

Inductive numError := ErrSyntax | ErrRange.

(** The slots the decoder of this repository is aimed at: an
    [interface{}] (the tests, and every list element and dict value), a
    [string] (every dict key) and a [[]interface{}] (the response of
    [ReadResponseHeader]). *)
Inductive kind := KInterface | KString | KSlice.

Inductive error :=
| errorString (msg : bytes)          (* errors.New, fmt.Errorf *)
| EOF                                (* io.EOF *)
| ErrUnexpectedEOF                   (* io.ErrUnexpectedEOF *)
| NumError (num : bytes) (e : numError)   (* *strconv.NumError *)
| ScanError (num : bytes)            (* the error of fmt.Sscan *)
| UnsupportedCode (c : Z)            (* "rencode: unsupported code %v" *)
| DecodeInvalidArgError
| DecodeTypeError (Value : bytes) (target : kind).

(** ** Values

    The dynamic values that reach [Encode] and that [Decode] stores in an
    [interface{}].  A map is the list of its entries in the order in which
    [MapKeys] happens to enumerate them; its keys are strings.  The integer
    kinds are told apart by signedness only, as [encodeValue] does; the
    decoder stores none but [int64] and [big.Int].  A float is its IEEE-754
    bit pattern. *)
Inductive value :=
| VNil                                  (* the nil interface *)
| VBool (b : bool)
| VInt (i : Z)                          (* int, int8 .. int64: v.Int() *)
| VUint (u : Z)                         (* uint, uint8 .. uint64: v.Uint() *)
| VFloat32 (bits : Z)                   (* math.Float32bits *)
| VFloat64 (bits : Z)                   (* math.Float64bits *)
| VBigInt (n : Z)                       (* big.Int *)
| VString (s : bytes)                   (* string *)
| VBytes (s : bytes)                    (* []byte *)
| VSlice (l : list value)               (* []T, T not uint8 *)
| VMap (m : list (bytes * value))       (* map[string]T *)
| VPtr (p : option value)               (* *T; None is the nil pointer *)
| VOther.                               (* a kind with no case in encodeValue:
                                           another struct, complex, chan, func *)

(** ** encoder.go *)

(** The encoder: what has been written to [e.w] so far. *)
Definition Encoder := bytes.

(** A method of [*Encoder] returning [error]. *)
Definition enc := Encoder -> option error * Encoder.

Definition ok : enc := fun e => (None, e).
Definition fail (err : error) : enc := fun e => (Some err, e).

(** [if err := m; err != nil { return err }; k] *)
Definition andThen (m k : enc) : enc :=
  fun e => match m e with
           | (None, e') => k e'
           | (Some err, e') => (Some err, e')
           end.
Notation "m ;; k" := (andThen m k) (at level 61, right associativity).

Definition write (b : bytes) : enc := fun e => (None, e ++ b).

(** [binary.Write(e.w, binary.BigEndian, x)] for an integer of [n] bytes:
    the two's-complement bytes of [x], most significant first. *)
Fixpoint bigEndian (n : nat) (x : Z) : bytes :=
  match n with
  | O => []
  | S k => byte (Z.shiftr x (8 * Z.of_nat k)) :: bigEndian k x
  end.

Definition encodeNil : enc := write [chrNone].

Definition encodeBool (b : bool) : enc :=
  if b then write [chrTrue] else write [chrFalse].

Definition encodeInt (i : Z) : enc :=
  if (0 <=? i) && (i <? intPosFixedCount) then
    write [byte (intPosFixedStart + byte i)]
  else if (- intNegFixedCount <=? i) && (i <? 0) then
    write [byte (intNegFixedStart - 1 - byte i)]
  else if (MinInt8 <=? i) && (i <=? MaxInt8) then
    write [chrInt1; byte i]
  else if (MinInt16 <=? i) && (i <=? MaxInt16) then
    write [chrInt2] ;; write (bigEndian 2 i)
  else if (MinInt32 <=? i) && (i <=? MaxInt32) then
    write [chrInt4] ;; write (bigEndian 4 i)
  else
    write [chrInt8] ;; write (bigEndian 8 i).

Definition errNumberTooLong : error :=
  errorString (str "rencode: Number is longer than " ++ FormatInt maxIntLength
               ++ str " characters").

Definition encodeBigInt (bi : Z) : enc :=
  let s := FormatInt bi in
  if len s >? maxIntLength then fail errNumberTooLong
  else write [chrInt] ;; write s ;; write [chrTerm].

Definition encodeUint (i : Z) : enc :=
  if i <? intPosFixedCount then
    write [byte (intPosFixedStart + byte i)]
  else if i <=? MaxInt8 then
    write [chrInt1; byte i]
  else if i <=? MaxInt16 then
    write [chrInt2] ;; write (bigEndian 2 i)
  else if i <=? MaxInt32 then
    write [chrInt4] ;; write (bigEndian 4 i)
  else if i <=? MaxInt64 then
    write [chrInt8] ;; write (bigEndian 8 i)
  else
    encodeBigInt i.

Definition encodeFloat32 (bits : Z) : enc :=
  write [chrFloat32] ;; write (bigEndian 4 bits).

Definition encodeFloat64 (bits : Z) : enc :=
  write [chrFloat64] ;; write (bigEndian 8 bits).

Definition encodeBytes (v : bytes) : enc :=
  let lv := len v in
  if byte lv <? strFixedCount then
    write [byte (strFixedStart + byte lv)] ;; write v
  else
    write (FormatInt lv ++ str ":") ;; write v.

(** The loop [for i := 0; i < vLen; i++ { if err := e.Encode(...) ... }]
    over the encodings of the elements. *)
Fixpoint encodeAll (elems : list enc) : enc :=
  match elems with
  | [] => ok
  | m :: rest => m ;; encodeAll rest
  end.

(** [encodeSlice], given [e.Encode(v.Index(i).Interface())] for each [i]. *)
Definition encodeSlice (elems : list enc) : enc :=
  let vLen := len elems in
  let fixedCount := byte vLen <? listFixedCount in
  (if fixedCount then write [byte (listFixedStart + byte vLen)]
   else write [chrList]) ;;
  encodeAll elems ;;
  (if negb fixedCount then write [chrTerm] else ok).

(** [stringValues.Less]: Go's [<] on strings, byte-wise lexicographic. *)
Fixpoint Less (a b : bytes) : bool :=
  match a, b with
  | _, [] => false
  | [], _ :: _ => true
  | x :: a', y :: b' => (x <? y) || ((x =? y) && Less a' b')
  end.

(** [sort.Sort(keys)]: the keys in the order given by [Less].  The sort of
    the library is not stable, but the keys of a map are distinct and have
    one sorted arrangement ([sorted_unique]), which insertion yields. *)
Fixpoint insertKey (k : bytes) (ks : list bytes) : list bytes :=
  match ks with
  | [] => [k]
  | k' :: rest => if Less k' k then k' :: insertKey k rest else k :: ks
  end.

Fixpoint Sort (ks : list bytes) : list bytes :=
  match ks with
  | [] => []
  | k :: rest => insertKey k (Sort rest)
  end.

Definition bytes_eqb (a b : bytes) : bool :=
  if list_eq_dec Z.eq_dec a b then true else false.

(** [v.MapIndex(key)] on the entries of a map. *)
Fixpoint MapIndex {A} (m : list (bytes * A)) (key : bytes) : option A :=
  match m with
  | [] => None
  | (k, x) :: rest => if bytes_eqb k key then Some x else MapIndex rest key
  end.

(** [v.MapKeys()]. *)
Definition MapKeys {A} (m : list (bytes * A)) : list bytes := List.map fst m.

(** [encodeMap], given for each entry [e.Encode(val.Interface())]. *)
Definition encodeMap (m : list (bytes * enc)) : enc :=
  let vLen := len m in
  let fixedCount := byte vLen <? dictFixedCount in
  (if fixedCount then write [byte (dictFixedStart + byte vLen)]
   else write [chrDict]) ;;
  encodeAll
    (List.map (fun key =>
                 encodeBytes key ;;
                 match MapIndex m key with Some val => val | None => ok end)
              (Sort (MapKeys m))) ;;
  (if negb fixedCount then write [chrTerm] else ok).

(** [Encode], given [encodeValue]: the nil interface is encoded at once. *)
Definition EncodeWith (encodeValue : value -> enc) (v : value) : enc :=
  match v with
  | VNil => encodeNil
  | _ => encodeValue v
  end.

Fixpoint encodeValue (v : value) : enc :=
  match v with
  | VBool b => encodeBool b
  | VInt i => encodeInt i
  | VUint u => encodeUint u
  | VFloat32 bits => encodeFloat32 bits
  | VFloat64 bits => encodeFloat64 bits
  | VBigInt n => encodeBigInt n
  | VString s => encodeBytes s
  | VBytes s => encodeBytes s
  | VSlice l => encodeSlice (List.map (EncodeWith encodeValue) l)
  | VMap m =>
      encodeMap (List.map (fun kv => (fst kv, EncodeWith encodeValue (snd kv))) m)
  | VPtr None => encodeNil
  | VPtr (Some x) => encodeValue x
  | VNil | VOther => ok
  end.

Definition Encode (v : value) : enc := EncodeWith encodeValue v.

(** The bytes a fresh encoder holds after [Encode v]. *)
Definition encoded (v : value) : option error * bytes := Encode v [].

(** ** decoder.go *)

(** The outcome of a decoding step: a result and the bytes still unread,
    or an error.  [OutOfFuel] belongs to the model only (see
    [decodeValue]); [Decode_fuel] shows that [Decode] never yields it. *)
Inductive res (A : Type) :=
| Ok (a : A) (r : bytes)
| Err (e : error)
| OutOfFuel.
Arguments Err {A} e.
Arguments OutOfFuel {A}.

Definition bind {A B} (m : res A) (k : A -> bytes -> res B) : res B :=
  match m with
  | Ok a r => k a r
  | Err e => Err e
  | OutOfFuel => OutOfFuel
  end.

(** *** The reader *)

Definition ReadByte (r : bytes) : res Z :=
  match r with
  | [] => Err EOF
  | c :: r' => Ok c r'
  end.

Definition peekByte (r : bytes) : res Z :=
  match r with
  | [] => Err EOF
  | c :: _ => Ok c r
  end.

(** [io.ReadFull] into a buffer of [n] bytes, which also is how
    [binary.Read] fetches the bytes of a fixed-size datum. *)
Definition ReadFull (n : nat) (r : bytes) : res bytes :=
  if (n <=? List.length r)%nat then Ok (firstn n r) (skipn n r)
  else match r with
       | [] => Err EOF
       | _ => Err ErrUnexpectedEOF
       end.

(** [d.r.ReadBytes(delim)]: up to and including the first [delim]. *)
Fixpoint ReadBytes (delim : Z) (r : bytes) : res bytes :=
  match r with
  | [] => Err EOF
  | c :: r' =>
      if c =? delim then Ok [c] r'
      else bind (ReadBytes delim r') (fun line r'' => Ok (c :: line) r'')
  end.

(** *** Numbers *)

(** The unsigned number held by big-endian bytes. *)
Definition beUint (bs : bytes) : Z :=
  fold_left (fun acc b => acc * 256 + b) bs 0.

(** Reinterpretation of an unsigned [bits]-bit number as signed. *)
Definition toSigned (bits : Z) (u : Z) : Z :=
  if u <? 2 ^ (bits - 1) then u else u - 2 ^ bits.

(** The loop of [strconv.ParseUint(s, 10, 64)] over the digits. *)
Fixpoint parseUintLoop (s : bytes) (n : Z) : Z + numError :=
  match s with
  | [] => inl n
  | c :: s' =>
      if (48 <=? c) && (c <=? 57) then
        if n >=? MaxUint64 / 10 + 1 then inr ErrRange
        else
          let n1 := n * 10 + (c - 48) in
          if n1 >? MaxUint64 then inr ErrRange else parseUintLoop s' n1
      else inr ErrSyntax
  end.

Definition ParseUint (s : bytes) : Z + numError :=
  match s with
  | [] => inr ErrSyntax
  | _ => parseUintLoop s 0
  end.

(** [strconv.ParseInt(s, 10, 64)]. *)
Definition ParseInt (s : bytes) : Z + numError :=
  match s with
  | [] => inr ErrSyntax
  | c :: s' =>
      let neg := c =? 45 in
      let digits := if (c =? 43) || (c =? 45) then s' else s in
      match ParseUint digits with
      | inr ErrSyntax => inr ErrSyntax
      | inr ErrRange => inr ErrRange
      | inl un =>
          if negb neg && (un >=? 2 ^ 63) then inr ErrRange
          else if neg && (un >? 2 ^ 63) then inr ErrRange
          else inl (if neg then - un else un)
      end
  end.

(** [float64(x)] for a [float32] [x], on the IEEE-754 bit patterns. *)
Definition float32to64 (b : Z) : Z :=
  let sign := Z.shiftl (Z.shiftr b 31 mod 2) 63 in
  let e := Z.shiftr b 23 mod 256 in
  let m := b mod 2 ^ 23 in
  if e =? 255 then
    if m =? 0 then sign + Z.shiftl 2047 52
    else sign + Z.shiftl 2047 52 + Z.lor (2 ^ 51) (Z.shiftl m 29)
  else if e =? 0 then
    if m =? 0 then sign
    else
      let k := Z.log2 m in
      sign + Z.shiftl (k - 149 + 1023) 52 + Z.shiftl (m - 2 ^ k) (52 - k)
  else sign + Z.shiftl (e - 127 + 1023) 52 + Z.shiftl m 29.

(** *** Code ranges *)

Definition isFixedPosInt (code : Z) : bool :=
  (intPosFixedStart <=? code) && (code <? intPosFixedStart + intPosFixedCount).

Definition isFixedNegInt (code : Z) : bool :=
  (intNegFixedStart <=? code) && (code <? intNegFixedStart + intNegFixedCount).

Definition isFixedString (code : Z) : bool :=
  (strFixedStart <=? code) && (code <? strFixedStart + strFixedCount).

Definition isString (code : Z) : bool :=
  (48 <=? code) && (code <=? 57).

Definition isFixedSlice (code : Z) : bool :=
  (listFixedStart <=? code) && (code <=? listFixedStart - 1 + listFixedCount).

Definition isFixedMap (code : Z) : bool :=
  (dictFixedStart <=? code) && (code <? dictFixedStart + dictFixedCount).

(** [SetMapIndex(key, x)] on the entries of a map. *)
Fixpoint SetMapIndex (m : list (bytes * value)) (key : bytes) (x : value)
  : list (bytes * value) :=
  match m with
  | [] => [(key, x)]
  | (k, y) :: rest =>
      if bytes_eqb k key then (k, x) :: rest
      else (k, y) :: SetMapIndex rest key x
  end.

(** [l[i] = x]. *)
Fixpoint setIndex (l : list value) (i : nat) (x : value) : list value :=
  match l, i with
  | [], _ => []
  | _ :: rest, O => x :: rest
  | y :: rest, S j => y :: setIndex rest j x
  end.

Section Decoder.

(** [fmt.Sscan(s, &bi)] into a [big.Int], from the standard library: the
    number scanned from [s], or [None] for its error. *)
Variable bigIntScan : bytes -> option Z.

(** A slot [v reflect.Value] is its kind and the value it holds now
    ([VString s] in a [string] slot, [VSlice l] in a [[]interface{}]
    slot).  Every function returns the value the slot holds afterwards. *)

Definition setInt (s : bytes) (k : kind) (cur : value) : error + value :=
  match k with
  | KInterface =>
      match ParseInt s with
      | inr ErrRange =>
          match bigIntScan s with
          | Some bi => inr (VBigInt bi)
          | None => inl (ScanError s)
          end
      | inr ErrSyntax => inl (NumError s ErrSyntax)
      | inl n => inr (VInt n)
      end
  | _ => inl (DecodeTypeError (str "integer " ++ s) k)
  end.

Definition liftSet (x : error + value) (r : bytes) : res value :=
  match x with
  | inl e => Err e
  | inr v => Ok v r
  end.

Definition decodeInt (k : kind) (cur : value) (code : Z) (r : bytes)
  : res value :=
  if code =? chrInt1 then
    bind (ReadFull 1 r) (fun bs r' =>
      liftSet (setInt (FormatInt (toSigned 8 (beUint bs))) k cur) r')
  else if code =? chrInt2 then
    bind (ReadFull 2 r) (fun bs r' =>
      liftSet (setInt (FormatInt (toSigned 16 (beUint bs))) k cur) r')
  else if code =? chrInt4 then
    bind (ReadFull 4 r) (fun bs r' =>
      liftSet (setInt (FormatInt (toSigned 32 (beUint bs))) k cur) r')
  else if code =? chrInt8 then
    bind (ReadFull 8 r) (fun bs r' =>
      liftSet (setInt (FormatInt (toSigned 64 (beUint bs))) k cur) r')
  else
    bind (ReadBytes chrTerm r) (fun ibytes r' =>
      liftSet (setInt (removelast ibytes) k cur) r').

(** [setFloat]: [v.SetFloat] panics on a slot that is no float, the
    deferred function recovers, and [setFloat] returns its zero result,
    [nil], with the slot as it was. *)
Definition setFloat (f : Z) (k : kind) (cur : value) : value :=
  match k with
  | KInterface => VFloat64 f
  | _ => cur
  end.

(** In the [chrFloat32] branch the error of [binary.Read] is dropped and
    [data] keeps its zero value. *)
Definition decodeFloat (k : kind) (cur : value) (code : Z) (r : bytes)
  : res value :=
  if code =? chrFloat32 then
    match ReadFull 4 r with
    | Ok bs r' => Ok (setFloat (float32to64 (beUint bs)) k cur) r'
    | _ => Ok (setFloat (float32to64 0) k cur) (skipn 4 r)
    end
  else if code =? chrFloat64 then
    bind (ReadFull 8 r) (fun bs r' => Ok (setFloat (beUint bs) k cur) r')
  else Err (errorString (str "rencode: unsupported code " ++ FormatInt code
                         ++ str " for type float")).

Definition decodeBool (k : kind) (cur : value) (b : bool) (r : bytes)
  : res value :=
  match k with
  | KInterface => Ok (VBool b) r
  | _ => Err (DecodeTypeError (str "bool") k)
  end.

Definition decodeStringSize (c : Z) (r : bytes) : res Z :=
  bind (ReadBytes 58 r) (fun size r' =>
    let size := c :: removelast size in
    match ParseInt size with
    | inl n => Ok n r'
    | inr e => Err (NumError size e)
    end).

(** [make([]byte, size)] is taken to succeed whatever [size] is. *)
Definition decodeString (k : kind) (cur : value) (size : Z) (r : bytes)
  : res value :=
  bind (ReadFull (Z.to_nat size) r) (fun data r' =>
    match k with
    | KString | KInterface => Ok (VString data) r'
    | KSlice => Err (DecodeTypeError (str "string") k)
    end).

(** [decodeSliceElem]: the slice is grown to hold index [i], then the
    element is decoded into [v.Index(i)]. *)
Definition decodeSliceElem (decodeValue : kind -> value -> bytes -> res value)
           (i : nat) (l : list value) (r : bytes) : res (list value) :=
  let l := if (List.length l <=? i)%nat
           then l ++ repeat VNil (i + 1 - List.length l) else l in
  bind (decodeValue KInterface (nth i l VNil) r) (fun x r' =>
    Ok (setIndex l i x) r').

(** The loop of [decodeSlice]; [size < 0] is the terminated form.  Each
    unit of [fuel] pays for one test of the loop condition. *)
Fixpoint decodeSliceLoop (decodeValue : kind -> value -> bytes -> res value)
         (fuel : nat) (size : Z) (i : nat) (l : list value) (r : bytes)
  : res (list value) :=
  match fuel with
  | O => OutOfFuel
  | S f =>
      if ((0 <=? size) && (Z.of_nat i <? size)) || (size <? 0) then
        let elem r :=
          bind (decodeSliceElem decodeValue i l r) (fun l' r' =>
            decodeSliceLoop decodeValue f size (S i) l' r') in
        if size <? 0 then
          bind (peekByte r) (fun c r =>
            if c =? chrTerm then bind (ReadByte r) (fun _ r' => Ok l r')
            else elem r)
        else elem r
      else Ok l r
  end.

Definition decodeSlice (decodeValue : kind -> value -> bytes -> res value)
           (fuel : nat) (k : kind) (cur : value) (size : Z) (r : bytes)
  : res value :=
  match k with
  | KInterface =>
      bind (decodeSliceLoop decodeValue fuel size 0 [] r) (fun l r' =>
        Ok (VSlice l) r')
  | KSlice =>
      let l := match cur with VSlice l => l | _ => [] end in
      bind (decodeSliceLoop decodeValue fuel size 0 l r) (fun l r' =>
        Ok (VSlice l) r')
  | KString => Err (DecodeTypeError (str "slice") k)
  end.

(** The loop of [decodeMap] over a [map[string]interface{}]. *)
Fixpoint decodeMapLoop (decodeValue : kind -> value -> bytes -> res value)
         (fuel : nat) (size : Z) (i : nat) (m : list (bytes * value))
         (r : bytes) : res (list (bytes * value)) :=
  match fuel with
  | O => OutOfFuel
  | S f =>
      if ((0 <=? size) && (Z.of_nat i <? size)) || (size <? 0) then
        bind (peekByte r) (fun ch r =>
          if ch =? chrTerm then bind (ReadByte r) (fun _ r' => Ok m r')
          else
            bind (decodeValue KString (VString []) r) (fun key r' =>
              let key := match key with VString s => s | _ => [] end in
              bind (decodeValue KInterface VNil r') (fun subv r'' =>
                decodeMapLoop decodeValue f size (S i)
                              (SetMapIndex m key subv) r'')))
      else Ok m r
  end.

Definition decodeMap (decodeValue : kind -> value -> bytes -> res value)
           (fuel : nat) (k : kind) (cur : value) (size : Z) (r : bytes)
  : res value :=
  match k with
  | KInterface =>
      bind (decodeMapLoop decodeValue fuel size 0 [] r) (fun m r' =>
        Ok (VMap m) r')
  | _ => Err (DecodeTypeError (str "map") k)
  end.

(** [decodeValue].  The recursion of the source follows the nesting of
    the input; here it is bounded by [fuel], and one more than the number
    of unread bytes is always enough ([decodeValue_fuel]). *)
Fixpoint decodeValue (fuel : nat) (k : kind) (cur : value) (r : bytes)
  : res value :=
  match fuel with
  | O => OutOfFuel
  | S f =>
      bind (ReadByte r) (fun c r =>
        if c =? chrNone then Ok cur r
        else if c =? chrFalse then decodeBool k cur false r
        else if c =? chrTrue then decodeBool k cur true r
        else if (c =? chrInt1) || (c =? chrInt2) || (c =? chrInt4)
                || (c =? chrInt8) || (c =? chrInt) then decodeInt k cur c r
        else if (c =? chrFloat32) || (c =? chrFloat64) then
          decodeFloat k cur c r
        else if c =? chrList then decodeSlice (decodeValue f) f k cur (-1) r
        else if c =? chrDict then decodeMap (decodeValue f) f k cur (-1) r
        else if isFixedPosInt c then
          liftSet (setInt (FormatInt (c - intPosFixedStart)) k cur) r
        else if isFixedNegInt c then
          liftSet (setInt (FormatInt ((c - intNegFixedStart + 1) * -1)) k cur) r
        else if isFixedString c then decodeString k cur (c - strFixedStart) r
        else if isString c then
          bind (decodeStringSize c r) (fun size r' =>
            decodeString k cur size r')
        else if isFixedSlice c then
          decodeSlice (decodeValue f) f k cur (c - listFixedStart) r
        else if isFixedMap c then
          decodeMap (decodeValue f) f k cur (c - dictFixedStart) r
        else Err (UnsupportedCode c))
  end.

(** [Decode(v)]: [v] must be a non-nil pointer; [Some (k, cur)] is a
    pointer to a slot of kind [k] that holds [cur]. *)
Definition Decode (v : option (kind * value)) (r : bytes) : res value :=
  match v with
  | None => Err DecodeInvalidArgError
  | Some (k, cur) => decodeValue (S (List.length r)) k cur r
  end.

End Decoder.

(** *** [setInt] on the slots of the numeric kinds

    Besides an [interface{}], [setInt] has cases for the integer kinds,
    for [bool] and for [big.Int]. *)
Inductive intSlot :=
| SInt (bits : Z)        (* int8 .. int64 and int: a signed integer of [bits] bits *)
| SUint (bits : Z)       (* uint8 .. uint64 and uint *)
| SBool
| SBigInt.

(** [v.OverflowInt(i)] and [v.OverflowUint(i)] of [reflect]: whether the
    number cannot be held by the slot. *)
Definition OverflowInt (bits i : Z) : bool :=
  negb ((- 2 ^ (bits - 1) <=? i) && (i <? 2 ^ (bits - 1))).

Definition OverflowUint (bits u : Z) : bool := negb (u <? 2 ^ bits).

Inductive slotError :=
| SlotNumError (num : bytes) (e : numError)      (* *strconv.NumError *)
| SlotScanError (num : bytes)                    (* the error of fmt.Sscan *)
| SlotTypeError (Value : bytes) (target : intSlot).   (* *DecodeTypeError *)

Section NumericSlots.

Variable bigIntScan : bytes -> option Z.

Definition setIntSlot (s : bytes) (k : intSlot) : slotError + value :=
  match k with
  | SInt bits =>
      match ParseInt s with
      | inr e => inl (SlotNumError s e)
      | inl i =>
          if OverflowInt bits i then inl (SlotTypeError (str "integer " ++ s) k)
          else inr (VInt i)
      end
  | SUint bits =>
      match ParseUint s with
      | inr e => inl (SlotNumError s e)
      | inl i =>
          if OverflowUint bits i then inl (SlotTypeError (str "integer " ++ s) k)
          else inr (VUint i)
      end
  | SBool => inr (VBool (negb (bytes_eqb s (str "0"))))
  | SBigInt =>
      match bigIntScan s with
      | Some bi => inr (VBigInt bi)
      | None => inl (SlotScanError s)
      end
  end.

End NumericSlots.

(** ** The client codec *)

Definition rpcResponse : Z := 1.
Definition rpcError : Z := 2.
Definition rpcEvent : Z := 3.

(** The transport: the byte slices handed to [conn.Write], one per call
    and in order, and the bytes the peer has sent. *)
Record Conn := { sent : list bytes; incoming : bytes }.

Record clientCodec := { conn : Conn; respBody : value }.

(** [rpc.Request] and [rpc.Response], as far as the codec uses them. *)
Record Request := { ReqSeq : Z; ServiceMethod : bytes }.
Record Response := { Seq : Z }.

(** A call either returns or panics (a failed type assertion, an index out
    of range). *)
Inductive outcome (A : Type) :=
| Returns (err : option error) (st : A)
| Panics.
Arguments Panics {A}.

(** The [body] of the first [WriteRequest]: an [ArgsKwargs] or any other
    value. *)
Inductive Body :=
| ArgsKwargs (Args : list value) (Kwargs : list (bytes * value))
| BodyValue (v : value).

(** The [body] of [ReadResponseBody]: a pointer to an [interface{}] that
    holds [cur], or anything that is no pointer or is a nil pointer.  (On a
    pointer to a slot of another type [bv.Set] panics unless the payload
    has that type.) *)
Inductive bodyOut :=
| NotAPointer
| PtrTo (cur : value).

Section Client.

Variable bigIntScan : bytes -> option Z.

(** [zw.Close()] on the zlib writer over the buffer [b], after the bytes
    [raw] were written to it: an error, or what [b] then holds. *)
Variable zlibClose : bytes -> error + bytes.

(** [zlib.NewReader(c.conn)]: an error, or the inflated bytes the reader
    delivers.  What the reads take from the transport is not modelled. *)
Variable zlibNewReader : Conn -> error + bytes.

(** The error of [c.conn.Write(p)]. *)
Variable connWrite : bytes -> option error.

(** The verb [%v] of [fmt]. *)
Variable fmtV : value -> bytes.

(** [strings.EqualFold]. *)
Variable EqualFold : bytes -> bytes -> bool.

(** The elements of a slice or array, boxed: [v.Index(i).Interface()]. *)
Definition sliceElems (v : value) : list value :=
  match v with
  | VSlice l => l
  | VBytes s => List.map VUint s
  | _ => []
  end.

Definition getArgs (body : value) : list value * list (bytes * value) :=
  match body with
  | VSlice _ | VBytes _ => (sliceElems body, [])
  | VMap m =>
      fold_left
        (fun (acc : list value * list (bytes * value)) key =>
           let (args, kwargs) := acc in
           if EqualFold (str "args") key then
             match MapIndex m key with
             | Some argsValue => (args ++ sliceElems argsValue, kwargs)
             | None => acc
             end
           else if EqualFold (str "kwargs") key then
             match MapIndex m key with
             | Some (VMap kw) => (args, kw)
             | _ => acc
             end
           else acc)
        (MapKeys m) ([], [])
  | _ => ([], [])
  end.

(** The value both versions encode: [[seq, method, args, kwargs]] inside
    a one-element list. *)
Definition requestMessage (r : Request) (args : list value)
           (kwargs : list (bytes * value)) : value :=
  VSlice [VSlice [VUint (ReqSeq r); VString (ServiceMethod r);
                  VSlice args; VMap kwargs]].

(** The part the two versions of [WriteRequest] share: encode into the
    zlib writer over a local buffer, close the writer, write the buffer
    to the connection. *)
Definition writeFrame (c : clientCodec) (msg : value)
  : option error * clientCodec :=
  match Encode msg [] with
  | (Some err, _) => (Some err, c)
  | (None, raw) =>
      match zlibClose raw with
      | inl err => (Some err, c)
      | inr b =>
          (connWrite b,
           {| conn := {| sent := sent (conn c) ++ [b];
                         incoming := incoming (conn c) |};
              respBody := respBody c |})
      end
  end.

(** [WriteRequest] with [getArgs]. *)
Definition WriteRequest (c : clientCodec) (r : Request) (body : value)
  : option error * clientCodec :=
  let (args, kwargs) := getArgs body in
  writeFrame c (requestMessage r args kwargs).

(** [WriteRequest] with the type assertion [body.(ArgsKwargs)]. *)
Definition WriteRequestArgsKwargs (c : clientCodec) (r : Request)
           (body : Body) : option error * clientCodec :=
  let (args, kwargs) :=
    match body with
    | ArgsKwargs a k => (a, k)
    | BodyValue _ => ([], [])
    end in
  writeFrame c (requestMessage r args kwargs).

(** [uint64(x)] for an [int64] [x]. *)
Definition uint64 (x : Z) : Z := x mod 2 ^ 64.

(** The switch of [ReadResponseHeader] on the decoded [resp].  The type
    assertions [.(int64)] hold of the integers the decoder stores, which
    are all [int64]. *)
Definition dispatchResponse (c : clientCodec) (r : Response)
           (resp : list value) : outcome (clientCodec * Response) :=
  match nth_error resp 0 with
  | Some (VInt messageType) =>
      match nth_error resp 1 with
      | Some (VInt seq) =>
          let r := {| Seq := uint64 seq |} in
          if messageType =? rpcResponse then
            match nth_error resp 2 with
            | Some payload =>
                Returns None ({| conn := conn c; respBody := payload |}, r)
            | None => Panics
            end
          else if messageType =? rpcError then
            match nth_error resp 2 with
            | Some (VSlice errMsg) =>
                match nth_error errMsg 0, nth_error errMsg 1 with
                | Some exceptionType, Some exceptionMsg =>
                    Returns (Some (errorString (fmtV exceptionType ++ str ": "
                                                ++ fmtV exceptionMsg)))
                            (c, r)
                | _, _ => Panics
                end
            | _ => Panics
            end
          else if messageType =? rpcEvent then
            Returns (Some (errorString (str "event is not supported"))) (c, r)
          else
            Returns (Some (errorString (str "unknown message type"))) (c, r)
      | _ => Panics
      end
  | _ => Panics
  end.

Definition ReadResponseHeader (c : clientCodec) (r : Response)
  : outcome (clientCodec * Response) :=
  match zlibNewReader (conn c) with
  | inl err => Returns (Some err) (c, r)
  | inr zr =>
      match Decode bigIntScan (Some (KSlice, VSlice [])) zr with
      | Ok resp _ =>
          dispatchResponse c r (match resp with VSlice l => l | _ => [] end)
      | Err err => Returns (Some err) (c, r)
      | OutOfFuel => Panics       (* not reached: [Decode_fuel] *)
      end
  end.

Definition ReadResponseBody (c : clientCodec) (body : bodyOut)
  : option error * bodyOut * clientCodec :=
  match body with
  | NotAPointer =>
      (Some (errorString (str "Unwritable type passed into decode")), body, c)
  | PtrTo cur =>
      match respBody c with
      | VNil => (None, PtrTo cur, c)
      | payload => (None, PtrTo payload, c)
      end
  end.

End Client.

(** * The vocabulary of the properties *)

(** [m] succeeds on every encoder and appends exactly the [k] bytes [out]. *)
Definition emits (m : enc) (out : bytes) (k : nat) : Prop :=
  (forall e : Encoder, m e = (None, e ++ out)) /\ List.length out = k.

(** 256 distinct one-byte keys. *)
Definition keys256 : list (bytes * value) :=
  List.map (fun i => ([Z.of_nat i], VNil)) (seq 0 256).

(** An instance of [%v] that prints a string as it is. *)
Definition fmtStrings (v : value) : bytes :=
  match v with
  | VString s => s
  | _ => str "?"
  end.

(** [a] is not above [b]. *)
Definition notAbove (a b : bytes) : Prop := Less b a = false.

(** Every map inside the value has distinct keys, as every Go map has. *)
Inductive distinctKeys : value -> Prop :=
| dk_slice l : Forall distinctKeys l -> distinctKeys (VSlice l)
| dk_map m :
    NoDup (MapKeys m) -> Forall (fun kv => distinctKeys (snd kv)) m ->
    distinctKeys (VMap m)
| dk_ptr x : distinctKeys x -> distinctKeys (VPtr (Some x))
| dk_leaf v :
    match v with VSlice _ | VMap _ | VPtr (Some _) => False | _ => True end ->
    distinctKeys v.

(** Equal values: two maps are equal when they have as many entries and
    every key of the first leads in the second to an equal value, in
    whatever order the entries are enumerated. *)
Inductive same : value -> value -> Prop :=
| same_refl v : same v v
| same_slice l1 l2 : Forall2 same l1 l2 -> same (VSlice l1) (VSlice l2)
| same_map m1 m2 :
    List.length m1 = List.length m2 ->
    (forall k x, MapIndex m1 k = Some x ->
                 exists y, MapIndex m2 k = Some y /\ same x y) ->
    same (VMap m1) (VMap m2)
| same_ptr x y : same x y -> same (VPtr (Some x)) (VPtr (Some y)).

(** Two encodings that act alike on every encoder. *)
Definition enc_eq (a b : enc) : Prop := forall e, a e = b e.

(** The tag and the closing byte of a dict of [n] entries. *)
Definition dictOpen (n : Z) : enc :=
  if byte n <? dictFixedCount then write [byte (dictFixedStart + byte n)]
  else write [chrDict].

Definition dictClose (n : Z) : enc :=
  if negb (byte n <? dictFixedCount) then write [chrTerm] else ok.

(** A step that did not run out of fuel and left at most [n] bytes. *)
Definition within {A} (n : nat) (m : res A) : Prop :=
  match m with
  | Ok _ r' => (List.length r' <= n)%nat
  | Err _ => True
  | OutOfFuel => False
  end.

(** The number a digit string stands for, continuing from [n]. *)
Definition digitsValue (s : bytes) (n : Z) : Z :=
  fold_left (fun acc c => acc * 10 + (c - 48)) s n.

Definition isDigit (c : Z) : Prop := 48 <= c <= 57.

(** The encoder tests [byte(n) < count] where the format asks for
    [n < count]: the two agree when [n] is below [count] or [byte(n)] is
    not. *)
Definition fits (count n : Z) : Prop := n < count \/ count <= byte n.

(** What the decoder stores in an [interface{}] for an encoded value: the
    canonical types. *)
Fixpoint canonical (v : value) : value :=
  match v with
  | VNil => VNil
  | VBool b => VBool b
  | VInt i => VInt i
  | VUint u => if u <=? MaxInt64 then VInt u else VBigInt u
  | VBigInt n =>
      if (MinInt64 <=? n) && (n <=? MaxInt64) then VInt n else VBigInt n
  | VFloat32 b => VFloat64 (float32to64 b)
  | VFloat64 b => VFloat64 b
  | VString s => VString s
  | VBytes s => VString s
  | VSlice l => VSlice (List.map canonical l)
  | VMap m =>
      let cm := List.map (fun kv => (fst kv, canonical (snd kv))) m in
      VMap (List.map
              (fun key => (key, match MapIndex cm key with
                                | Some x => x
                                | None => VNil
                                end))
              (Sort (MapKeys cm)))
  | VPtr None => VNil
  | VPtr (Some x) => canonical x
  | VOther => VOther
  end.

(** The values of the round trip: those of the spec (integers of 64 bits,
    big integers of at most 64 characters, floats by their bits, strings,
    lists, dicts with distinct string keys, nil and non-nil pointers to
    them), every length within [fits]. *)
Inductive plain : value -> Prop :=
| plain_nil : plain VNil
| plain_bool b : plain (VBool b)
| plain_int i : is_int64 i -> plain (VInt i)
| plain_uint u : is_uint64 u -> plain (VUint u)
| plain_float32 b : 0 <= b < 2 ^ 32 -> plain (VFloat32 b)
| plain_float64 b : 0 <= b < 2 ^ 64 -> plain (VFloat64 b)
| plain_bigint n : len (FormatInt n) <= 64 -> plain (VBigInt n)
| plain_string s : fits 64 (len s) -> len s <= MaxInt64 -> plain (VString s)
| plain_bytes s : fits 64 (len s) -> len s <= MaxInt64 -> plain (VBytes s)
| plain_slice l : fits 64 (len l) -> Forall plain l -> plain (VSlice l)
| plain_map m :
    fits 25 (len m) -> NoDup (MapKeys m) ->
    Forall (fun kv => (fits 64 (len (fst kv)) /\ len (fst kv) <= MaxInt64)
                      /\ plain (snd kv)) m ->
    plain (VMap m)
| plain_ptr_nil : plain (VPtr None)
| plain_ptr x : plain x -> x <> VNil -> plain (VPtr (Some x)).

(** [m] succeeds on every encoder and appends [out]. *)
Definition appends (m : enc) (out : bytes) : Prop :=
  forall e : Encoder, m e = (None, e ++ out).

(** [out] starts with a byte other than TERM. *)
Definition opens (out : bytes) : Prop :=
  exists c out', out = c :: out' /\ c <> 127.

(** A scanner of decimal text, one instance of [fmt.Sscan] into a
    [big.Int]: an optional minus sign and digits. *)
Definition scanDecimal (s : bytes) : option Z :=
  match s with
  | 45 :: digits => Some (- digitsValue digits 0)
  | _ => Some (digitsValue s 0)
  end.

Section Reading.

Variable bigIntScan : bytes -> option Z.

(** [out] is decoded into an [interface{}] that holds nil as [v], with
    any fuel above its length and whatever follows it. *)
Definition readsBy (out : bytes) (v : value) : Prop :=
  forall (fuel : nat) (rest : bytes),
    (List.length out < fuel)%nat ->
    decodeValue bigIntScan fuel KInterface VNil (out ++ rest) = Ok v rest.

(** An entry on the wire: the encoding of its key, the key, the encoding
    of its value, and the value as it is decoded. *)
Record wireEntry := { keyBytes : bytes; key : bytes;
                      valueBytes : bytes; decoded : value }.

Definition readsEntryBy (f : nat) (en : wireEntry) : Prop :=
  opens (keyBytes en) /\
  (forall rest,
      decodeValue bigIntScan f KString (VString []) (keyBytes en ++ rest)
      = Ok (VString (key en)) rest) /\
  (List.length (valueBytes en) < f)%nat /\
  readsBy (valueBytes en) (decoded en).

(** [v] is written without error as bytes that do not start with TERM and
    that are read back as [canonical v]. *)
Definition roundTripsBy (v : value) : Prop :=
  exists out, appends (Encode v) out /\ opens out /\ readsBy out (canonical v).

(** An entry whose key and value are read back, with any fuel above
    their lengths. *)
Definition goodEntryBy (en : wireEntry) : Prop :=
  opens (keyBytes en) /\
  (forall fuel rest,
      (List.length (keyBytes en) < fuel)%nat ->
      decodeValue bigIntScan fuel KString (VString []) (keyBytes en ++ rest)
      = Ok (VString (key en)) rest) /\
  opens (valueBytes en) /\
  readsBy (valueBytes en) (decoded en).

End Reading.

(** [m] appends the same bytes [out] to every encoder and returns the
    same result, nil or the error of a number that is too long. *)
Definition regular (m : enc) : Prop :=
  exists (r : option error) (out : bytes),
    (r = None \/ r = Some errNumberTooLong) /\
    forall e : Encoder, m e = (r, e ++ out).

(** No big integer inside the value has more than 64 characters. *)
Inductive shortBigInts : value -> Prop :=
| sb_bigint n : len (FormatInt n) <= maxIntLength -> shortBigInts (VBigInt n)
| sb_slice l : Forall shortBigInts l -> shortBigInts (VSlice l)
| sb_map m : Forall (fun kv => shortBigInts (snd kv)) m -> shortBigInts (VMap m)
| sb_ptr x : shortBigInts x -> shortBigInts (VPtr (Some x))
| sb_uint u : is_uint64 u -> shortBigInts (VUint u)
| sb_leaf v :
    match v with
    | VBigInt _ | VUint _ | VSlice _ | VMap _ | VPtr (Some _) => False
    | _ => True
    end -> shortBigInts v.

(** [m] returns nil on every encoder. *)
Definition succeeds (m : enc) : Prop := forall e : Encoder, fst (m e) = None.

(** What an [interface{}] holds after a value with the leading byte [c]
    was decoded into it, [cur] being what it held. *)
Definition holdsFor (c : Z) (cur v : value) : Prop :=
  (c = chrNone /\ v = cur) \/
  (c = chrTrue /\ v = VBool true) \/
  (c = chrFalse /\ v = VBool false) \/
  ((isFixedPosInt c = true \/ isFixedNegInt c = true \/ chrInt <= c <= chrInt8)
   /\ exists n, v = VInt n \/ v = VBigInt n) \/
  ((c = chrFloat32 \/ c = chrFloat64) /\ exists b, v = VFloat64 b) \/
  ((isFixedString c = true \/ isString c = true) /\ exists s, v = VString s) \/
  ((c = chrList \/ isFixedSlice c = true) /\ exists l, v = VSlice l) \/
  ((c = chrDict \/ isFixedMap c = true) /\ exists m, v = VMap m).

(** The same for a [string] slot and a [[]interface{}] slot. *)
Definition slotHoldsFor (k : kind) (c : Z) (cur v : value) : Prop :=
  ((c = chrNone \/ c = chrFloat32 \/ c = chrFloat64) /\ v = cur) \/
  (k = KString /\ (isFixedString c = true \/ isString c = true)
   /\ exists s, v = VString s) \/
  (k = KSlice /\ (c = chrList \/ isFixedSlice c = true)
   /\ exists l, v = VSlice l).

(** The request [WriteRequest] encodes, as the peer decodes it. *)
Definition requestDecoded (r : Request) (args : list value)
           (kwargs : list (bytes * value)) : value :=
  VSlice [VSlice [canonical (VUint (ReqSeq r)); VString (ServiceMethod r);
                  canonical (VSlice args); canonical (VMap kwargs)]].

(** The shape of a decoded response that [ReadResponseHeader] can take
    apart: two [int64] first, a third element for a result, and for an
    error a third element that is a list of at least two. *)
Definition wellShaped (resp : list value) : Prop :=
  exists messageType seq,
    nth_error resp 0 = Some (VInt messageType) /\
    nth_error resp 1 = Some (VInt seq) /\
    (messageType = rpcResponse -> exists payload, nth_error resp 2 = Some payload) /\
    (messageType = rpcError ->
     exists t m more, nth_error resp 2 = Some (VSlice (t :: m :: more))).

(** At most one of the keys is accepted by [p]. *)
Definition atMostOne (p : bytes -> bool) (keys : list bytes) : Prop :=
  forall k1 k2, In k1 keys -> In k2 keys -> p k1 = true -> p k2 = true ->
                k1 = k2.

(** An instance of [strings.EqualFold] on ASCII text: equality up to the
    case of the letters. *)
Definition toLower (c : Z) : Z :=
  if (65 <=? c) && (c <=? 90) then c + 32 else c.

Definition EqualFoldASCII (s t : bytes) : bool :=
  bytes_eqb (List.map toLower s) (List.map toLower t).

(** [p] is a beginning of [out] that stops short of its end. *)
Definition cutOf (out p : bytes) : Prop := exists q, out = p ++ q /\ q <> [].

(** No [float32] inside the value. *)
Fixpoint noFloat32 (v : value) : bool :=
  match v with
  | VFloat32 _ => false
  | VSlice l => forallb noFloat32 l
  | VMap m => forallb (fun kv => noFloat32 (snd kv)) m
  | VPtr (Some x) => noFloat32 x
  | _ => true
  end.

Section Cutting.

Variable bigIntScan : bytes -> option Z.

(** Decoding [p] into the slot fails, with any fuel above its length. *)
Definition failsBy (k : kind) (cur : value) (p : bytes) : Prop :=
  forall fuel : nat,
    (List.length p < fuel)%nat ->
    exists e, decodeValue bigIntScan fuel k cur p = Err e.

(** Every beginning of the bytes of [m] that stops short of their end
    fails to decode. *)
Definition cutsBy (k : kind) (cur : value) (m : enc) : Prop :=
  forall p, cutOf (snd (m [])) p -> failsBy k cur p.

End Cutting.

(** * Properties *)

(** ** The fixtures of the encoder and decoder tests *)

Example encode_fixtures :
  encoded VNil = (None, [69]) /\
  encoded (VPtr None) = (None, [69]) /\
  encoded (VBool false) = (None, str "D") /\
  encoded (VInt 43) = (None, [43]) /\
  encoded (VUint 43) = (None, [43]) /\
  encoded (VInt (-32)) = (None, [101]) /\
  encoded (VInt 127) = (None, [62; 127]) /\
  encoded (VUint 32767) = (None, [63; 127; 255]) /\
  encoded (VInt 2147483647) = (None, [64; 127; 255; 255; 255]) /\
  encoded (VUint 9223372036854775807)
  = (None, [65; 127; 255; 255; 255; 255; 255; 255; 255]) /\
  encoded (VUint 18446744073709551615)
  = (None, str "=18446744073709551615" ++ [127]) /\
  encoded (VPtr (Some (VBigInt 9223372036854775808)))
  = (None, str "=9223372036854775808" ++ [127]) /\
  encoded (VFloat32 2139095039) = (None, [66; 127; 127; 255; 255]) /\
  encoded (VString (repeat 111 65)) = (None, str "65:" ++ repeat 111 65) /\
  encoded (VMap [(str "b", VInt 1); (str "a", VInt 2)])
  = (None, [104; 129; 97; 2; 129; 98; 1]) /\
  encoded (VSlice [VSlice [VUint 1; VString (str "daemon.info");
                           VSlice []; VMap []]])
  = (None, [193; 196; 1; 139; 100; 97; 101; 109; 111; 110; 46; 105; 110;
            102; 111; 192; 102]).
Proof. repeat split; vm_compute; reflexivity. Qed.

Example decode_fixtures (bigIntScan : bytes -> option Z) :
  let dec := Decode bigIntScan (Some (KInterface, VNil)) in
  dec [69] = Ok VNil [] /\
  dec (str "D") = Ok (VBool false) [] /\
  dec [101] = Ok (VInt (-32)) [] /\
  dec [63; 127; 255] = Ok (VInt 32767) [] /\
  dec [65; 127; 255; 255; 255; 255; 255; 255; 255]
  = Ok (VInt 9223372036854775807) [] /\
  dec [66; 127; 127; 255; 255] = Ok (VFloat64 5183643170566569984) [] /\
  dec (str "65:" ++ repeat 111 65) = Ok (VString (repeat 111 65)) [] /\
  dec [195; 62; 127; 129; 97; 69] = Ok (VSlice [VInt 127; VString [97]; VNil]) [] /\
  dec [59; 129; 97; 127] = Ok (VSlice [VString [97]]) [] /\
  dec [104; 129; 97; 2; 129; 98; 1]
  = Ok (VMap [(str "a", VInt 2); (str "b", VInt 1)]) [].
Proof. repeat split; vm_compute; reflexivity. Qed.

Example errNumberTooLong_text :
  errNumberTooLong
  = errorString (str "rencode: Number is longer than 64 characters").
Proof. reflexivity. Qed.

(** ** The encoder's choice between the fixed and the variable form *)

Lemma byte_small (x : Z) : 0 <= x < 256 -> byte x = x.
Proof. intros H. unfold byte. apply Z.mod_small. exact H. Qed.

Lemma byte_range (x : Z) : 0 <= byte x < 256.
Proof. unfold byte. apply Z.mod_pos_bound. lia. Qed.

Lemma len_nonneg {A} (l : list A) : 0 <= len l.
Proof. unfold len. lia. Qed.

(** A string shorter than 64 bytes takes the fixed form. *)
Lemma encodeBytes_fixed (s : bytes) (e : Encoder) :
  len s < 64 -> encodeBytes s e = (None, e ++ (128 + len s) :: s).
Proof.
  intros H. pose proof (len_nonneg s) as H0.
  unfold encodeBytes, andThen, write. cbv zeta.
  rewrite (byte_small (x := len s)) by lia.
  unfold strFixedCount, strFixedStart.
  destruct (Z.ltb_spec (len s) 64) as [_ | Hge]; [ | lia ].
  rewrite byte_small by lia.
  rewrite <- app_assoc. reflexivity.
Qed.

(** From 64 to 255 bytes it takes the variable form. *)
Lemma encodeBytes_variable (s : bytes) (e : Encoder) :
  64 <= byte (len s) ->
  encodeBytes s e = (None, e ++ FormatInt (len s) ++ str ":" ++ s).
Proof.
  intros H. unfold encodeBytes, andThen, write. cbv zeta.
  unfold strFixedCount.
  destruct (Z.ltb_spec (byte (len s)) 64) as [Hlt | _]; [ lia | ].
  rewrite <- !app_assoc. reflexivity.
Qed.

(** The test is made on [byte(lv)]: whenever the length modulo 256 is
    below 64 the fixed form is written, with the reduced length in the
    tag, whatever the length is. *)
Lemma encodeBytes_wraps (s : bytes) (e : Encoder) :
  byte (len s) < 64 ->
  encodeBytes s e = (None, e ++ (128 + byte (len s)) :: s).
Proof.
  intros H. pose proof (byte_range (len s)) as H0.
  unfold encodeBytes, andThen, write. cbv zeta.
  unfold strFixedCount, strFixedStart.
  destruct (Z.ltb_spec (byte (len s)) 64) as [_ | Hge]; [ | lia ].
  rewrite (byte_small (x := 128 + _)) by lia.
  rewrite <- app_assoc. reflexivity.
Qed.

(** C2: evaluation at the inputs on which the encoder departs from the
    claim.  A string of 256 bytes is written in the fixed form with tag
    128 (that of the empty string), a list of 256 elements with tag 192 and
    no TERM, and a dict of 256 entries with tag 102 and no TERM, where the
    claim asks for the variable forms. *)
Theorem C2_fixed_form_chosen_at_256 :
  encoded (VString (repeat 111 256)) = (None, 128 :: repeat 111 256) /\
  encoded (VSlice (repeat VNil 256)) = (None, 192 :: repeat 69 256) /\
  encoded (VMap keys256)
  = (None, 102 :: List.concat (List.map (fun i => [129; Z.of_nat i; 69]) (seq 0 256))).
Proof. repeat split; vm_compute; reflexivity. Qed.

(** C1: evaluation at an input on which the round trip fails.  The byte
    string of 256 bytes is encoded without error, and decoding the output
    succeeds with the empty string, leaving the 256 bytes unread. *)
Theorem C1_round_trip_fails_at_256 (bigIntScan : bytes -> option Z) :
  encoded (VBytes (repeat 111 256)) = (None, 128 :: repeat 111 256) /\
  Decode bigIntScan (Some (KInterface, VNil)) (128 :: repeat 111 256)
  = Ok (VString []) (repeat 111 256).
Proof. split; vm_compute; reflexivity. Qed.

(** C6: evaluation at inputs on which [Encode] succeeds without having
    written one wire value.  For a list of 256 elements the output is the
    complete empty list (tag 192) followed by 256 stray bytes, as the
    decoder reads it; for a value of a kind without a case nothing is
    written at all. *)
Theorem C6_success_without_one_value (bigIntScan : bytes -> option Z) :
  encoded (VSlice (repeat VNil 256)) = (None, 192 :: repeat 69 256) /\
  Decode bigIntScan (Some (KInterface, VNil)) (192 :: repeat 69 256)
  = Ok (VSlice []) (repeat 69 256) /\
  encoded VOther = (None, []).
Proof. repeat split; vm_compute; reflexivity. Qed.

(** C9: a stream that ends inside the body of a float32 is decoded with
    success, as the number zero: after the tag 66 and fewer than four
    bytes, [Decode] returns no error.  The float64 branch does return the
    error of the read. *)
Theorem C9_truncated_float32_is_success (bigIntScan : bytes -> option Z)
        (body : bytes) (H : (List.length body < 4)%nat) :
  Decode bigIntScan (Some (KInterface, VNil)) (66 :: body) = Ok (VFloat64 0) [].
Proof.
  destruct body as [ | b0 [ | b1 [ | b2 [ | b3 body ] ] ] ];
    simpl in H; try lia; reflexivity.
Qed.

Lemma C9_truncated_float32_witness :
  Decode (fun _ => None) (Some (KInterface, VNil)) [66; 63; 128]
  = Ok (VFloat64 0) [].
Proof.
  apply (C9_truncated_float32_is_success (fun _ => None) [63; 128]).
  simpl. lia.
Defined.

Example truncated_elsewhere_is_error (bigIntScan : bytes -> option Z) :
  let dec := Decode bigIntScan (Some (KInterface, VNil)) in
  dec [44; 63; 240] = Err ErrUnexpectedEOF /\
  dec [63; 1] = Err ErrUnexpectedEOF /\
  dec [65] = Err EOF /\
  dec [130; 97] = Err ErrUnexpectedEOF /\
  dec (str "12:abc") = Err ErrUnexpectedEOF /\
  dec (str "12") = Err EOF /\
  dec (str "=123") = Err EOF /\
  dec [194; 1] = Err EOF /\
  dec [59; 1] = Err EOF /\
  dec [103; 129; 97] = Err EOF /\
  dec [] = Err EOF.
Proof. repeat split. Qed.

(** ** The integer ladder *)

Lemma formatBits_length (fuel : nat) : forall (u : Z) (acc : bytes),
  (List.length (formatBits fuel u acc) <= fuel + List.length acc)%nat.
Proof.
  induction fuel as [ | f IH ]; intros u acc; simpl.
  - lia.
  - destruct (u <? 10).
    + simpl. lia.
    + specialize (IH (u / 10) ((48 + u mod 10) :: acc)). simpl in IH. lia.
Qed.

(** An unsigned 64-bit number has at most 64 characters (it has at most
    20), so [encodeBigInt] accepts it. *)
Lemma FormatInt_uint64_length (u : Z) : is_uint64 u -> len (FormatInt u) <= 64.
Proof.
  intros [H0 H1]. unfold FormatInt.
  destruct (Z.ltb_spec u 0) as [Hneg | _]; [ lia | ].
  unfold FormatUint, len.
  pose proof (formatBits_length (S (Z.to_nat (Z.log2 u))) u []) as Hlen.
  change (List.length (@nil Z)) with 0%nat in Hlen.
  assert (Hlog : Z.log2 u < 64).
  { destruct (Z.eq_dec u 0) as [-> | Hnz]; [ reflexivity | ].
    apply Z.log2_lt_pow2; [ lia | ]. unfold MaxUint64 in H1.
    change (2 ^ 64) with 18446744073709551616 in *. lia. }
  pose proof (Z.log2_nonneg u). lia.
Qed.

Ltac decide_tests :=
  repeat match goal with
         | |- context [ ?a <=? ?b ] => destruct (Z.leb_spec a b)
         | |- context [ ?a <? ?b ] => destruct (Z.ltb_spec a b)
         | |- context [ ?a >? ?b ] => rewrite (Z.gtb_ltb a b)
         end;
  cbv beta iota delta [andb]; try lia.

Ltac limits :=
  unfold is_int64, is_uint64, MinInt8, MaxInt8, MinInt16, MaxInt16,
    MinInt32, MaxInt32, MinInt64, MaxInt64, MaxUint64 in *;
  change (2 ^ 63) with 9223372036854775808 in *;
  change (2 ^ 64) with 18446744073709551616 in *.

(** Above [MaxInt64] an unsigned integer is handed to [encodeBigInt]. *)
Lemma encodeUint_promotes (u : Z) (e : Encoder) :
  is_uint64 u -> MaxInt64 < u ->
  encodeUint u e = (None, e ++ chrInt :: FormatInt u ++ [chrTerm]).
Proof.
  intros Hu Hbig. pose proof (FormatInt_uint64_length Hu) as Hlen.
  unfold encodeUint, encodeBigInt, andThen, write, fail,
    intPosFixedCount, maxIntLength.
  limits. decide_tests.
  rewrite <- !app_assoc. reflexivity.
Qed.

(** C4: the encoder writes every signed 64-bit integer in the narrowest
    form: one byte on [-32, 43] (the byte [n], or [70 - 1 - n] below
    zero), two bytes on the rest of the int8 range, three on the int16
    range, five on the int32 range and nine beyond; an unsigned integer
    follows the same ladder up to [MaxInt64] and above it is written as a
    BigInt, tag 61, the decimal digits and TERM. *)
Theorem C4_narrowest_integer (n : Z) (Hn : is_int64 n) :
  (0 <= n <= 43 -> emits (Encode (VInt n)) [n] 1) /\
  (-32 <= n < 0 -> emits (Encode (VInt n)) [70 - 1 - n] 1) /\
  (MinInt8 <= n <= MaxInt8 -> ~ -32 <= n <= 43 ->
   emits (Encode (VInt n)) [chrInt1; byte n] 2) /\
  (MinInt16 <= n <= MaxInt16 -> ~ MinInt8 <= n <= MaxInt8 ->
   emits (Encode (VInt n)) (chrInt2 :: bigEndian 2 n) 3) /\
  (MinInt32 <= n <= MaxInt32 -> ~ MinInt16 <= n <= MaxInt16 ->
   emits (Encode (VInt n)) (chrInt4 :: bigEndian 4 n) 5) /\
  (~ MinInt32 <= n <= MaxInt32 ->
   emits (Encode (VInt n)) (chrInt8 :: bigEndian 8 n) 9) /\
  (0 <= n -> forall e, Encode (VUint n) e = Encode (VInt n) e) /\
  (forall u, is_uint64 u -> MaxInt64 < u ->
   emits (Encode (VUint u)) (chrInt :: FormatInt u ++ [chrTerm])
         (2 + List.length (FormatInt u))).
Proof.
  unfold emits, Encode, EncodeWith, encodeValue.
  repeat split; try reflexivity; intros;
    try (apply encodeUint_promotes; assumption);
    try (unfold encodeInt, encodeUint, andThen, write,
           intPosFixedCount, intPosFixedStart, intNegFixedCount,
           intNegFixedStart;
         limits; decide_tests);
    try reflexivity; try (rewrite <- app_assoc; reflexivity).
  - rewrite (byte_small (x := n)) by lia. simpl. rewrite byte_small by lia.
    reflexivity.
  - replace (byte n) with (n + 256)
      by (unfold byte; apply (Z.mod_unique n 256 (-1)); lia).
    replace (byte (70 - 1 - (n + 256))) with (70 - 1 - n)
      by (unfold byte; apply (Z.mod_unique _ 256 (-1)); lia).
    reflexivity.
  - simpl. rewrite length_app. simpl. lia.
Qed.

Lemma C4_narrowest_integer_witness :
  emits (Encode (VInt (-129))) (chrInt2 :: bigEndian 2 (-129)) 3.
Proof.
  apply (C4_narrowest_integer (n := -129)); unfold is_int64; limits; lia.
Defined.

(** ** The limit on a BigInt *)

(** C5: a big integer whose decimal text is longer than 64 characters is
    refused with the error "rencode: Number is longer than 64 characters",
    and the encoder holds what it held before: the test comes before the
    first write.  The same holds through a pointer to the big integer. *)
Theorem C5_bigint_too_long (n : Z) (e : Encoder)
        (H : (List.length (FormatInt n) > 64)%nat) :
  Encode (VBigInt n) e = (Some errNumberTooLong, e) /\
  Encode (VPtr (Some (VBigInt n))) e = (Some errNumberTooLong, e).
Proof.
  assert (Hb : encodeBigInt n e = (Some errNumberTooLong, e)).
  { unfold encodeBigInt, maxIntLength, len, fail.
    destruct (Z.gtb_spec (Z.of_nat (List.length (FormatInt n))) 64) as [_ | Hle];
      [ reflexivity | lia ]. }
  split; exact Hb.
Qed.

Lemma C5_bigint_too_long_witness :
  Encode (VBigInt (10 ^ 64)) [192] = (Some errNumberTooLong, [192]).
Proof.
  apply (@C5_bigint_too_long (10 ^ 64) [192]).
  vm_compute. lia.
Defined.

(** A big integer of at most 64 characters is written: tag, digits, TERM. *)
Lemma encodeBigInt_accepts (n : Z) (e : Encoder) :
  (List.length (FormatInt n) <= 64)%nat ->
  Encode (VBigInt n) e = (None, e ++ chrInt :: FormatInt n ++ [chrTerm]).
Proof.
  intros H. unfold Encode, EncodeWith, encodeValue, encodeBigInt,
              maxIntLength, len, andThen, write.
  destruct (Z.gtb_spec (Z.of_nat (List.length (FormatInt n))) 64) as [Hgt | _];
    [ lia | ].
  rewrite <- !app_assoc. reflexivity.
Qed.

(** ** The client codec: the response body *)

Section ClientProperties.

Variable bigIntScan : bytes -> option Z.
Variable zlibClose : bytes -> error + bytes.
Variable zlibNewReader : Conn -> error + bytes.
Variable connWrite : bytes -> option error.
Variable fmtV : value -> bytes.
Variable EqualFold : bytes -> bytes -> bool.

(** C8, as amended: with a payload in the stash, [ReadResponseBody]
    stores the payload as it is in the output slot and the codec, stash
    included, is what it was, so that the next call stores the same
    payload again; with no payload in the stash it succeeds, and slot and
    codec are what they were.  The stash changes only when the switch of
    [ReadResponseHeader] returns without error, to the payload of that
    response. *)
Theorem C8_ReadResponseBody_keeps_stash (c : clientCodec) (cur : value) :
  (respBody c <> VNil ->
   ReadResponseBody c (PtrTo cur) = (None, PtrTo (respBody c), c) /\
   ReadResponseBody c (PtrTo (respBody c)) = (None, PtrTo (respBody c), c)) /\
  (respBody c = VNil ->
   ReadResponseBody c (PtrTo cur) = (None, PtrTo cur, c)) /\
  (forall r resp err c' r',
      dispatchResponse fmtV c r resp = Returns err (c', r') ->
      (err = None /\ nth_error resp 2 = Some (respBody c'))
      \/ (err <> None /\ c' = c)).
Proof.
  unfold ReadResponseBody. repeat split.
  - destruct (respBody c); try contradiction; reflexivity.
  - destruct (respBody c); try contradiction; reflexivity.
  - intros ->. reflexivity.
  - intros r resp err c' r'. unfold dispatchResponse.
    repeat match goal with
           | |- context [ match ?x with _ => _ end ] =>
               destruct x eqn:?; try discriminate
           end;
      intros Heq; inversion Heq; subst;
      first [ left; split; reflexivity
            | right; split; [ discriminate | reflexivity ] ].
Qed.


End ClientProperties.

(** C8, as the claim has it: a codec with a payload in the stash, here the
    number 7.  After [ReadResponseBody] the stash still holds the payload
    (it is not cleared), and a second call stores it again in a fresh
    slot: the payload is consumed twice. *)
Lemma C8_stash_is_not_cleared :
  let c := {| conn := {| sent := []; incoming := [] |}; respBody := VInt 7 |} in
  let '(_, _, c1) := ReadResponseBody c (PtrTo VNil) in
  respBody c1 <> VNil /\
  ReadResponseBody c1 (PtrTo VNil) = (None, PtrTo (VInt 7), c1).
Proof. simpl. split; [ discriminate | reflexivity ]. Qed.

(** ** The client codec: the response header *)

Section ResponseHeader.

Variable bigIntScan : bytes -> option Z.
Variable zlibNewReader : Conn -> error + bytes.
Variable fmtV : value -> bytes.

(** [%v] prints a string as it is. *)
Hypothesis fmtV_string : forall s : bytes, fmtV (VString s) = s.

Let header := ReadResponseHeader bigIntScan zlibNewReader fmtV.

(** C7: when the value decoded from the frame is [[kind, seq, payload]],
    [ReadResponseHeader] stores [uint64(seq)] in the response whatever
    [kind] is (this is [seq] itself when [seq] is not negative), and then:
    for kind 1 it succeeds with the payload in the stash; for kind 2 and a
    payload list that starts with two elements it returns the error
    "<first>: <second>" as [%v] prints them, the two texts themselves
    when they are strings, codec unchanged; for kind 3 the error "event is
    not supported"; for any other kind the error "unknown message type". *)
Theorem C7_ReadResponseHeader_dispatch
        (c : clientCodec) (r : Response) (zr rest : bytes)
        (kind seq : Z) (payload : value)
        (Hzlib : zlibNewReader (conn c) = inr zr)
        (Hdecode : Decode bigIntScan (Some (KSlice, VSlice [])) zr
                   = Ok (VSlice [VInt kind; VInt seq; payload]) rest) :
  let r' := {| Seq := uint64 seq |} in
  (0 <= seq -> is_int64 seq -> Seq r' = seq) /\
  (kind = 1 ->
   header c r = Returns None ({| conn := conn c; respBody := payload |}, r')) /\
  (kind = 2 -> forall t m more, payload = VSlice (t :: m :: more) ->
   header c r
   = Returns (Some (errorString (fmtV t ++ str ": " ++ fmtV m))) (c, r')) /\
  (kind = 2 -> forall t m more,
      payload = VSlice (VString t :: VString m :: more) ->
   header c r = Returns (Some (errorString (t ++ str ": " ++ m))) (c, r')) /\
  (kind = 3 ->
   header c r
   = Returns (Some (errorString (str "event is not supported"))) (c, r')) /\
  (kind <> 1 -> kind <> 2 -> kind <> 3 ->
   header c r
   = Returns (Some (errorString (str "unknown message type"))) (c, r')).
Proof.
  intros r'. subst header. unfold ReadResponseHeader.
  rewrite Hzlib, Hdecode. unfold dispatchResponse, rpcResponse, rpcError,
                            rpcEvent. simpl nth_error. fold r'.
  repeat split.
  - intros H0 H64. subst r'. simpl. unfold uint64. limits.
    apply Z.mod_small. lia.
  - intros ->. reflexivity.
  - intros -> t m more ->. reflexivity.
  - intros -> t m more ->. simpl. rewrite !fmtV_string. reflexivity.
  - intros ->. reflexivity.
  - intros H1 H2 H3.
    destruct (Z.eqb_spec kind 1); [ contradiction | ].
    destruct (Z.eqb_spec kind 2); [ contradiction | ].
    destruct (Z.eqb_spec kind 3); [ contradiction | ].
    reflexivity.
Qed.

End ResponseHeader.

Lemma C7_ReadResponseHeader_witness :
  let c := {| conn := {| sent := []; incoming := [] |}; respBody := VNil |} in
  ReadResponseHeader (fun _ => None)
    (fun _ => inr [195; 2; 7; 194; 129; 69; 129; 109]) fmtStrings
    c {| Seq := 0 |}
  = Returns (Some (errorString (str "E: m"))) (c, {| Seq := 7 |}).
Proof.
  intros c.
  refine (proj1 (proj2 (proj2 (proj2
    (@C7_ReadResponseHeader_dispatch (fun _ => None)
       (fun _ => inr [195; 2; 7; 194; 129; 69; 129; 109]) fmtStrings
       (fun s => eq_refl) c {| Seq := 0 |}
       [195; 2; 7; 194; 129; 69; 129; 109] [] 2 7
       (VSlice [VString [69]; VString [109]]) eq_refl eq_refl))))
    eq_refl [69] [109] [] eq_refl).
Defined.

(** ** The order of dict keys *)

Section KeyOrder.

Ltac tests :=
  repeat match goal with
         | H : context [ ?a <? ?b ] |- _ => destruct (Z.ltb_spec a b)
         | |- context [ ?a <? ?b ] => destruct (Z.ltb_spec a b)
         | H : context [ ?a =? ?b ] |- _ => destruct (Z.eqb_spec a b)
         | |- context [ ?a =? ?b ] => destruct (Z.eqb_spec a b)
         end;
  simpl in *; try discriminate; try lia; try reflexivity.

Lemma Less_irrefl (a : bytes) : Less a a = false.
Proof.
  induction a as [ | x a IH ]; simpl; [ reflexivity | ].
  rewrite IH. tests.
Qed.

Lemma Less_trans (a : bytes) : forall b c,
  Less a b = true -> Less b c = true -> Less a c = true.
Proof.
  induction a as [ | x a IH ]; intros [ | y b ] [ | z c ]; simpl;
    try discriminate; try reflexivity.
  intros Hab Hbc. tests; subst; eauto.
Qed.

(** Two strings that are not below one another are the same string. *)
Lemma Less_trichotomy (a : bytes) : forall b,
  Less a b = false -> a = b \/ Less b a = true.
Proof.
  induction a as [ | x a IH ]; intros [ | y b ]; simpl; intros H;
    try discriminate; auto.
  tests.
  subst y. destruct (IH b H) as [-> | Hlt]; auto.
Qed.

Lemma Less_asym (a b : bytes) : Less a b = true -> Less b a = false.
Proof.
  intros Hab. destruct (Less b a) eqn:Hba; [ | reflexivity ].
  pose proof (Less_trans _ _ _ Hab Hba) as Haa.
  rewrite Less_irrefl in Haa. discriminate.
Qed.

Lemma notAbove_trans (a b c : bytes) :
  notAbove a b -> notAbove b c -> notAbove a c.
Proof.
  unfold notAbove. intros Hab Hbc.
  destruct (Less c a) eqn:Hca; [ | reflexivity ].
  destruct (Less_trichotomy _ _ Hbc) as [-> | Hbc'].
  - congruence.
  - rewrite (Less_trans _ _ _ Hbc' Hca) in Hab. discriminate.
Qed.

Lemma insertKey_Permutation (k : bytes) (ks : list bytes) :
  Permutation (insertKey k ks) (k :: ks).
Proof.
  induction ks as [ | k' ks IH ]; simpl; [ reflexivity | ].
  destruct (Less k' k); [ | reflexivity ].
  rewrite IH. apply perm_swap.
Qed.

Lemma Sort_Permutation (ks : list bytes) : Permutation (Sort ks) ks.
Proof.
  induction ks as [ | k ks IH ]; simpl; [ reflexivity | ].
  rewrite insertKey_Permutation. constructor. exact IH.
Qed.

Lemma insertKey_sorted (k : bytes) (ks : list bytes) :
  StronglySorted notAbove ks -> StronglySorted notAbove (insertKey k ks).
Proof.
  induction ks as [ | k' ks IH ]; simpl; intros Hs.
  - repeat constructor.
  - inversion Hs as [ | ? ? Hs' Hall ]; subst.
    destruct (Less k' k) eqn:Hlt.
    + constructor; [ apply IH; exact Hs' | ].
      apply (Permutation_Forall (Permutation_sym (insertKey_Permutation k ks))).
      constructor; [ apply Less_asym; exact Hlt | exact Hall ].
    + constructor; [ exact Hs | ].
      constructor; [ exact Hlt | ].
      apply (Forall_impl (P := notAbove k')); [ | exact Hall ].
      intros x Hx. exact (notAbove_trans Hlt Hx).
Qed.

Lemma Sort_sorted (ks : list bytes) : StronglySorted notAbove (Sort ks).
Proof.
  induction ks as [ | k ks IH ]; simpl.
  - constructor.
  - apply insertKey_sorted. exact IH.
Qed.

(** A list has one sorted arrangement. *)
Lemma sorted_unique (l1 : list bytes) : forall l2,
  StronglySorted notAbove l1 -> StronglySorted notAbove l2 ->
  Permutation l1 l2 -> l1 = l2.
Proof.
  induction l1 as [ | a l1 IH ]; intros l2 H1 H2 Hp.
  - apply Permutation_nil in Hp. subst. reflexivity.
  - destruct l2 as [ | b l2 ].
    + apply Permutation_sym, Permutation_nil in Hp. discriminate.
    + inversion H1 as [ | ? ? H1' Ha ]; subst.
      inversion H2 as [ | ? ? H2' Hb ]; subst.
      assert (Hab : a = b).
      { assert (Hin_a : In a (b :: l2))
          by (apply (Permutation_in _ Hp); left; reflexivity).
        assert (Hin_b : In b (a :: l1))
          by (apply (Permutation_in _ (Permutation_sym Hp)); left; reflexivity).
        destruct Hin_a as [ | Hin_a ]; [ congruence | ].
        destruct Hin_b as [ | Hin_b ]; [ congruence | ].
        rewrite Forall_forall in Ha, Hb.
        specialize (Ha _ Hin_b). specialize (Hb _ Hin_a).
        unfold notAbove in Ha, Hb.
        destruct (Less_trichotomy _ _ Ha) as [ | Hlt ]; congruence. }
      subst b. f_equal. apply IH; try assumption.
      exact (Permutation_cons_inv Hp).
Qed.

(** [sort.Sort] returns the same list for every enumeration of the
    same keys. *)
Lemma Sort_Permutation_eq (ks1 ks2 : list bytes) :
  Permutation ks1 ks2 -> Sort ks1 = Sort ks2.
Proof.
  intros Hp. apply sorted_unique; try apply Sort_sorted.
  rewrite !Sort_Permutation. exact Hp.
Qed.

(** Distinct keys come out in strictly ascending order. *)
Lemma Sort_ascending (ks : list bytes) :
  NoDup ks -> StronglySorted (fun a b => Less a b = true) (Sort ks).
Proof.
  intros Hnd.
  assert (Hnd' : NoDup (Sort ks))
    by (apply (Permutation_NoDup (Permutation_sym (Sort_Permutation ks))); exact Hnd).
  pose proof (Sort_sorted ks) as Hs.
  induction Hs as [ | a l Hs IH Hall ]; constructor.
  - apply IH. inversion Hnd'; assumption.
  - inversion Hnd' as [ | ? ? Hnotin Hnd'' ]; subst.
    rewrite Forall_forall in *. intros x Hx.
    destruct (Less_trichotomy _ _ (Hall x Hx)) as [-> | Hlt];
      [ contradiction | exact Hlt ].
Qed.

End KeyOrder.

(** ** Determinism of the encoder *)


(** Induction on a value, with the hypothesis for every element of a
    slice and for the value of every entry of a map. *)
Lemma value_nested_ind (P : value -> Prop) :
  P VNil -> (forall b, P (VBool b)) -> (forall i, P (VInt i)) ->
  (forall u, P (VUint u)) -> (forall b, P (VFloat32 b)) ->
  (forall b, P (VFloat64 b)) -> (forall n, P (VBigInt n)) ->
  (forall s, P (VString s)) -> (forall s, P (VBytes s)) ->
  (forall l, Forall P l -> P (VSlice l)) ->
  (forall m, Forall (fun kv => P (snd kv)) m -> P (VMap m)) ->
  P (VPtr None) -> (forall x, P x -> P (VPtr (Some x))) -> P VOther ->
  forall v, P v.
Proof.
  intros HNil HBool HInt HUint HFloat32 HFloat64 HBigInt HString HBytes
         HSlice HMap HPtrNil HPtr HOther.
  fix IH 1. intros [ | b | i | u | b | b | n | s | s | l | m | [x | ] | ].
  - exact HNil.
  - apply HBool.
  - apply HInt.
  - apply HUint.
  - apply HFloat32.
  - apply HFloat64.
  - apply HBigInt.
  - apply HString.
  - apply HBytes.
  - apply HSlice. induction l as [ | x l IHl ]; constructor;
      [ apply IH | exact IHl ].
  - apply HMap. induction m as [ | kv m IHm ]; constructor;
      [ apply IH | exact IHm ].
  - apply HPtr. apply IH.
  - exact HPtrNil.
  - exact HOther.
Qed.

Section Determinism.

Lemma bytes_eqb_eq (a b : bytes) : bytes_eqb a b = true <-> a = b.
Proof.
  unfold bytes_eqb. destruct (list_eq_dec Z.eq_dec a b); split;
    congruence.
Qed.

Lemma MapIndex_In {A} (m : list (bytes * A)) (k : bytes) (x : A) :
  MapIndex m k = Some x -> In (k, x) m.
Proof.
  induction m as [ | [k' y] m IH ]; simpl; [ discriminate | ].
  destruct (bytes_eqb k' k) eqn:Hk.
  - apply bytes_eqb_eq in Hk. intros [= ->]. left. congruence.
  - intros H. right. exact (IH H).
Qed.

Lemma MapIndex_key {A} (m : list (bytes * A)) (k : bytes) :
  In k (MapKeys m) -> exists x, MapIndex m k = Some x.
Proof.
  induction m as [ | [k' y] m IH ]; simpl; [ contradiction | ].
  intros [-> | Hin].
  - exists y. destruct (bytes_eqb k k) eqn:Hk; [ reflexivity | ].
    assert (bytes_eqb k k = true) by (apply bytes_eqb_eq; reflexivity).
    congruence.
  - destruct (bytes_eqb k' k); [ exists y; reflexivity | exact (IH Hin) ].
Qed.

Lemma MapIndex_map {A B} (f : A -> B) (m : list (bytes * A)) (k : bytes) :
  MapIndex (List.map (fun kv => (fst kv, f (snd kv))) m) k
  = option_map f (MapIndex m k).
Proof.
  induction m as [ | [k' y] m IH ]; simpl; [ reflexivity | ].
  destruct (bytes_eqb k' k); [ reflexivity | exact IH ].
Qed.

Lemma MapKeys_map {A B} (f : A -> B) (m : list (bytes * A)) :
  MapKeys (List.map (fun kv => (fst kv, f (snd kv))) m) = MapKeys m.
Proof.
  unfold MapKeys. rewrite map_map. reflexivity.
Qed.

Lemma andThen_ext (a a' b b' : enc) :
  enc_eq a a' -> enc_eq b b' -> enc_eq (a ;; b) (a' ;; b').
Proof.
  intros Ha Hb e. unfold andThen. rewrite Ha.
  destruct (a' e) as [[err | ] e']; [ reflexivity | apply Hb ].
Qed.

Lemma enc_eq_refl (a : enc) : enc_eq a a.
Proof. intros e. reflexivity. Qed.

Lemma encodeAll_ext (l l' : list enc) :
  Forall2 enc_eq l l' -> enc_eq (encodeAll l) (encodeAll l').
Proof.
  induction 1 as [ | a a' l l' Ha _ IH ]; simpl.
  - apply enc_eq_refl.
  - apply andThen_ext; assumption.
Qed.

Lemma encodeSlice_ext (l l' : list enc) :
  Forall2 enc_eq l l' -> enc_eq (encodeSlice l) (encodeSlice l').
Proof.
  intros H. unfold encodeSlice, len.
  rewrite (Forall2_length H).
  apply andThen_ext; [ apply enc_eq_refl | ].
  apply andThen_ext; [ apply encodeAll_ext; exact H | apply enc_eq_refl ].
Qed.

Lemma encodeMap_ext (m1 m2 : list (bytes * enc)) :
  List.length m1 = List.length m2 ->
  Sort (MapKeys m1) = Sort (MapKeys m2) ->
  (forall k, In k (MapKeys m1) ->
             exists a b, MapIndex m1 k = Some a /\ MapIndex m2 k = Some b
                         /\ enc_eq a b) ->
  enc_eq (encodeMap m1) (encodeMap m2).
Proof.
  intros Hlen Hkeys Hvals. unfold encodeMap, len.
  rewrite Hlen, <- Hkeys.
  apply andThen_ext; [ apply enc_eq_refl | ].
  apply andThen_ext; [ | apply enc_eq_refl ].
  apply encodeAll_ext.
  assert (Hin : forall k, In k (Sort (MapKeys m1)) -> In k (MapKeys m1)).
  { intros k. apply Permutation_in. apply Sort_Permutation. }
  clear Hkeys. generalize dependent (Sort (MapKeys m1)).
  intros ks. induction ks as [ | k ks IH ]; intros Hin; simpl; constructor.
  - destruct (Hvals k (Hin k (or_introl eq_refl))) as (a & b & -> & -> & Hab).
    apply andThen_ext; [ apply enc_eq_refl | exact Hab ].
  - apply IH. intros k' Hk'. apply Hin. right. exact Hk'.
Qed.

(** The keys of two equal maps are the same keys. *)
Lemma same_keys (m1 m2 : list (bytes * value)) :
  NoDup (MapKeys m1) -> NoDup (MapKeys m2) ->
  List.length m1 = List.length m2 ->
  (forall k x, MapIndex m1 k = Some x ->
               exists y, MapIndex m2 k = Some y /\ same x y) ->
  Permutation (MapKeys m1) (MapKeys m2).
Proof.
  intros Hnd1 Hnd2 Hlen Hvals.
  apply NoDup_Permutation_bis; try assumption.
  - unfold MapKeys. rewrite !length_map. lia.
  - intros k Hk. destruct (MapIndex_key m1 k Hk) as [x Hx].
    destruct (Hvals k x Hx) as (y & Hy & _).
    apply MapIndex_In in Hy. unfold MapKeys.
    change k with (fst (k, y)). apply in_map. exact Hy.
Qed.

Lemma Encode_deterministic (v1 : value) : forall v2,
  distinctKeys v1 -> distinctKeys v2 -> same v1 v2 ->
  enc_eq (Encode v1) (Encode v2).
Proof.
  induction v1 as [ | | | | | | | | | l IH | m IH | | x IH | ]
    using value_nested_ind;
    intros v2 Hd1 Hd2 Hsame; inversion Hsame; subst;
    try apply enc_eq_refl.
  - (* slices *)
    inversion Hd1 as [ ? Hl1 | | | ? Hleaf ]; subst; [ | contradiction ].
    inversion Hd2 as [ ? Hl2 | | | ? Hleaf ]; subst; [ | contradiction ].
    change (enc_eq (encodeSlice (List.map Encode l))
                   (encodeSlice (List.map Encode l2))).
    apply encodeSlice_ext.
    match goal with H : Forall2 same l l2 |- _ => rename H into HF end.
    clear Hsame Hd1 Hd2. revert IH Hl1 Hl2.
    induction HF as [ | x y l l2 Hxy _ IHF ]; intros IH Hl1 Hl2; simpl;
      constructor.
    + inversion IH; inversion Hl1; inversion Hl2; subst. auto.
    + inversion IH; inversion Hl1; inversion Hl2; subst. auto.
  - (* maps *)
    inversion Hd1 as [ | ? Hnd1 Hm1 | | ? Hleaf ]; subst; [ | contradiction ].
    inversion Hd2 as [ | ? Hnd2 Hm2 | | ? Hleaf ]; subst; [ | contradiction ].
    match goal with
    | Hl : List.length m = List.length ?m', Hv : forall k x, _ |- _ =>
        rename m' into m2; rename Hl into Hlen; rename Hv into Hvals
    end.
    change (enc_eq
              (encodeMap (List.map (fun kv => (fst kv, Encode (snd kv))) m))
              (encodeMap (List.map (fun kv => (fst kv, Encode (snd kv))) m2))).
    apply encodeMap_ext.
    + rewrite !length_map. exact Hlen.
    + rewrite !MapKeys_map. apply Sort_Permutation_eq.
      apply same_keys; assumption.
    + intros k Hk. rewrite MapKeys_map in Hk.
      destruct (MapIndex_key m k Hk) as [x Hx].
      destruct (Hvals k x Hx) as (y & Hy & Hxy).
      exists (Encode x), (Encode y). rewrite !MapIndex_map, Hx, Hy.
      repeat split.
      apply MapIndex_In in Hx. apply MapIndex_In in Hy.
      rewrite Forall_forall in IH, Hm1, Hm2.
      apply (IH _ Hx); [ apply (Hm1 _ Hx) | apply (Hm2 _ Hy) | exact Hxy ].
  - (* pointers *)
    inversion Hd1 as [ | | ? Hx | ? Hleaf ]; subst; [ | contradiction ].
    inversion Hd2 as [ | | ? Hy | ? Hleaf ]; subst; [ | contradiction ].
    match goal with H : same x ?y' |- _ => rename y' into y; rename H into Hxy end.
    pose proof (IH y Hx Hy Hxy) as Heq.
    intros e. unfold Encode, EncodeWith. simpl.
    specialize (Heq e). unfold Encode, EncodeWith in Heq.
    destruct Hxy; try exact Heq; destruct v; try exact Heq; reflexivity.
Qed.

End Determinism.

(** C3: equal values whose maps have distinct keys are encoded alike on
    every encoder: the same error if any and the same bytes, however the
    entries of their maps are enumerated.  A map is written as its tag, then
    for each key in strictly ascending byte-wise order (a rearrangement of
    its keys) the key and the value under it, then its closing byte. *)
Theorem C3_Encode_deterministic (v1 v2 : value)
        (H1 : distinctKeys v1) (H2 : distinctKeys v2) (Hsame : same v1 v2) :
  (forall e, Encode v1 e = Encode v2 e) /\
  (forall m, v1 = VMap m ->
     let ks := Sort (MapKeys m) in
     Permutation ks (MapKeys m) /\
     StronglySorted (fun a b => Less a b = true) ks /\
     forall e,
       Encode v1 e
       = (dictOpen (len m) ;;
          encodeAll
            (List.map (fun k =>
                         encodeBytes k ;;
                         match MapIndex m k with
                         | Some x => Encode x
                         | None => ok
                         end) ks) ;;
          dictClose (len m)) e).
Proof.
  split.
  - exact (Encode_deterministic H1 H2 Hsame).
  - intros m ->. cbv zeta.
    inversion H1 as [ | ? Hnd Hm | | ? Hleaf ]; subst; [ | contradiction ].
    repeat split.
    + apply Sort_Permutation.
    + apply Sort_ascending. exact Hnd.
    + intros e.
      change (Encode (VMap m))
        with (encodeMap (List.map (fun kv => (fst kv, Encode (snd kv))) m)).
      unfold encodeMap, dictOpen, dictClose, len.
      rewrite MapKeys_map, length_map.
      apply andThen_ext; [ apply enc_eq_refl | ].
      apply andThen_ext; [ | apply enc_eq_refl ].
      apply encodeAll_ext.
      induction (Sort (MapKeys m)) as [ | k ks IH ]; simpl; constructor;
        [ | exact IH ].
      rewrite MapIndex_map. destruct (MapIndex m k); apply enc_eq_refl.
Qed.

Lemma C3_Encode_deterministic_witness :
  Encode (VMap [(str "b", VInt 1); (str "a", VInt 2)]) []
  = Encode (VMap [(str "a", VInt 2); (str "b", VInt 1)]) [].
Proof.
  refine (proj1 (@C3_Encode_deterministic
                   (VMap [(str "b", VInt 1); (str "a", VInt 2)])
                   (VMap [(str "a", VInt 2); (str "b", VInt 1)]) _ _ _) []).
  - apply dk_map.
    + repeat constructor; simpl; intuition discriminate.
    + repeat constructor; apply dk_leaf; exact I.
  - apply dk_map.
    + repeat constructor; simpl; intuition discriminate.
    + repeat constructor; apply dk_leaf; exact I.
  - apply same_map; [ reflexivity | ].
    intros k x. simpl.
    destruct (bytes_eqb (str "b") k) eqn:Hb.
    + apply bytes_eqb_eq in Hb. subst k. intros [= <-].
      exists (VInt 1). split; [ reflexivity | apply same_refl ].
    + destruct (bytes_eqb (str "a") k) eqn:Ha; [ | discriminate ].
      intros [= <-]. exists (VInt 2). split; [ reflexivity | apply same_refl ].
Defined.

(** ** The fuel of the decoder *)

Section Fuel.

Variable bigIntScan : bytes -> option Z.

Lemma within_mono {A} (n n' : nat) (m : res A) :
  (n <= n')%nat -> within n m -> within n' m.
Proof. destruct m; simpl; intros; try assumption. lia. Qed.

Lemma within_bind {A B} (n n' : nat) (m : res A) (k : A -> bytes -> res B) :
  within n m ->
  (forall a r', (List.length r' <= n)%nat -> within n' (k a r')) ->
  within n' (bind m k).
Proof.
  destruct m as [a r' | e | ]; simpl; intros Hm Hk;
    [ apply Hk; exact Hm | exact I | contradiction ].
Qed.

Lemma within_ReadFull (n : nat) (r : bytes) :
  within (List.length r) (ReadFull n r).
Proof.
  unfold ReadFull. destruct (n <=? List.length r)%nat.
  - simpl. rewrite length_skipn. lia.
  - destruct r; exact I.
Qed.

Lemma within_ReadBytes (delim : Z) (r : bytes) :
  within (List.length r) (ReadBytes delim r).
Proof.
  induction r as [ | c r IH ]; simpl; [ exact I | ].
  destruct (c =? delim); simpl; [ lia | ].
  destruct (ReadBytes delim r); simpl in *; [ lia | exact I | contradiction ].
Qed.

Lemma within_liftSet (x : error + value) (r : bytes) :
  within (List.length r) (liftSet x r).
Proof. destruct x; simpl; [ exact I | lia ]. Qed.

Lemma within_read_then {A B} (m : res A) (r : bytes)
      (k : A -> bytes -> res B) :
  within (List.length r) m ->
  (forall bs r', within (List.length r') (k bs r')) ->
  within (List.length r) (bind m k).
Proof.
  intros Hm Hk. eapply within_bind; [ exact Hm | ]. intros a r' Hle.
  eapply within_mono; [ exact Hle | apply Hk ].
Qed.

Lemma within_decodeInt (k : kind) (cur : value) (code : Z) (r : bytes) :
  within (List.length r) (decodeInt bigIntScan k cur code r).
Proof.
  unfold decodeInt.
  repeat match goal with
         | |- context [ if ?b then _ else _ ] => destruct b
         end;
    (apply within_read_then;
     [ first [ apply within_ReadFull | apply within_ReadBytes ]
     | intros; apply within_liftSet ]).
Qed.

Lemma within_decodeFloat (k : kind) (cur : value) (code : Z) (r : bytes) :
  within (List.length r) (decodeFloat k cur code r).
Proof.
  unfold decodeFloat. destruct (code =? chrFloat32).
  - pose proof (within_ReadFull 4 r) as H.
    destruct (ReadFull 4 r); unfold within in *; try assumption;
      rewrite length_skipn; lia.
  - destruct (code =? chrFloat64); [ | exact I ].
    apply within_read_then; [ apply within_ReadFull | ].
    intros; simpl; lia.
Qed.

Lemma within_decodeBool (k : kind) (cur : value) (b : bool) (r : bytes) :
  within (List.length r) (decodeBool k cur b r).
Proof. destruct k; simpl; trivial. Qed.

Lemma within_decodeString (k : kind) (cur : value) (size : Z) (r : bytes) :
  within (List.length r) (decodeString k cur size r).
Proof.
  unfold decodeString. apply within_read_then; [ apply within_ReadFull | ].
  intros bs r'. destruct k; simpl; trivial.
Qed.

Lemma within_decodeStringSize (c : Z) (r : bytes) :
  within (List.length r) (decodeStringSize c r).
Proof.
  unfold decodeStringSize. apply within_read_then; [ apply within_ReadBytes | ].
  intros bs r'. destruct (ParseInt (c :: removelast bs)); simpl; trivial.
Qed.

(** The loops, for a [decodeValue] that takes at least one byte from
    every stream shorter than [f]. *)
Section Loops.

Variable decodeValue : kind -> value -> bytes -> res value.
Variable f : nat.
Hypothesis decodeValue_takes : forall k cur r,
  (List.length r < f)%nat -> within (List.length r - 1) (decodeValue k cur r)
                             /\ (r = [] -> exists e, decodeValue k cur r = Err e).

Lemma within_element (k : kind) (cur : value) (r : bytes) :
  (List.length r < f)%nat ->
  match decodeValue k cur r with
  | Ok _ r' => (List.length r' < List.length r)%nat
  | Err _ => True
  | OutOfFuel => False
  end.
Proof.
  intros Hf. destruct (decodeValue_takes k cur r Hf) as [Hw Hnil].
  destruct r as [ | c r ].
  - destruct (Hnil eq_refl) as [e ->]. exact I.
  - destruct (decodeValue k cur (c :: r)); simpl in *; trivial. lia.
Qed.

Lemma within_decodeSliceLoop (fuel : nat) :
  forall (size : Z) (i : nat) (l : list value) (r : bytes),
    (List.length r < fuel)%nat -> (List.length r < f)%nat ->
    within (List.length r) (decodeSliceLoop decodeValue fuel size i l r).
Proof.
  induction fuel as [ | fuel IH ]; intros size i l r Hfuel Hf; [ lia | ].
  simpl.
  assert (Helem :
    within (List.length r)
      (bind (decodeSliceElem decodeValue i l r)
            (fun l' r' => decodeSliceLoop decodeValue fuel size (S i) l' r'))).
  { unfold decodeSliceElem.
    match goal with |- context [ decodeValue ?k ?cur r ] =>
      pose proof (@within_element k cur r Hf) as Hx;
      destruct (decodeValue k cur r) as [x r' | e | ] end;
      simpl in *; [ | exact I | contradiction ].
    apply (@within_mono _ (List.length r')); [ lia | ].
    apply IH; lia. }
  destruct (((0 <=? size) && (Z.of_nat i <? size)) || (size <? 0));
    [ | simpl; lia ].
  destruct (size <? 0); [ | exact Helem ].
  destruct r as [ | c r ]; simpl; [ exact I | ].
  destruct (c =? chrTerm); [ simpl; lia | exact Helem ].
Qed.

Lemma within_decodeMapLoop (fuel : nat) :
  forall (size : Z) (i : nat) (m : list (bytes * value)) (r : bytes),
    (List.length r < fuel)%nat -> (List.length r < f)%nat ->
    within (List.length r) (decodeMapLoop decodeValue fuel size i m r).
Proof.
  induction fuel as [ | fuel IH ]; intros size i m r Hfuel Hf; [ lia | ].
  simpl.
  destruct (((0 <=? size) && (Z.of_nat i <? size)) || (size <? 0));
    [ | simpl; lia ].
  destruct r as [ | c r ]; simpl; [ exact I | ].
  destruct (c =? chrTerm); [ simpl; lia | ].
  pose proof (@within_element KString (VString []) _ Hf) as Hkey.
  destruct (decodeValue KString (VString []) (c :: r)) as [key r' | e | ];
    simpl in *; [ | exact I | contradiction ].
  assert (Hf' : (List.length r' < f)%nat) by lia.
  pose proof (@within_element KInterface VNil _ Hf') as Hval.
  destruct (decodeValue KInterface VNil r') as [subv r'' | e | ];
    simpl in *; [ | exact I | contradiction ].
  apply (@within_mono _ (List.length r'')); [ lia | ].
  apply IH; lia.
Qed.

Lemma within_decodeSlice (k : kind) (cur : value) (size : Z) (r : bytes) :
  (List.length r < f)%nat ->
  within (List.length r) (decodeSlice decodeValue f k cur size r).
Proof.
  intros Hf. unfold decodeSlice. destruct k; try exact I;
    (eapply within_bind;
     [ apply within_decodeSliceLoop; assumption
     | intros a r' Hle; simpl; exact Hle ]).
Qed.

Lemma within_decodeMap (k : kind) (cur : value) (size : Z) (r : bytes) :
  (List.length r < f)%nat ->
  within (List.length r) (decodeMap decodeValue f k cur size r).
Proof.
  intros Hf. unfold decodeMap. destruct k; try exact I.
  eapply within_bind;
    [ apply within_decodeMapLoop; assumption
    | intros a r' Hle; simpl; exact Hle ].
Qed.

End Loops.

(** With more fuel than unread bytes [decodeValue] ends, with an error or
    with a value and at least one byte taken. *)
Lemma decodeValue_fuel (fuel : nat) : forall (k : kind) (cur : value) (r : bytes),
  (List.length r < fuel)%nat ->
  within (List.length r - 1) (decodeValue bigIntScan fuel k cur r)
  /\ (r = [] -> exists e, decodeValue bigIntScan fuel k cur r = Err e).
Proof.
  induction fuel as [ | f IH ]; intros k cur r Hfuel; [ lia | ].
  split; [ | intros ->; exists EOF; reflexivity ].
  destruct r as [ | c r ]; [ exact I | ].
  simpl in Hfuel. assert (Hf : (List.length r < f)%nat) by lia.
  replace (List.length (c :: r) - 1)%nat with (List.length r) by (simpl; lia).
  cbn [decodeValue ReadByte bind].
  repeat match goal with
         | |- context [ if ?b then _ else _ ] => destruct b
         end;
    first
      [ apply within_decodeBool
      | apply within_decodeInt
      | apply within_decodeFloat
      | apply within_decodeString
      | apply within_liftSet
      | apply within_decodeSlice; assumption
      | apply within_decodeMap; assumption
      | exact I
      | simpl; lia
      | idtac ].
  apply within_read_then; [ apply within_decodeStringSize | ].
  intros size r'. apply within_decodeString.
Qed.

(** [Decode] never runs out of fuel: it returns an error, or a value and
    the rest of the stream, shorter than the stream. *)
Theorem Decode_fuel (v : option (kind * value)) (r : bytes) :
  match Decode bigIntScan v r with
  | Ok _ r' => (List.length r' < List.length r)%nat
  | Err _ => True
  | OutOfFuel => False
  end.
Proof.
  destruct v as [[k cur] | ]; simpl; [ | exact I ].
  apply (@within_element (decodeValue bigIntScan (S (List.length r)))
                         (S (List.length r))).
  - intros k' cur' r' Hlt. apply decodeValue_fuel. exact Hlt.
  - lia.
Qed.

End Fuel.

(** ** Decimal text read back *)

Section Decimal.

Lemma formatBits_acc (fuel : nat) : forall (u : Z) (acc : bytes),
  formatBits fuel u acc = formatBits fuel u [] ++ acc.
Proof.
  induction fuel as [ | f IH ]; intros u acc; simpl; [ reflexivity | ].
  destruct (u <? 10); [ reflexivity | ].
  rewrite (IH _ (_ :: acc)), (IH _ [_]), <- app_assoc. reflexivity.
Qed.

Lemma pow2_half (f : nat) (u : Z) :
  0 <= u < 2 ^ Z.of_nat (S f) -> 0 <= u / 10 < 2 ^ Z.of_nat f.
Proof.
  intros [H0 H1]. rewrite Nat2Z.inj_succ, Z.pow_succ_r in H1 by lia.
  assert (0 <= 2 ^ Z.of_nat f) by (apply Z.pow_nonneg; lia).
  split; [ apply Z.div_pos; lia | ].
  apply Z.div_lt_upper_bound; lia.
Qed.

Lemma formatBits_digits (fuel : nat) : forall u,
  0 <= u < 2 ^ Z.of_nat fuel -> Forall isDigit (formatBits fuel u []).
Proof.
  induction fuel as [ | f IH ]; intros u Hu; cbn [formatBits];
    [ constructor | ].
  destruct (Z.ltb_spec u 10).
  - constructor; [ unfold isDigit; destruct Hu; lia | constructor ].
  - rewrite formatBits_acc. apply Forall_app. split.
    + apply IH. apply pow2_half. exact Hu.
    + constructor; [ | constructor ].
      pose proof (Z.mod_pos_bound u 10). unfold isDigit. lia.
Qed.

Lemma digitsValue_app (a b : bytes) (n : Z) :
  digitsValue (a ++ b) n = digitsValue b (digitsValue a n).
Proof. unfold digitsValue. apply fold_left_app. Qed.

Lemma digitsValue_cons (c : Z) (s : bytes) (n : Z) :
  digitsValue (c :: s) n = digitsValue s (n * 10 + (c - 48)).
Proof. reflexivity. Qed.

Lemma len_cons {A} (x : A) (l : list A) : len (x :: l) = 1 + len l.
Proof. unfold len. cbn [List.length]. lia. Qed.

Lemma len_app {A} (l l' : list A) : len (l ++ l') = len l + len l'.
Proof. unfold len. rewrite length_app. lia. Qed.

Lemma len_nil {A} : len (@nil A) = 0.
Proof. reflexivity. Qed.

Lemma formatBits_value (fuel : nat) : forall u n,
  0 <= u < 2 ^ Z.of_nat fuel ->
  digitsValue (formatBits fuel u []) n
  = n * 10 ^ len (formatBits fuel u []) + u.
Proof.
  induction fuel as [ | f IH ]; intros u n Hu; cbn [formatBits].
  - change (2 ^ Z.of_nat 0) with 1 in Hu.
    change (digitsValue [] n) with n. rewrite len_nil.
    change (10 ^ 0) with 1. lia.
  - destruct (Z.ltb_spec u 10).
    + rewrite digitsValue_cons, len_cons, len_nil.
      change (digitsValue [] (n * 10 + (48 + u - 48)))
        with (n * 10 + (48 + u - 48)).
      change (10 ^ (1 + 0)) with 10. lia.
    + rewrite formatBits_acc, digitsValue_app.
      rewrite (IH _ _ (pow2_half _ Hu)).
      rewrite len_app, len_cons, len_nil, digitsValue_cons.
      change (digitsValue [] ?x) with x.
      pose proof (len_nonneg (formatBits f (u / 10) [])).
      rewrite Z.pow_add_r by lia. change (10 ^ (1 + 0)) with 10.
      change (digitsValue []
                ((n * 10 ^ len (formatBits f (u / 10) []) + u / 10) * 10
                 + (48 + u mod 10 - 48)))
        with ((n * 10 ^ len (formatBits f (u / 10) []) + u / 10) * 10
              + (48 + u mod 10 - 48)).
      pose proof (Z.div_mod u 10). lia.
Qed.

Lemma FormatUint_fuel (u : Z) :
  0 <= u -> 0 <= u < 2 ^ Z.of_nat (S (Z.to_nat (Z.log2 u))).
Proof.
  intros H0. split; [ exact H0 | ].
  rewrite Nat2Z.inj_succ, Z2Nat.id by apply Z.log2_nonneg.
  destruct (Z.eq_dec u 0) as [-> | Hnz]; [ reflexivity | ].
  apply Z.log2_spec. lia.
Qed.

Lemma FormatUint_digits (u : Z) : 0 <= u -> Forall isDigit (FormatUint u).
Proof. intros H. apply formatBits_digits, FormatUint_fuel, H. Qed.

Lemma FormatUint_value (u : Z) : 0 <= u -> digitsValue (FormatUint u) 0 = u.
Proof.
  intros H. unfold FormatUint.
  rewrite formatBits_value by (apply FormatUint_fuel; exact H). lia.
Qed.

Lemma FormatUint_head (u : Z) :
  0 <= u -> exists c s, FormatUint u = c :: s /\ isDigit c.
Proof.
  intros H. pose proof (FormatUint_digits H) as Hd.
  unfold FormatUint in *. cbn [formatBits] in *.
  destruct (Z.ltb_spec u 10).
  - eexists _, _. split; [ reflexivity | ]. inversion Hd; assumption.
  - rewrite formatBits_acc in *.
    destruct (formatBits (Z.to_nat (Z.log2 u)) (u / 10) []) as [ | c s ];
      cbn [app] in *;
      (eexists _, _; split; [ reflexivity | ]; inversion Hd; assumption).
Qed.

Lemma digitsValue_ge (s : bytes) : forall n,
  Forall isDigit s -> 0 <= n -> n <= digitsValue s n.
Proof.
  induction s as [ | c s IH ]; intros n Hd Hn.
  - change (digitsValue [] n) with n. lia.
  - inversion Hd as [ | ? ? Hc Hs ]; subst. unfold isDigit in Hc.
    rewrite digitsValue_cons.
    specialize (IH (n * 10 + (c - 48)) Hs). lia.
Qed.

(** On a digit string [strconv.ParseUint] returns the number, or the range
    error when the number does not fit 64 bits. *)
Lemma parseUintLoop_digits (s : bytes) : forall n,
  Forall isDigit s -> 0 <= n <= MaxUint64 ->
  parseUintLoop s n
  = if digitsValue s n <=? MaxUint64 then inl (digitsValue s n)
    else inr ErrRange.
Proof.
  induction s as [ | c s IH ]; intros n Hd Hn.
  - change (digitsValue [] n) with n. cbn [parseUintLoop].
    destruct (Z.leb_spec n MaxUint64); [ reflexivity | lia ].
  - inversion Hd as [ | ? ? Hc Hs ]; subst. unfold isDigit in Hc.
    assert (Hge : 0 <= n * 10 + (c - 48) ->
                  n * 10 + (c - 48) <= digitsValue s (n * 10 + (c - 48)))
      by (apply digitsValue_ge; exact Hs).
    rewrite digitsValue_cons. cbn [parseUintLoop].
    specialize (IH (n * 10 + (c - 48)) Hs).
    limits.
    change (18446744073709551616 - 1) with 18446744073709551615 in *.
    change (18446744073709551615 / 10 + 1) with 1844674407370955162.
    destruct (Z.leb_spec 48 c); [ | lia ].
    destruct (Z.leb_spec c 57); [ | lia ].
    cbv beta iota delta [andb]. rewrite Z.geb_leb, Z.gtb_ltb.
    destruct (Z.leb_spec 1844674407370955162 n).
    + destruct (Z.leb_spec (digitsValue s (n * 10 + (c - 48)))
                           18446744073709551615); [ lia | reflexivity ].
    + destruct (Z.ltb_spec 18446744073709551615 (n * 10 + (c - 48))).
      * destruct (Z.leb_spec (digitsValue s (n * 10 + (c - 48)))
                             18446744073709551615); [ lia | reflexivity ].
      * apply IH. lia.
Qed.

(** [ParseInt] reads back what [FormatInt] wrote when the number fits 64
    bits, and reports the range error when it does not. *)
Lemma ParseInt_FormatInt (i : Z) :
  ParseInt (FormatInt i) = if (MinInt64 <=? i) && (i <=? MaxInt64) then inl i
                           else inr ErrRange.
Proof.
  unfold FormatInt. destruct (Z.ltb_spec i 0) as [Hneg | Hpos].
  - assert (Hu : 0 <= - i) by lia.
    destruct (FormatUint_head Hu) as (c & s & Hcs & Hc).
    unfold ParseInt. change (45 =? 45) with true.
    change ((45 =? 43) || true) with true. cbv iota.
    unfold ParseUint. rewrite Hcs, <- Hcs.
    rewrite parseUintLoop_digits
      by (try apply FormatUint_digits; limits; lia).
    rewrite (FormatUint_value Hu). limits.
    change (9223372036854775808 - 1) with 9223372036854775807.
    change (18446744073709551616 - 1) with 18446744073709551615.
    destruct (Z.leb_spec (- i) 18446744073709551615); cbv beta iota;
      rewrite ?Z.gtb_ltb, ?Z.geb_leb; cbv beta iota delta [negb];
      decide_tests; try reflexivity; f_equal; lia.
  - destruct (FormatUint_head Hpos) as (c & s & Hcs & Hc).
    unfold ParseInt. rewrite Hcs. unfold isDigit in Hc.
    destruct (Z.eqb_spec c 45); [ lia | ].
    destruct (Z.eqb_spec c 43); [ lia | ].
    cbv beta iota delta [orb]. unfold ParseUint. rewrite <- Hcs.
    rewrite parseUintLoop_digits
      by (try apply FormatUint_digits; limits; lia).
    rewrite (FormatUint_value Hpos). limits.
    change (9223372036854775808 - 1) with 9223372036854775807.
    change (18446744073709551616 - 1) with 18446744073709551615.
    destruct (Z.leb_spec i 18446744073709551615); cbv beta iota;
      rewrite ?Z.gtb_ltb, ?Z.geb_leb; cbv beta iota delta [negb];
      decide_tests; reflexivity.
Qed.

(** The text of a number holds digits and at most a leading minus sign. *)
Lemma FormatInt_chars (i : Z) :
  Forall (fun c => c = 45 \/ isDigit c) (FormatInt i).
Proof.
  unfold FormatInt. destruct (Z.ltb_spec i 0).
  - constructor; [ left; reflexivity | ].
    apply (Forall_impl (P := isDigit)); [ intros; right; assumption | ].
    apply FormatUint_digits. lia.
  - apply (Forall_impl (P := isDigit)); [ intros; right; assumption | ].
    apply FormatUint_digits. assumption.
Qed.

End Decimal.

(** ** Fixed-size numbers and the reader *)

Section Wire.

Lemma bigEndian_length (k : nat) (x : Z) : List.length (bigEndian k x) = k.
Proof. induction k as [ | k IH ]; cbn [bigEndian List.length]; congruence. Qed.

Lemma beUint_cons (a : Z) (l : bytes) :
  beUint (a :: l) = a * 256 ^ len l + beUint l.
Proof.
  unfold beUint. cbn [fold_left]. change (0 * 256 + a) with a.
  generalize a. clear a.
  induction l as [ | b l IH ]; intros a.
  - cbn [fold_left]. rewrite len_nil. change (256 ^ 0) with 1. lia.
  - cbn [fold_left]. rewrite (IH (a * 256 + b)), (IH (0 * 256 + b)).
    rewrite len_cons. pose proof (len_nonneg l).
    rewrite Z.pow_add_r by lia. change (256 ^ 1) with 256. lia.
Qed.

(** The bytes written for [x] hold [x] modulo [256 ^ k]. *)
Lemma beUint_bigEndian (k : nat) (x : Z) :
  beUint (bigEndian k x) = x mod 256 ^ Z.of_nat k.
Proof.
  induction k as [ | k IH ].
  - cbn [bigEndian]. change (256 ^ Z.of_nat 0) with 1. rewrite Z.mod_1_r.
    reflexivity.
  - cbn [bigEndian]. rewrite beUint_cons, IH. unfold len.
    rewrite bigEndian_length.
    rewrite Nat2Z.inj_succ, Z.pow_succ_r by lia.
    assert (Hpow : 0 < 256 ^ Z.of_nat k) by (apply Z.pow_pos_nonneg; lia).
    rewrite (Z.mul_comm 256), Z.rem_mul_r by lia.
    unfold byte. rewrite Z.shiftr_div_pow2 by lia.
    replace (2 ^ (8 * Z.of_nat k)) with (256 ^ Z.of_nat k)
      by (rewrite Z.pow_mul_r by lia; reflexivity).
    lia.
Qed.

Lemma toSigned_mod (bits x : Z) :
  0 < bits -> - 2 ^ (bits - 1) <= x < 2 ^ (bits - 1) ->
  toSigned bits (x mod 2 ^ bits) = x.
Proof.
  intros Hb Hx. unfold toSigned.
  assert (Hpow : 2 ^ bits = 2 * 2 ^ (bits - 1)).
  { rewrite <- Z.pow_succ_r by lia. f_equal. lia. }
  assert (Hpos : 0 < 2 ^ (bits - 1)) by (apply Z.pow_pos_nonneg; lia).
  destruct (Z.lt_ge_cases x 0) as [Hneg | Hnn].
  - rewrite <- (Z.mod_unique x (2 ^ bits) (-1) (x + 2 ^ bits)) by lia.
    destruct (Z.ltb_spec (x + 2 ^ bits) (2 ^ (bits - 1))); lia.
  - rewrite Z.mod_small by lia.
    destruct (Z.ltb_spec x (2 ^ (bits - 1))); lia.
Qed.

(** A signed number of [k] bytes is read back from its bytes. *)
Lemma toSigned_bigEndian (k : nat) (x : Z) :
  (0 < k)%nat ->
  - 2 ^ (8 * Z.of_nat k - 1) <= x < 2 ^ (8 * Z.of_nat k - 1) ->
  toSigned (8 * Z.of_nat k) (beUint (bigEndian k x)) = x.
Proof.
  intros Hk Hx. rewrite beUint_bigEndian.
  replace (256 ^ Z.of_nat k) with (2 ^ (8 * Z.of_nat k))
    by (rewrite Z.pow_mul_r by lia; reflexivity).
  apply toSigned_mod; [ lia | exact Hx ].
Qed.

Lemma ReadFull_app (a rest : bytes) :
  ReadFull (List.length a) (a ++ rest) = Ok a rest.
Proof.
  unfold ReadFull.
  destruct (Nat.leb_spec (List.length a) (List.length (a ++ rest))) as [_ | H].
  - rewrite firstn_app, Nat.sub_diag, firstn_all, skipn_app, Nat.sub_diag,
      skipn_all. cbn [firstn skipn]. rewrite app_nil_r. reflexivity.
  - rewrite length_app in H. lia.
Qed.

Lemma ReadBytes_app (delim : Z) (a rest : bytes) :
  ~ In delim a ->
  ReadBytes delim (a ++ delim :: rest) = Ok (a ++ [delim]) rest.
Proof.
  induction a as [ | c a IH ]; intros Hnot; cbn [ReadBytes app].
  - rewrite Z.eqb_refl. reflexivity.
  - destruct (Z.eqb_spec c delim) as [-> | _];
      [ exfalso; apply Hnot; left; reflexivity | ].
    rewrite IH by (intros Hin; apply Hnot; right; exact Hin).
    reflexivity.
Qed.

Lemma FormatInt_no (delim : Z) (i : Z) :
  delim <> 45 -> ~ isDigit delim -> ~ In delim (FormatInt i).
Proof.
  intros H45 Hd Hin. pose proof (FormatInt_chars i) as Hc.
  rewrite Forall_forall in Hc. destruct (Hc _ Hin); contradiction.
Qed.

End Wire.

(** ** The dispatch of the decoder on the leading byte *)

Ltac decide_test :=
  match goal with
  | |- context [ ?a <=? ?b ] =>
      first [ rewrite (proj2 (Z.leb_le a b)) by lia
            | rewrite (proj2 (Z.leb_gt a b)) by lia ]
  | |- context [ ?a <? ?b ] =>
      first [ rewrite (proj2 (Z.ltb_lt a b)) by lia
            | rewrite (proj2 (Z.ltb_ge a b)) by lia ]
  | |- context [ ?a =? ?b ] =>
      first [ rewrite (proj2 (Z.eqb_eq a b)) by lia
            | rewrite (proj2 (Z.eqb_neq a b)) by lia ]
  end.

Ltac tags :=
  unfold isFixedPosInt, isFixedNegInt, isFixedString, isString, isFixedSlice,
    isFixedMap, listFixedStart, listFixedCount, strFixedStart, strFixedCount,
    intNegFixedStart, intNegFixedCount, dictFixedStart, dictFixedCount,
    intPosFixedStart, intPosFixedCount, chrTerm, chrNone, chrFalse, chrTrue,
    chrFloat64, chrFloat32, chrInt8, chrInt4, chrInt2, chrInt1, chrInt,
    chrDict, chrList, maxIntLength in *.

Ltac dispatch :=
  cbn [decodeValue ReadByte bind]; tags; repeat decide_test;
  cbv beta iota delta [andb orb negb].

Section Dispatch.

Variable bigIntScan : bytes -> option Z.
Variables (f : nat) (k : kind) (cur : value) (r : bytes).

Let decode := decodeValue bigIntScan (S f) k cur.

Lemma decodeValue_None : decode (69 :: r) = Ok cur r.
Proof. subst decode. dispatch. reflexivity. Qed.

Lemma decodeValue_False : decode (68 :: r) = decodeBool k cur false r.
Proof. subst decode. dispatch. reflexivity. Qed.

Lemma decodeValue_True : decode (67 :: r) = decodeBool k cur true r.
Proof. subst decode. dispatch. reflexivity. Qed.

Lemma decodeValue_Int (c : Z) :
  61 <= c <= 65 -> decode (c :: r) = decodeInt bigIntScan k cur c r.
Proof.
  intros Hc. subst decode.
  assert (Hcases : c = 61 \/ c = 62 \/ c = 63 \/ c = 64 \/ c = 65) by lia.
  destruct Hcases as [-> | [-> | [-> | [-> | ->]]]]; dispatch; reflexivity.
Qed.

Lemma decodeValue_Float32 : decode (66 :: r) = decodeFloat k cur 66 r.
Proof. subst decode. dispatch. reflexivity. Qed.

Lemma decodeValue_Float64 : decode (44 :: r) = decodeFloat k cur 44 r.
Proof. subst decode. dispatch. reflexivity. Qed.

Lemma decodeValue_List :
  decode (59 :: r) = decodeSlice (decodeValue bigIntScan f) f k cur (-1) r.
Proof. subst decode. dispatch. reflexivity. Qed.

Lemma decodeValue_Dict :
  decode (60 :: r) = decodeMap (decodeValue bigIntScan f) f k cur (-1) r.
Proof. subst decode. dispatch. reflexivity. Qed.

Lemma decodeValue_FixedPosInt (c : Z) :
  0 <= c < 44 ->
  decode (c :: r) = liftSet (setInt bigIntScan (FormatInt (c - 0)) k cur) r.
Proof. intros Hc. subst decode. dispatch. reflexivity. Qed.

Lemma decodeValue_FixedNegInt (c : Z) :
  70 <= c < 102 ->
  decode (c :: r)
  = liftSet (setInt bigIntScan (FormatInt ((c - 70 + 1) * -1)) k cur) r.
Proof. intros Hc. subst decode. dispatch. reflexivity. Qed.

Lemma decodeValue_FixedString (c : Z) :
  128 <= c < 192 -> decode (c :: r) = decodeString k cur (c - 128) r.
Proof. intros Hc. subst decode. dispatch. reflexivity. Qed.

Lemma decodeValue_String (c : Z) :
  48 <= c <= 57 ->
  decode (c :: r)
  = bind (decodeStringSize c r) (fun size r' => decodeString k cur size r').
Proof. intros Hc. subst decode. dispatch. reflexivity. Qed.

Lemma decodeValue_FixedSlice (c : Z) :
  192 <= c <= 255 ->
  decode (c :: r)
  = decodeSlice (decodeValue bigIntScan f) f k cur (c - (128 + 64)) r.
Proof. intros Hc. subst decode. dispatch. reflexivity. Qed.

Lemma decodeValue_FixedMap (c : Z) :
  102 <= c < 127 ->
  decode (c :: r)
  = decodeMap (decodeValue bigIntScan f) f k cur (c - 102) r.
Proof. intros Hc. subst decode. dispatch. reflexivity. Qed.

(** Every other byte is refused: 45 to 47, 58, 127, and whatever is no
    byte. *)
Lemma decodeValue_unsupported (c : Z) :
  45 <= c <= 47 \/ c = 58 \/ c = 127 \/ c < 0 \/ 255 < c ->
  decode (c :: r) = Err (UnsupportedCode c).
Proof.
  intros Hc. subst decode.
  destruct Hc as [Hc | [Hc | [Hc | [Hc | Hc]]]]; dispatch; reflexivity.
Qed.

End Dispatch.

(** ** The round trip on the values the encoder writes soundly *)

Section RoundTrip.

Variable bigIntScan : bytes -> option Z.

(** [fmt.Sscan] reads a number back from its decimal text. *)
Hypothesis bigIntScan_FormatInt : forall n : Z, bigIntScan (FormatInt n) = Some n.

Local Abbreviation reads := (readsBy bigIntScan).
Local Abbreviation readsEntry := (readsEntryBy bigIntScan).
Local Abbreviation roundTrips := (roundTripsBy bigIntScan).
Local Abbreviation goodEntry := (goodEntryBy bigIntScan).

Lemma appends_write (b : bytes) : appends (write b) b.
Proof. intros e. reflexivity. Qed.

Lemma appends_andThen (a b : enc) (oa ob : bytes) :
  appends a oa -> appends b ob -> appends (a ;; b) (oa ++ ob).
Proof.
  intros Ha Hb e. unfold andThen. rewrite Ha, Hb, app_assoc. reflexivity.
Qed.

Lemma setInt_int64 (i : Z) (cur : value) :
  is_int64 i -> setInt bigIntScan (FormatInt i) KInterface cur = inr (VInt i).
Proof.
  intros Hi. unfold setInt. rewrite ParseInt_FormatInt.
  limits. decide_tests. reflexivity.
Qed.

Lemma setInt_big (n : Z) (cur : value) :
  ~ is_int64 n -> setInt bigIntScan (FormatInt n) KInterface cur = inr (VBigInt n).
Proof.
  intros Hn. unfold setInt. rewrite ParseInt_FormatInt, bigIntScan_FormatInt.
  limits. decide_tests; reflexivity.
Qed.

Lemma fuel_S (fuel : nat) (out : bytes) :
  (List.length out < fuel)%nat -> exists f, fuel = S f /\ (List.length out <= f)%nat.
Proof. intros H. destruct fuel as [ | f ]; [ lia | ]. exists f. split; [ reflexivity | lia ]. Qed.

(** The fixed integers. *)
Lemma reads_fixed_int (i : Z) :
  -32 <= i < 44 ->
  reads [if 0 <=? i then i else 70 - 1 - i] (VInt i).
Proof.
  intros Hi fuel rest Hfuel. destruct (@fuel_S _ _ Hfuel) as (f & -> & _).
  cbn [app]. destruct (Z.leb_spec 0 i).
  - rewrite decodeValue_FixedPosInt by lia.
    replace (i - 0) with i by lia.
    rewrite setInt_int64 by (limits; lia). reflexivity.
  - rewrite decodeValue_FixedNegInt by lia.
    replace ((70 - 1 - i - 70 + 1) * -1) with i by lia.
    rewrite setInt_int64 by (limits; lia). reflexivity.
Qed.

(** The integers of 1, 2, 4 and 8 bytes. *)
Lemma reads_sized_int (k : nat) (tag bits i : Z) :
  In (k, tag, bits) [(1%nat, 62, 8); (2%nat, 63, 16); (4%nat, 64, 32);
                     (8%nat, 65, 64)] ->
  - 2 ^ (bits - 1) <= i < 2 ^ (bits - 1) ->
  reads (tag :: bigEndian k i) (VInt i).
Proof.
  intros Hk Hi fuel rest Hfuel. destruct (@fuel_S _ _ Hfuel) as (f & -> & _).
  assert (Hbits : bits = 8 * Z.of_nat k /\ (0 < k)%nat /\ 62 <= tag <= 65
                  /\ is_int64 i).
  { cbn [In] in Hk. limits.
    destruct Hk as [Hk | [Hk | [Hk | [Hk | []]]]]; inversion Hk; subst;
      cbn in Hi; repeat split; try reflexivity; lia. }
  destruct Hbits as (Hb & Hk0 & Htag & Hi64).
  assert (Hback : toSigned bits (beUint (bigEndian k i)) = i)
    by (rewrite Hb in *; apply toSigned_bigEndian; assumption).
  clear Hb.
  pose proof (ReadFull_app (bigEndian k i) rest) as Hread.
  rewrite bigEndian_length in Hread.
  cbn [app]. rewrite decodeValue_Int by lia.
  cbn [In] in Hk.
  destruct Hk as [Hk | [Hk | [Hk | [Hk | []]]]]; inversion Hk; subst k tag bits;
    unfold decodeInt; tags; repeat decide_test; cbv beta iota;
    rewrite Hread; cbn [bind];
    rewrite Hback, (@setInt_int64 i VNil Hi64); reflexivity.
Qed.

Lemma opens_cons (c : Z) (out : bytes) : c <> 127 -> opens (c :: out).
Proof. intros H. exists c, out. split; [ reflexivity | exact H ]. Qed.

(** Every signed integer of 64 bits is written and read back. *)
Lemma encodeInt_reads (i : Z) :
  is_int64 i ->
  exists out, appends (encodeInt i) out /\ opens out /\ reads out (VInt i).
Proof.
  intros Hi.
  assert (Hcases :
    -32 <= i < 44 \/
    (-128 <= i <= 127 /\ ~ -32 <= i < 44) \/
    (-32768 <= i <= 32767 /\ ~ -128 <= i <= 127) \/
    (-2147483648 <= i <= 2147483647 /\ ~ -32768 <= i <= 32767) \/
    ~ -2147483648 <= i <= 2147483647) by lia.
  destruct Hcases as [H | [H | [H | [H | H]]]].
  - exists [if 0 <=? i then i else 70 - 1 - i]. repeat split.
    + intros e. unfold encodeInt, write. tags. limits.
      destruct (Z.leb_spec 0 i).
      * repeat decide_test. cbv beta iota delta [andb].
        rewrite (byte_small (x := i)) by lia.
        replace (0 + i) with i by lia. rewrite byte_small by lia.
        reflexivity.
      * repeat decide_test. cbv beta iota delta [andb].
        replace (byte i) with (i + 256)
          by (unfold byte; apply (Z.mod_unique i 256 (-1)); lia).
        replace (byte (70 - 1 - (i + 256))) with (70 - 1 - i)
          by (unfold byte; apply (Z.mod_unique _ 256 (-1)); lia).
        reflexivity.
    + apply opens_cons. destruct (Z.leb_spec 0 i); lia.
    + apply reads_fixed_int. exact H.
  - exists (62 :: bigEndian 1 i). repeat split.
    + intros e. unfold encodeInt, write. tags. limits.
      destruct (Z.lt_ge_cases i 0);
        repeat decide_test; cbv beta iota delta [andb]; reflexivity.
    + apply opens_cons. lia.
    + apply (@reads_sized_int 1 62 8); [ cbn; auto | cbn; lia ].
  - exists (63 :: bigEndian 2 i). repeat split.
    + intros e. unfold encodeInt, andThen, write. tags. limits.
      destruct (Z.lt_ge_cases i 0);
        repeat decide_test; cbv beta iota delta [andb];
        rewrite <- app_assoc; reflexivity.
    + apply opens_cons. lia.
    + apply (@reads_sized_int 2 63 16); [ cbn; auto | cbn; lia ].
  - exists (64 :: bigEndian 4 i). repeat split.
    + intros e. unfold encodeInt, andThen, write. tags. limits.
      destruct (Z.lt_ge_cases i 0);
        repeat decide_test; cbv beta iota delta [andb];
        rewrite <- app_assoc; reflexivity.
    + apply opens_cons. lia.
    + apply (@reads_sized_int 4 64 32); [ cbn; auto 6 | cbn; lia ].
  - exists (65 :: bigEndian 8 i). repeat split.
    + intros e. unfold encodeInt, andThen, write. tags. limits.
      destruct (Z.lt_ge_cases i 0);
        repeat decide_test; cbv beta iota delta [andb];
        rewrite <- app_assoc; reflexivity.
    + apply opens_cons. lia.
    + apply (@reads_sized_int 8 65 64); [ cbn; auto 6 | limits; cbn; lia ].
Qed.

(** Up to [MaxInt64] an unsigned integer is written as the signed one. *)
Lemma encodeUint_as_Int (u : Z) (e : Encoder) :
  0 <= u <= MaxInt64 -> encodeUint u e = encodeInt u e.
Proof.
  intros Hu. unfold encodeUint, encodeInt. tags. limits.
  assert (Hcases : u < 44 \/ 44 <= u <= 127 \/ 127 < u <= 32767
                   \/ 32767 < u <= 2147483647 \/ 2147483647 < u) by lia.
  destruct Hcases as [H | [H | [H | [H | H]]]];
    repeat decide_test; cbv beta iota delta [andb]; reflexivity.
Qed.

(** A big integer of at most 64 characters is written, and read back as
    an [int64] when it fits one. *)
Lemma encodeBigInt_reads (n : Z) :
  len (FormatInt n) <= 64 ->
  exists out, appends (encodeBigInt n) out /\ opens out
              /\ reads out (canonical (VBigInt n)).
Proof.
  intros Hlen. exists (61 :: FormatInt n ++ [127]). repeat split.
  - intros e. unfold encodeBigInt, andThen, write. tags.
    rewrite Z.gtb_ltb. repeat decide_test.
    rewrite <- !app_assoc. reflexivity.
  - apply opens_cons. lia.
  - intros fuel rest Hfuel. destruct (@fuel_S _ _ Hfuel) as (f & -> & _).
    cbn [app]. rewrite decodeValue_Int by lia.
    unfold decodeInt. tags. repeat decide_test. cbv beta iota.
    rewrite <- app_assoc. cbn [app].
    rewrite ReadBytes_app
      by (apply FormatInt_no; unfold isDigit; lia).
    cbn [bind]. rewrite removelast_last.
    cbn [canonical].
    assert (Hc : n < MinInt64 \/ is_int64 n \/ MaxInt64 < n)
      by (limits; lia).
    destruct Hc as [Hc | [Hc | Hc]];
      [ rewrite setInt_big by (limits; lia)
      | rewrite setInt_int64 by exact Hc
      | rewrite setInt_big by (limits; lia) ];
      limits; repeat decide_test; cbv beta iota delta [andb]; reflexivity.
Qed.

(** A string whose length is within [fits] is written, and read back
    into an [interface{}] or a [string]. *)
Lemma encodeBytes_reads (s : bytes) :
  fits 64 (len s) -> len s <= MaxInt64 ->
  exists out,
    appends (encodeBytes s) out /\ opens out /\
    forall (k : kind) (cur : value) (fuel : nat) (rest : bytes),
      k <> KSlice -> (List.length out < fuel)%nat ->
      decodeValue bigIntScan fuel k cur (out ++ rest) = Ok (VString s) rest.
Proof.
  intros Hfits Hmax. pose proof (len_nonneg s) as H0.
  pose proof (byte_range (len s)) as Hb.
  assert (Hread : forall rest,
             ReadFull (Z.to_nat (len s)) (s ++ rest) = Ok s rest).
  { intros rest. unfold len. rewrite Nat2Z.id. apply ReadFull_app. }
  destruct (Z.lt_ge_cases (len s) 64) as [Hshort | Hlong].
  - exists ((128 + len s) :: s). repeat split.
    + intros e. apply encodeBytes_fixed. exact Hshort.
    + apply opens_cons. lia.
    + intros k cur fuel rest Hk Hfuel.
      destruct (@fuel_S _ _ Hfuel) as (f & -> & _).
      cbn [app]. rewrite decodeValue_FixedString by lia.
      unfold decodeString. replace (128 + len s - 128) with (len s) by lia.
      rewrite Hread. destruct k; try reflexivity. contradiction.
  - assert (Hvar : 64 <= byte (len s)) by (destruct Hfits; lia).
    destruct (FormatUint_head H0) as (c & tl & Hfmt & Hc).
    assert (Hfmt' : FormatInt (len s) = c :: tl).
    { unfold FormatInt. destruct (Z.ltb_spec (len s) 0); [ lia | exact Hfmt ]. }
    exists (FormatInt (len s) ++ str ":" ++ s). repeat split.
    + intros e. apply encodeBytes_variable. exact Hvar.
    + rewrite Hfmt'. apply opens_cons. unfold isDigit in Hc. lia.
    + intros k cur fuel rest Hk Hfuel.
      destruct (@fuel_S _ _ Hfuel) as (f & -> & _).
      rewrite Hfmt'. cbn [app]. unfold isDigit in Hc.
      rewrite decodeValue_String by lia.
      unfold decodeStringSize.
      rewrite <- !app_assoc. change (str ":" ++ s ++ rest) with (58 :: s ++ rest).
      rewrite ReadBytes_app.
      * cbn [bind]. rewrite removelast_last, <- Hfmt', ParseInt_FormatInt.
        limits. repeat decide_test. cbv beta iota delta [andb]. cbn [bind].
        unfold decodeString. rewrite Hread.
        destruct k; try reflexivity. contradiction.
      * intros Hin. apply (@FormatInt_no 58 (len s)); try lia.
        -- unfold isDigit. lia.
        -- rewrite Hfmt'. right. exact Hin.
Qed.

Lemma reads_nil : appends encodeNil [69] /\ opens [69] /\ reads [69] VNil.
Proof.
  repeat split; [ apply opens_cons; lia | ].
  intros fuel rest Hfuel. destruct (@fuel_S _ _ Hfuel) as (f & -> & _).
  apply decodeValue_None.
Qed.

Lemma encodeBool_reads (b : bool) :
  exists out, appends (encodeBool b) out /\ opens out /\ reads out (VBool b).
Proof.
  exists [if b then 67 else 68]. repeat split.
  - intros e. destruct b; reflexivity.
  - apply opens_cons. destruct b; lia.
  - intros fuel rest Hfuel. destruct (@fuel_S _ _ Hfuel) as (f & -> & _).
    destruct b; cbn [app];
      [ rewrite decodeValue_True | rewrite decodeValue_False ]; reflexivity.
Qed.

Lemma beUint_bigEndian_small (k : nat) (b : Z) :
  0 <= b < 256 ^ Z.of_nat k -> beUint (bigEndian k b) = b.
Proof. intros H. rewrite beUint_bigEndian. apply Z.mod_small. exact H. Qed.

Lemma encodeFloat32_reads (b : Z) :
  0 <= b < 2 ^ 32 ->
  exists out, appends (encodeFloat32 b) out /\ opens out
              /\ reads out (VFloat64 (float32to64 b)).
Proof.
  intros Hb. exists (66 :: bigEndian 4 b). repeat split.
  - intros e. unfold encodeFloat32, andThen, write. tags.
    rewrite <- app_assoc. reflexivity.
  - apply opens_cons. lia.
  - intros fuel rest Hfuel. destruct (@fuel_S _ _ Hfuel) as (f & -> & _).
    cbn [app]. rewrite decodeValue_Float32. unfold decodeFloat. tags.
    repeat decide_test. cbv beta iota.
    pose proof (ReadFull_app (bigEndian 4 b) rest) as Hread.
    rewrite bigEndian_length in Hread. rewrite Hread.
    rewrite beUint_bigEndian_small by exact Hb. reflexivity.
Qed.

Lemma encodeFloat64_reads (b : Z) :
  0 <= b < 2 ^ 64 ->
  exists out, appends (encodeFloat64 b) out /\ opens out
              /\ reads out (VFloat64 b).
Proof.
  intros Hb. exists (44 :: bigEndian 8 b). repeat split.
  - intros e. unfold encodeFloat64, andThen, write. tags.
    rewrite <- app_assoc. reflexivity.
  - apply opens_cons. lia.
  - intros fuel rest Hfuel. destruct (@fuel_S _ _ Hfuel) as (f & -> & _).
    cbn [app]. rewrite decodeValue_Float64. unfold decodeFloat. tags.
    repeat decide_test. cbv beta iota.
    pose proof (ReadFull_app (bigEndian 8 b) rest) as Hread.
    rewrite bigEndian_length in Hread. rewrite Hread. cbn [bind].
    rewrite beUint_bigEndian_small by exact Hb. reflexivity.
Qed.

Lemma encodeUint_reads (u : Z) :
  is_uint64 u ->
  exists out, appends (encodeUint u) out /\ opens out
              /\ reads out (canonical (VUint u)).
Proof.
  intros Hu. cbn [canonical].
  destruct (Z.leb_spec u MaxInt64) as [Hsmall | Hbig].
  - assert (Hi : is_int64 u) by (limits; lia).
    destruct (encodeInt_reads Hi) as (out & Happ & Hopen & Hreads).
    exists out. repeat split; try assumption.
    intros e. rewrite encodeUint_as_Int by (limits; lia). apply Happ.
  - pose proof (FormatInt_uint64_length Hu) as Hlen.
    destruct (encodeBigInt_reads _ Hlen) as (out & Happ & Hopen & Hreads).
    exists out. repeat split; try assumption.
    + intros e. rewrite <- Happ. unfold encodeUint. tags. limits.
      repeat decide_test. reflexivity.
    + cbn [canonical] in Hreads. revert Hreads. limits.
      repeat decide_test. cbv beta iota delta [andb]. trivial.
Qed.

(** *** The loops *)

Lemma setIndex_last (acc : list value) (y x : value) :
  setIndex (acc ++ [y]) (List.length acc) x = acc ++ [x].
Proof.
  induction acc as [ | a acc IH ]; cbn [app List.length setIndex];
    [ reflexivity | ].
  rewrite IH. reflexivity.
Qed.

Lemma decodeSliceElem_next (f : nat) (acc : list value) (out : bytes)
      (x : value) (rest : bytes) :
  (List.length out < f)%nat -> reads out x ->
  decodeSliceElem (decodeValue bigIntScan f) (List.length acc) acc (out ++ rest)
  = Ok (acc ++ [x]) rest.
Proof.
  intros Hf Hreads. unfold decodeSliceElem.
  rewrite Nat.leb_refl.
  replace (List.length acc + 1 - List.length acc)%nat with 1%nat by lia.
  cbn [repeat]. rewrite nth_middle, (Hreads f rest Hf). cbn [bind].
  rewrite setIndex_last. reflexivity.
Qed.

(** The loop of [decodeSlice] over the encodings of the elements, in the
    fixed form ([tail] empty) and in the terminated one ([tail] is TERM). *)
Lemma decodeSliceLoop_reads (f : nat) (xs : list (bytes * value)) :
  Forall (fun x => opens (fst x) /\ (List.length (fst x) < f)%nat
                   /\ reads (fst x) (snd x)) xs ->
  forall (lf : nat) (acc : list value) (size : Z) (tail rest : bytes),
    (List.length xs < lf)%nat ->
    (size = Z.of_nat (List.length acc + List.length xs) /\ tail = [])
    \/ (size < 0 /\ tail = [127]) ->
    decodeSliceLoop (decodeValue bigIntScan f) lf size (List.length acc) acc
                    (List.concat (List.map fst xs) ++ tail ++ rest)
    = Ok (acc ++ List.map snd xs) rest.
Proof.
  induction 1 as [ | [out x] xs (Hopen & Hlen & Hreads) _ IH ];
    intros lf acc size tail rest Hlf Hmode;
    (destruct lf as [ | lf ]; [ cbn [List.length] in Hlf; lia | ]);
    cbn [decodeSliceLoop List.map List.concat fst snd List.length app] in *.
  - rewrite app_nil_r.
    destruct Hmode as [[-> ->] | [Hneg ->]]; tags.
    + rewrite Nat.add_0_r. repeat decide_test.
      cbv beta iota delta [andb orb]. reflexivity.
    + repeat decide_test. cbv beta iota delta [andb orb].
      cbn [app peekByte bind ReadByte]. repeat decide_test. reflexivity.
  - specialize (IH lf (acc ++ [x]) size tail rest).
    rewrite length_app in IH. cbn [List.length] in IH.
    replace (List.length acc + 1)%nat with (S (List.length acc)) in IH by lia.
    rewrite <- !app_assoc.
    assert (Hnext :
      bind (decodeSliceElem (decodeValue bigIntScan f) (List.length acc) acc
              (out ++ List.concat (List.map fst xs) ++ tail ++ rest))
           (fun l' r' =>
              decodeSliceLoop (decodeValue bigIntScan f) lf size
                              (S (List.length acc)) l' r')
      = Ok (acc ++ x :: List.map snd xs) rest).
    { rewrite (@decodeSliceElem_next f acc out x _ Hlen Hreads). cbn [bind].
      rewrite IH; [ rewrite <- app_assoc; reflexivity | lia | ].
      destruct Hmode as [[-> ->] | [Hneg ->]]; [ left | right ];
        (split; [ | reflexivity ]); lia. }
    destruct Hmode as [[-> ->] | [Hneg ->]]; tags.
    + repeat decide_test. cbv beta iota delta [andb orb]. exact Hnext.
    + repeat decide_test. cbv beta iota delta [andb orb].
      destruct Hopen as (c & out' & -> & Hc).
      cbn [app peekByte bind] in *. repeat decide_test. exact Hnext.
Qed.

Lemma SetMapIndex_new (m : list (bytes * value)) (key : bytes) (x : value) :
  ~ In key (MapKeys m) -> SetMapIndex m key x = m ++ [(key, x)].
Proof.
  induction m as [ | [k y] m IH ]; cbn [SetMapIndex app MapKeys List.map fst];
    intros Hnot; [ reflexivity | ].
  destruct (bytes_eqb k key) eqn:Hk.
  - apply bytes_eqb_eq in Hk. exfalso. apply Hnot. left. exact Hk.
  - rewrite IH; [ reflexivity | ]. intros Hin. apply Hnot. right. exact Hin.
Qed.

(** The loop of [decodeMap] over the encodings of entries with distinct
    keys: each entry is added behind those read before. *)
Lemma decodeMapLoop_reads (f : nat) (es : list wireEntry) :
  Forall (readsEntry f) es ->
  forall (lf : nat) (acc : list (bytes * value)) (size : Z) (tail rest : bytes),
    (List.length es < lf)%nat ->
    NoDup (MapKeys acc ++ List.map key es) ->
    (size = Z.of_nat (List.length acc + List.length es) /\ tail = [])
    \/ (size < 0 /\ tail = [127]) ->
    decodeMapLoop (decodeValue bigIntScan f) lf size (List.length acc) acc
      (List.concat (List.map (fun en => keyBytes en ++ valueBytes en) es)
       ++ tail ++ rest)
    = Ok (acc ++ List.map (fun en => (key en, decoded en)) es) rest.
Proof.
  induction 1 as [ | en es (Hopen & Hkey & Hlen & Hreads) _ IH ];
    intros lf acc size tail rest Hlf Hnd Hmode;
    (destruct lf as [ | lf ]; [ cbn [List.length] in Hlf; lia | ]);
    cbn [decodeMapLoop List.map List.concat List.length app] in *.
  - rewrite app_nil_r.
    destruct Hmode as [[-> ->] | [Hneg ->]]; tags.
    + rewrite Nat.add_0_r. repeat decide_test.
      cbv beta iota delta [andb orb]. reflexivity.
    + repeat decide_test. cbv beta iota delta [andb orb].
      cbn [app peekByte bind ReadByte]. repeat decide_test. reflexivity.
  - assert (Hcond :
      ((0 <=? size) && (Z.of_nat (List.length acc) <? size)) || (size <? 0)
      = true).
    { destruct Hmode as [[-> _] | [Hneg _]]; repeat decide_test;
        reflexivity. }
    rewrite Hcond. clear Hcond.
    specialize (IH lf (acc ++ [(key en, decoded en)]) size tail rest).
    rewrite length_app in IH. cbn [List.length] in IH.
    replace (List.length acc + 1)%nat with (S (List.length acc)) in IH by lia.
    rewrite <- !app_assoc.
    destruct Hopen as (c & kout & Hkout & Hc).
    rewrite Hkout in *. cbn [app peekByte bind]. tags. repeat decide_test.
    change (c :: kout ++ valueBytes en
              ++ List.concat (List.map (fun en => keyBytes en ++ valueBytes en) es)
              ++ tail ++ rest)
      with ((c :: kout) ++ valueBytes en
              ++ List.concat (List.map (fun en => keyBytes en ++ valueBytes en) es)
              ++ tail ++ rest).
    rewrite Hkey. cbn [bind]. rewrite (Hreads f _ Hlen). cbn [bind].
    rewrite SetMapIndex_new.
    + rewrite IH; [ rewrite <- app_assoc; reflexivity | lia | | ].
      * unfold MapKeys in *. rewrite map_app, <- app_assoc. exact Hnd.
      * destruct Hmode as [[-> ->] | [Hneg ->]]; [ left | right ];
          (split; [ | reflexivity ]); lia.
    + intros Hin. apply NoDup_remove_2 in Hnd. apply Hnd.
      apply in_or_app. left. exact Hin.
Qed.

(** *** The round trip *)

Lemma appends_ok : appends ok [].
Proof. intros e. unfold ok. rewrite app_nil_r. reflexivity. Qed.

Lemma appends_encodeAll (ms : list enc) (outs : list bytes) :
  Forall2 appends ms outs -> appends (encodeAll ms) (List.concat outs).
Proof.
  induction 1 as [ | m out ms outs Hm _ IH ]; cbn [encodeAll List.concat].
  - apply appends_ok.
  - apply appends_andThen; assumption.
Qed.

Lemma opens_length (out : bytes) : opens out -> (0 < List.length out)%nat.
Proof. intros (c & out' & -> & _). cbn [List.length]. lia. Qed.

Lemma concat_length_In {A} (x : list A) (ls : list (list A)) :
  In x ls -> (List.length x <= List.length (List.concat ls))%nat.
Proof.
  induction ls as [ | y ls IH ]; cbn [In List.concat]; [ contradiction | ].
  rewrite length_app. intros [-> | Hin]; [ lia | ].
  specialize (IH Hin). lia.
Qed.

Lemma concat_length_count (ls : list bytes) :
  Forall opens ls -> (List.length ls <= List.length (List.concat ls))%nat.
Proof.
  induction 1 as [ | x ls Hx _ IH ]; cbn [List.concat List.length]; [ lia | ].
  rewrite length_app. apply opens_length in Hx. lia.
Qed.

(** The tag of the form the encoder chooses for [n] elements, when [n]
    is within [fits]. *)
Lemma fixed_test (count n : Z) :
  0 <= n -> 0 < count <= 256 -> fits count n ->
  (byte n <? count) = (n <? count) /\ (n < count -> byte n = n).
Proof.
  intros Hn Hc Hfits. pose proof (byte_range n) as Hb.
  destruct (Z.lt_ge_cases n count) as [Hlt | Hge].
  - rewrite (byte_small (x := n)) by lia. split; [ reflexivity | ].
    intros _. reflexivity.
  - destruct Hfits as [ | Hfits ]; [ lia | ].
    split; [ | lia ].
    rewrite (proj2 (Z.ltb_ge (byte n) count)) by lia.
    rewrite (proj2 (Z.ltb_ge n count)) by lia. reflexivity.
Qed.

(** A slice of values that make the round trip makes it. *)
Lemma slice_round_trip (l : list value) :
  fits 64 (len l) -> Forall roundTrips l -> roundTrips (VSlice l).
Proof.
  intros Hfits Hall.
  assert (Hxs : exists xs : list (bytes * value),
             Forall2 appends (List.map Encode l) (List.map fst xs) /\
             List.map snd xs = List.map canonical l /\
             Forall (fun x => opens (fst x) /\ reads (fst x) (snd x)) xs).
  { clear Hfits. induction Hall as [ | x l (out & Ha & Ho & Hr) _ (xs & H1 & H2 & H3) ].
    - exists []. repeat split; constructor.
    - exists ((out, canonical x) :: xs). cbn [List.map fst snd].
      repeat split; [ constructor | congruence | constructor ]; auto. }
  destruct Hxs as (xs & Henc & Hcanon & Hxs).
  pose proof (appends_encodeAll Henc) as Hbody.
  assert (Hlen : List.length xs = List.length l).
  { apply (f_equal (@List.length _)) in Hcanon.
    rewrite !length_map in Hcanon. exact Hcanon. }
  assert (Hopens : Forall opens (List.map fst xs)).
  { apply Forall_map. apply (Forall_impl (P := fun x => opens (fst x)
                                             /\ reads (fst x) (snd x)));
      [ intros ? [? _]; assumption | exact Hxs ]. }
  pose proof (concat_length_count Hopens) as Hcount.
  rewrite length_map in Hcount.
  pose proof (len_nonneg l) as H0.
  destruct (@fixed_test 64 (len l) H0 ltac:(lia) Hfits) as [Htest Hbyte].
  set (body := List.concat (List.map fst xs)) in *.
  assert (Hloop : forall f size tail rest,
             (List.length body < f)%nat ->
             (size = Z.of_nat (List.length xs) /\ tail = [])
             \/ (size < 0 /\ tail = [127]) ->
             decodeSlice (decodeValue bigIntScan f) f KInterface VNil size
                         (body ++ tail ++ rest)
             = Ok (VSlice (List.map canonical l)) rest).
  { intros f size tail rest Hf Hmode. unfold decodeSlice.
    change 0%nat with (List.length (@nil value)).
    subst body. rewrite (@decodeSliceLoop_reads f xs).
    - cbn [bind app]. rewrite Hcanon. reflexivity.
    - rewrite Forall_forall in *. intros x Hx.
      destruct (Hxs x Hx) as [Ho Hr]. repeat split; try assumption.
      pose proof (@concat_length_In _ (fst x) (List.map fst xs)
                    (in_map fst _ _ Hx)). lia.
    - lia.
    - cbn [List.length Nat.add]. exact Hmode. }
  unfold roundTripsBy.
  change (Encode (VSlice l)) with (encodeSlice (List.map Encode l)).
  change (canonical (VSlice l)) with (VSlice (List.map canonical l)).
  assert (Hl : len (List.map Encode l) = len l)
    by (unfold len; rewrite length_map; reflexivity).
  destruct (Z.lt_ge_cases (len l) 64) as [Hshort | Hlong].
  - exists ((192 + len l) :: body). repeat split.
    + intros e. unfold encodeSlice, andThen, write. tags. cbv zeta.
      rewrite Hl, Htest, (Hbyte Hshort).
      rewrite (proj2 (Z.ltb_lt (len l) 64)) by lia.
      cbv beta iota delta [negb]. rewrite byte_small by lia.
      rewrite Hbody. unfold ok. rewrite <- app_assoc. reflexivity.
    + apply opens_cons. lia.
    + intros fuel rest Hfuel. destruct (@fuel_S _ _ Hfuel) as (f & -> & Hf).
      cbn [app List.length] in *. rewrite decodeValue_FixedSlice by lia.
      rewrite <- (app_nil_l rest) at 1.
      apply Hloop; [ lia | left; split; [ unfold len; lia | reflexivity ] ].
  - exists (59 :: body ++ [127]). repeat split.
    + intros e. unfold encodeSlice, andThen, write. tags. cbv zeta.
      rewrite Hl, Htest.
      rewrite (proj2 (Z.ltb_ge (len l) 64)) by lia.
      cbv beta iota delta [negb]. rewrite Hbody.
      rewrite <- !app_assoc. reflexivity.
    + apply opens_cons. lia.
    + intros fuel rest Hfuel. destruct (@fuel_S _ _ Hfuel) as (f & -> & Hf).
      cbn [app List.length] in *. rewrite length_app in Hf.
      rewrite decodeValue_List. rewrite <- app_assoc.
      apply Hloop; [ lia | right; split; [ lia | reflexivity ] ].
Qed.

(** A map with distinct keys, of keys and values that make the round
    trip, makes it. *)
Lemma map_round_trip (m : list (bytes * value)) :
  fits 25 (len m) -> NoDup (MapKeys m) ->
  Forall (fun kv => (fits 64 (len (fst kv)) /\ len (fst kv) <= MaxInt64)
                    /\ roundTrips (snd kv)) m ->
  roundTrips (VMap m).
Proof.
  intros Hfits Hnd Hall.
  set (em := List.map (fun kv => (fst kv, Encode (snd kv))) m).
  set (cm := List.map (fun kv => (fst kv, canonical (snd kv))) m).
  assert (Hes : forall ks, incl ks (MapKeys m) ->
    exists es : list wireEntry,
      List.map key es = ks /\ Forall goodEntry es /\
      Forall2 appends
        (List.map (fun k => encodeBytes k ;;
                            match MapIndex em k with
                            | Some val => val
                            | None => ok
                            end) ks)
        (List.map (fun en => keyBytes en ++ valueBytes en) es) /\
      List.map (fun en => (key en, decoded en)) es
      = List.map (fun k => (k, match MapIndex cm k with
                               | Some x => x
                               | None => VNil
                               end)) ks).
  { induction ks as [ | k ks IH ]; intros Hincl.
    - exists []. repeat split; constructor.
    - destruct IH as (es & H1 & H2 & H3 & H4).
      { intros k' Hk'. apply Hincl. right. exact Hk'. }
      destruct (MapIndex_key m k (Hincl k (or_introl eq_refl))) as [x Hx].
      pose proof (MapIndex_In _ _ Hx) as Hin.
      rewrite Forall_forall in Hall.
      destruct (Hall _ Hin) as [[Hkfits Hkmax] (vout & Hva & Hvo & Hvr)].
      cbn [fst snd] in *.
      destruct (@encodeBytes_reads k Hkfits Hkmax) as (kout & Hka & Hko & Hkr).
      exists ({| keyBytes := kout; key := k; valueBytes := vout;
                 decoded := canonical x |} :: es).
      cbn [List.map key keyBytes valueBytes decoded].
      subst em cm. rewrite !MapIndex_map, Hx. cbn [option_map].
      repeat split.
      + congruence.
      + constructor; [ | exact H2 ]. repeat split; cbn; try assumption.
        intros fuel rest Hfuel. apply Hkr; [ discriminate | exact Hfuel ].
      + constructor; [ | exact H3 ]. apply appends_andThen; assumption.
      + congruence. }
  destruct (Hes (Sort (MapKeys m))) as (es & Hkeys & Hgood & Henc & Hcanon).
  { intros k Hk. apply (Permutation_in _ (Sort_Permutation _) Hk). }
  clear Hes.
  pose proof (appends_encodeAll Henc) as Hbody.
  set (body := List.concat (List.map (fun en => keyBytes en ++ valueBytes en) es))
    in *.
  assert (Hlen : List.length es = List.length m).
  { apply (f_equal (@List.length _)) in Hkeys. rewrite length_map in Hkeys.
    rewrite Hkeys, (Permutation_length (Sort_Permutation _)).
    unfold MapKeys. apply length_map. }
  assert (Hparts : forall en, In en es ->
            (List.length (keyBytes en) <= List.length body)%nat /\
            (List.length (valueBytes en) <= List.length body)%nat).
  { intros en Hen.
    pose proof (@concat_length_In _ (keyBytes en ++ valueBytes en) _
                  (in_map (fun en => keyBytes en ++ valueBytes en) _ _ Hen)) as H.
    fold body in H. rewrite length_app in H. lia. }
  assert (Hcount : (List.length es <= List.length body)%nat).
  { pose proof (@concat_length_count
                  (List.map (fun en => keyBytes en ++ valueBytes en) es)) as H.
    rewrite length_map in H. apply H. apply Forall_map.
    apply (Forall_impl (P := goodEntry)); [ | exact Hgood ].
    intros en ((c & kout & -> & Hc) & _). apply opens_cons. exact Hc. }
  assert (Hloop : forall f size tail rest,
             (List.length body < f)%nat ->
             (size = Z.of_nat (List.length es) /\ tail = [])
             \/ (size < 0 /\ tail = [127]) ->
             decodeMap (decodeValue bigIntScan f) f KInterface VNil size
                       (body ++ tail ++ rest)
             = Ok (canonical (VMap m)) rest).
  { intros f size tail rest Hf Hmode. unfold decodeMap.
    change 0%nat with (List.length (@nil (bytes * value))).
    subst body. rewrite (@decodeMapLoop_reads f es).
    - cbn [bind app canonical]. fold cm.
      replace (MapKeys cm) with (MapKeys m)
        by (subst cm; symmetry; apply MapKeys_map).
      rewrite Hcanon. reflexivity.
    - rewrite Forall_forall in *. intros en Hen.
      destruct (Hgood en Hen) as (Ho & Hk & Hvo & Hv).
      destruct (Hparts en Hen) as [Hkl Hvl].
      repeat split; try assumption; [ | lia ].
      intros rest'. apply Hk. lia.
    - lia.
    - cbn [MapKeys List.map app]. rewrite Hkeys.
      apply (Permutation_NoDup (Permutation_sym (Sort_Permutation _))).
      exact Hnd.
    - cbn [List.length Nat.add]. exact Hmode. }
  pose proof (len_nonneg m) as H0.
  destruct (@fixed_test 25 (len m) H0 ltac:(lia) Hfits) as [Htest Hbyte].
  unfold roundTripsBy.
  change (Encode (VMap m)) with (encodeMap em).
  assert (Hl : len em = len m)
    by (subst em; unfold len; rewrite length_map; reflexivity).
  assert (Hk : MapKeys em = MapKeys m) by (subst em; apply MapKeys_map).
  destruct (Z.lt_ge_cases (len m) 25) as [Hshort | Hlong].
  - exists ((102 + len m) :: body). repeat split.
    + intros e. unfold encodeMap, andThen, write. tags. cbv zeta.
      rewrite Hl, Hk, Htest, (Hbyte Hshort).
      rewrite (proj2 (Z.ltb_lt (len m) 25)) by lia.
      cbv beta iota delta [negb]. rewrite byte_small by lia.
      rewrite Hbody. unfold ok. rewrite <- app_assoc. reflexivity.
    + apply opens_cons. lia.
    + intros fuel rest Hfuel. destruct (@fuel_S _ _ Hfuel) as (f & -> & Hf).
      cbn [app List.length] in *. rewrite decodeValue_FixedMap by lia.
      rewrite <- (app_nil_l rest) at 1.
      apply Hloop; [ lia | left; split; [ unfold len; lia | reflexivity ] ].
  - exists (60 :: body ++ [127]). repeat split.
    + intros e. unfold encodeMap, andThen, write. tags. cbv zeta.
      rewrite Hl, Hk, Htest.
      rewrite (proj2 (Z.ltb_ge (len m) 25)) by lia.
      cbv beta iota delta [negb]. rewrite Hbody.
      rewrite <- !app_assoc. reflexivity.
    + apply opens_cons. lia.
    + intros fuel rest Hfuel. destruct (@fuel_S _ _ Hfuel) as (f & -> & Hf).
      cbn [app List.length] in *. rewrite length_app in Hf.
      rewrite decodeValue_Dict. rewrite <- app_assoc.
      apply Hloop; [ lia | right; split; [ lia | reflexivity ] ].
Qed.

(** Round trip: every plain value is encoded without error, and what was
    written is decoded into an [interface{}] as the canonical image of the
    value, whatever follows it in the stream. *)
Theorem plain_round_trip (v : value) : plain v -> roundTrips v.
Proof.
  induction v as [ | b | i | u | b | b | n | s | s | l IH | m IH | | x IH | ]
    using value_nested_ind; intros Hp; inversion Hp; subst.
  - exists [69]. apply reads_nil.
  - apply encodeBool_reads.
  - apply encodeInt_reads. assumption.
  - apply encodeUint_reads. assumption.
  - apply encodeFloat32_reads. assumption.
  - apply encodeFloat64_reads. assumption.
  - apply encodeBigInt_reads. assumption.
  - match goal with Hf : fits _ _, Hm : _ <= MaxInt64 |- _ =>
      destruct (@encodeBytes_reads _ Hf Hm) as (out & Ha & Ho & Hr) end.
    exists out. repeat split; try assumption.
    intros fuel rest Hfuel. apply Hr; [ discriminate | exact Hfuel ].
  - match goal with Hf : fits _ _, Hm : _ <= MaxInt64 |- _ =>
      destruct (@encodeBytes_reads _ Hf Hm) as (out & Ha & Ho & Hr) end.
    exists out. repeat split; try assumption.
    intros fuel rest Hfuel. apply Hr; [ discriminate | exact Hfuel ].
  - apply slice_round_trip; [ assumption | ].
    rewrite Forall_forall in *. auto.
  - apply map_round_trip; try assumption.
    rewrite Forall_forall in *. intros kv Hkv.
    match goal with H : forall x, In x m -> _ /\ plain _ |- _ =>
      destruct (H kv Hkv) as [Hkey Hplain] end.
    split; [ exact Hkey | apply (IH kv Hkv Hplain) ].
  - exists [69]. apply reads_nil.
  - match goal with Hx : plain x |- _ =>
      destruct (IH Hx) as (out & Ha & Ho & Hr) end.
    exists out. repeat split; try assumption.
    intros e. rewrite <- Ha. destruct x; try reflexivity. contradiction.
Qed.

(** X1: the round trip.  On every value the encoder writes soundly,
    [Encode] on a fresh buffer succeeds and [Decode] of the bytes into an
    [interface{}] gives the value back in the types the decoder stores,
    with nothing left unread. *)
Corollary Decode_encoded (v : value) :
  plain v ->
  exists out, encoded v = (None, out) /\
              Decode bigIntScan (Some (KInterface, VNil)) out
              = Ok (canonical v) [].
Proof.
  intros Hp. destruct (plain_round_trip Hp) as (out & Ha & _ & Hr).
  exists out. split.
  - unfold encoded. rewrite Ha. reflexivity.
  - unfold Decode. rewrite <- (app_nil_r out) at 2. apply Hr. lia.
Qed.

End RoundTrip.

(** ** The round trip at work *)

Lemma scanDecimal_FormatInt (n : Z) : scanDecimal (FormatInt n) = Some n.
Proof.
  unfold FormatInt, scanDecimal. destruct (Z.ltb_spec n 0) as [Hneg | Hpos].
  - rewrite FormatUint_value by lia. f_equal. lia.
  - destruct (FormatUint_head Hpos) as (c & s & Hcs & Hc).
    rewrite <- (FormatUint_value Hpos) at 2. rewrite Hcs.
    unfold isDigit in Hc.
    destruct c as [ | c | c ]; try lia.
    repeat (destruct c as [ c | c | ]; try lia; try reflexivity).
Qed.

Lemma fits_small (count n : Z) : n < count -> fits count n.
Proof. intros H. left. exact H. Qed.

(** A dict with a list, a float32, nil, a negative integer and an unsigned
    integer beyond [MaxInt64] comes back with its keys in order, the float
    widened and the unsigned integer as a BigInt. *)
Lemma Decode_encoded_witness :
  exists out,
    encoded (VMap [(str "b", VUint 18446744073709551615);
                   (str "a", VSlice [VNil; VFloat32 1065353216; VInt (-129)])])
    = (None, out) /\
    Decode scanDecimal (Some (KInterface, VNil)) out
    = Ok (VMap [(str "a", VSlice [VNil; VFloat64 4607182418800017408;
                                  VInt (-129)]);
                (str "b", VBigInt 18446744073709551615)]) [].
Proof.
  apply (@Decode_encoded scanDecimal scanDecimal_FormatInt
           (VMap [(str "b", VUint 18446744073709551615);
                  (str "a", VSlice [VNil; VFloat32 1065353216; VInt (-129)])])).
  apply plain_map.
  - apply fits_small. reflexivity.
  - repeat constructor; cbn; intuition discriminate.
  - repeat constructor; cbn [fst snd];
      try (apply fits_small; reflexivity); try (limits; cbn; lia).
Defined.

(** ** What the encoder writes and when it fails *)

Section EncoderFrame.

Lemma regular_write (b : bytes) : regular (write b).
Proof. exists None, b. split; [ left; reflexivity | reflexivity ]. Qed.

Lemma regular_ok : regular ok.
Proof.
  exists None, []. split; [ left; reflexivity | ].
  intros e. unfold ok. rewrite app_nil_r. reflexivity.
Qed.

Lemma regular_fail : regular (fail errNumberTooLong).
Proof.
  exists (Some errNumberTooLong), []. split; [ right; reflexivity | ].
  intros e. unfold fail. rewrite app_nil_r. reflexivity.
Qed.

Lemma regular_andThen (a b : enc) : regular a -> regular b -> regular (a ;; b).
Proof.
  intros (ra & oa & Hra & Ha) (rb & ob & Hrb & Hb).
  destruct Hra as [-> | ->].
  - exists rb, (oa ++ ob). split; [ exact Hrb | ].
    intros e. unfold andThen. rewrite Ha, Hb, app_assoc. reflexivity.
  - exists (Some errNumberTooLong), oa. split; [ right; reflexivity | ].
    intros e. unfold andThen. rewrite Ha. reflexivity.
Qed.

Lemma regular_encodeAll (ms : list enc) :
  Forall regular ms -> regular (encodeAll ms).
Proof.
  induction 1 as [ | m ms Hm _ IH ]; cbn [encodeAll].
  - apply regular_ok.
  - apply regular_andThen; assumption.
Qed.

Ltac regular_steps :=
  repeat match goal with
         | |- regular (if ?b then _ else _) => destruct b
         | |- regular (_ ;; _) => apply regular_andThen
         | |- regular (write _) => apply regular_write
         | |- regular ok => apply regular_ok
         | |- regular (fail errNumberTooLong) => apply regular_fail
         end.

Lemma regular_encodeBigInt (n : Z) : regular (encodeBigInt n).
Proof. unfold encodeBigInt. cbv zeta. regular_steps. Qed.

Lemma regular_encodeBytes (s : bytes) : regular (encodeBytes s).
Proof. unfold encodeBytes. cbv zeta. regular_steps. Qed.

Lemma regular_encodeSlice (ms : list enc) :
  Forall regular ms -> regular (encodeSlice ms).
Proof.
  intros H. unfold encodeSlice. cbv zeta.
  apply regular_andThen; [ regular_steps | ].
  apply regular_andThen; [ apply regular_encodeAll; exact H | regular_steps ].
Qed.

Lemma regular_encodeMap (m : list (bytes * enc)) :
  Forall (fun kv => regular (snd kv)) m -> regular (encodeMap m).
Proof.
  intros H. unfold encodeMap. cbv zeta.
  apply regular_andThen; [ regular_steps | ].
  apply regular_andThen; [ | regular_steps ].
  apply regular_encodeAll. apply Forall_map. apply Forall_forall.
  intros key _. apply regular_andThen; [ apply regular_encodeBytes | ].
  destruct (MapIndex m key) as [val | ] eqn:Hval; [ | apply regular_ok ].
  apply MapIndex_In in Hval.
  rewrite Forall_forall in H. exact (H _ Hval).
Qed.

Lemma regular_Encode (v : value) : regular (Encode v).
Proof.
  induction v as [ | b | i | u | b | b | n | s | s | l IH | m IH | | x IH | ]
    using value_nested_ind;
    try (unfold Encode, EncodeWith, encodeValue, encodeNil, encodeBool,
         encodeInt, encodeUint, encodeFloat32, encodeFloat64;
         regular_steps; try apply regular_encodeBigInt;
         apply regular_encodeBytes).
  - change (Encode (VSlice l)) with (encodeSlice (List.map Encode l)).
    apply regular_encodeSlice. apply Forall_map. exact IH.
  - change (Encode (VMap m))
      with (encodeMap (List.map (fun kv => (fst kv, Encode (snd kv))) m)).
    apply regular_encodeMap. apply Forall_map. exact IH.
  - destruct x; try exact IH; apply regular_ok.
Qed.

Lemma succeeds_write (b : bytes) : succeeds (write b).
Proof. intros e. reflexivity. Qed.

Lemma succeeds_ok : succeeds ok.
Proof. intros e. reflexivity. Qed.

Lemma succeeds_andThen (a b : enc) :
  succeeds a -> succeeds b -> succeeds (a ;; b).
Proof.
  intros Ha Hb e. unfold andThen. specialize (Ha e).
  destruct (a e) as [[err | ] e']; [ discriminate | apply Hb ].
Qed.

Lemma succeeds_encodeAll (ms : list enc) :
  Forall succeeds ms -> succeeds (encodeAll ms).
Proof.
  induction 1 as [ | m ms Hm _ IH ]; cbn [encodeAll].
  - apply succeeds_ok.
  - apply succeeds_andThen; assumption.
Qed.

Ltac succeeds_steps :=
  repeat match goal with
         | |- succeeds (if ?b then _ else _) => destruct b
         | |- succeeds (_ ;; _) => apply succeeds_andThen
         | |- succeeds (write _) => apply succeeds_write
         | |- succeeds ok => apply succeeds_ok
         end.

Lemma succeeds_encodeBytes (s : bytes) : succeeds (encodeBytes s).
Proof. unfold encodeBytes. cbv zeta. succeeds_steps. Qed.

Lemma succeeds_encodeBigInt (n : Z) :
  len (FormatInt n) <= maxIntLength -> succeeds (encodeBigInt n).
Proof.
  intros H. unfold encodeBigInt. cbv zeta. rewrite Z.gtb_ltb.
  rewrite (proj2 (Z.ltb_ge _ _)) by exact H. succeeds_steps.
Qed.

Lemma succeeds_encodeUint (u : Z) : is_uint64 u -> succeeds (encodeUint u).
Proof.
  intros Hu. unfold encodeUint. succeeds_steps.
  apply succeeds_encodeBigInt. apply FormatInt_uint64_length. exact Hu.
Qed.

Lemma succeeds_encodeSlice (ms : list enc) :
  Forall succeeds ms -> succeeds (encodeSlice ms).
Proof.
  intros H. unfold encodeSlice. cbv zeta.
  apply succeeds_andThen; [ succeeds_steps | ].
  apply succeeds_andThen; [ apply succeeds_encodeAll; exact H | succeeds_steps ].
Qed.

Lemma succeeds_encodeMap (m : list (bytes * enc)) :
  Forall (fun kv => succeeds (snd kv)) m -> succeeds (encodeMap m).
Proof.
  intros H. unfold encodeMap. cbv zeta.
  apply succeeds_andThen; [ succeeds_steps | ].
  apply succeeds_andThen; [ | succeeds_steps ].
  apply succeeds_encodeAll. apply Forall_map. apply Forall_forall.
  intros key _. apply succeeds_andThen; [ apply succeeds_encodeBytes | ].
  destruct (MapIndex m key) as [val | ] eqn:Hval; [ | apply succeeds_ok ].
  apply MapIndex_In in Hval.
  rewrite Forall_forall in H. exact (H _ Hval).
Qed.

Lemma succeeds_Encode (v : value) : shortBigInts v -> succeeds (Encode v).
Proof.
  induction v as [ | b | i | u | b | b | n | s | s | l IH | m IH | | x IH | ]
    using value_nested_ind; intros Hs;
    try (unfold Encode, EncodeWith, encodeValue, encodeNil, encodeBool,
         encodeInt, encodeFloat32, encodeFloat64;
         succeeds_steps; apply succeeds_encodeBytes).
  - apply succeeds_encodeUint. inversion Hs; [ assumption | contradiction ].
  - apply succeeds_encodeBigInt. inversion Hs; [ assumption | contradiction ].
  - change (Encode (VSlice l)) with (encodeSlice (List.map Encode l)).
    apply succeeds_encodeSlice. apply Forall_map.
    inversion Hs as [ | l' Hl | | | | ]; [ | contradiction ]. subst.
    rewrite Forall_forall in *. intros x Hx. apply (IH x Hx), (Hl x Hx).
  - change (Encode (VMap m))
      with (encodeMap (List.map (fun kv => (fst kv, Encode (snd kv))) m)).
    apply succeeds_encodeMap. apply Forall_map.
    inversion Hs as [ | | m' Hm | | | ]; [ | contradiction ]. subst.
    rewrite Forall_forall in *. intros x Hx. apply (IH x Hx), (Hm x Hx).
  - inversion Hs as [ | | | x' Hx | | ]; [ | contradiction ]. subst.
    specialize (IH Hx). destruct x; try exact IH; apply succeeds_ok.
Qed.

End EncoderFrame.

(** X5: [Encode] only appends: whatever the writer holds stays, the bytes
    added and the result are the same on every writer, and the only error
    is that of a number that is too long. *)
Theorem Encode_appends_only (v : value) :
  exists (r : option error) (out : bytes),
    (r = None \/ r = Some errNumberTooLong) /\
    forall e : Encoder, Encode v e = (r, e ++ out).
Proof. exact (regular_Encode v). Qed.

(** X6: [Encode] returns nil on every value in which no big integer has
    more than 64 characters. *)
Theorem Encode_succeeds (v : value) (e : Encoder) :
  shortBigInts v -> fst (Encode v e) = None.
Proof. intros H. exact (succeeds_Encode H e). Qed.

Lemma Encode_succeeds_witness :
  fst (Encode (VSlice [VBigInt (10 ^ 40); VOther; VUint 5]) [1; 2]) = None.
Proof.
  apply (@Encode_succeeds (VSlice [VBigInt (10 ^ 40); VOther; VUint 5]) [1; 2]).
  apply sb_slice. repeat apply Forall_cons; try apply Forall_nil.
  - apply sb_bigint. vm_compute. discriminate.
  - apply sb_leaf. exact I.
  - apply sb_uint. limits. lia.
Defined.

(** ** What the decoder stores for a leading byte *)

Section Slots.

Variable bigIntScan : bytes -> option Z.

Lemma leading_byte (c : Z) :
  c < 0 \/ 0 <= c < 44 \/ c = 44 \/ 45 <= c <= 47 \/ 48 <= c <= 57 \/
  c = 58 \/ c = 59 \/ c = 60 \/ 61 <= c <= 65 \/ c = 66 \/ c = 67 \/
  c = 68 \/ c = 69 \/ 70 <= c < 102 \/ 102 <= c < 127 \/ c = 127 \/
  128 <= c < 192 \/ 192 <= c <= 255 \/ 255 < c.
Proof. lia. Qed.

Lemma setInt_interface (s : bytes) (cur v : value) (r r' : bytes) :
  liftSet (setInt bigIntScan s KInterface cur) r = Ok v r' ->
  exists n, v = VInt n \/ v = VBigInt n.
Proof.
  unfold setInt, liftSet.
  destruct (ParseInt s) as [n | [ | ]]; [ | discriminate | ].
  - intros [= <- _]. exists n. left. reflexivity.
  - destruct (bigIntScan s) as [bi | ]; [ | discriminate ].
    intros [= <- _]. exists bi. right. reflexivity.
Qed.

Lemma decodeInt_interface (cur v : value) (c : Z) (r r' : bytes) :
  decodeInt bigIntScan KInterface cur c r = Ok v r' ->
  exists n, v = VInt n \/ v = VBigInt n.
Proof.
  unfold decodeInt.
  repeat match goal with
         | |- context [ if ?b then _ else _ ] => destruct b
         end;
    match goal with
    | |- bind ?m _ = _ -> _ => destruct m as [bs r0 | e | ]
    end; cbn [bind]; try discriminate; apply setInt_interface.
Qed.

Lemma setInt_slot (s : bytes) (k : kind) (cur v : value) (r r' : bytes) :
  k <> KInterface -> liftSet (setInt bigIntScan s k cur) r <> Ok v r'.
Proof. destruct k; [ congruence | | ]; intros _; discriminate. Qed.

Lemma decodeInt_slot (k : kind) (cur v : value) (c : Z) (r r' : bytes) :
  k <> KInterface -> decodeInt bigIntScan k cur c r <> Ok v r'.
Proof.
  intros Hk. unfold decodeInt.
  repeat match goal with
         | |- context [ if ?b then _ else _ ] => destruct b
         end;
    match goal with
    | |- bind ?m _ <> _ => destruct m as [bs r0 | e | ]
    end; cbn [bind]; try discriminate; apply setInt_slot; exact Hk.
Qed.

Lemma decodeFloat_value (k : kind) (cur v : value) (c : Z) (r r' : bytes) :
  decodeFloat k cur c r = Ok v r' -> exists b, v = setFloat b k cur.
Proof.
  unfold decodeFloat.
  destruct (c =? chrFloat32).
  - destruct (ReadFull 4 r) as [bs r0 | e | ]; intros [= <- _]; eexists;
      reflexivity.
  - destruct (c =? chrFloat64); [ | discriminate ].
    destruct (ReadFull 8 r) as [bs r0 | e | ]; cbn [bind]; try discriminate.
    intros [= <- _]. eexists; reflexivity.
Qed.

Lemma decodeString_value (k : kind) (cur v : value) (size : Z) (r r' : bytes) :
  decodeString k cur size r = Ok v r' ->
  k <> KSlice /\ exists s, v = VString s.
Proof.
  unfold decodeString.
  destruct (ReadFull (Z.to_nat size) r) as [data r0 | e | ]; cbn [bind];
    try discriminate.
  destruct k; try discriminate; intros [= <- _];
    (split; [ discriminate | eexists; reflexivity ]).
Qed.

Lemma decodeSlice_value dv (fuel : nat) (k : kind) (cur v : value) (size : Z)
      (r r' : bytes) :
  decodeSlice dv fuel k cur size r = Ok v r' ->
  k <> KString /\ exists l, v = VSlice l.
Proof.
  unfold decodeSlice. destruct k; try discriminate;
    match goal with
    | |- bind ?m _ = _ -> _ => destruct m as [l r0 | e | ]
    end; cbn [bind]; try discriminate; intros [= <- _];
    (split; [ discriminate | eexists; reflexivity ]).
Qed.

Lemma decodeMap_value dv (fuel : nat) (k : kind) (cur v : value) (size : Z)
      (r r' : bytes) :
  decodeMap dv fuel k cur size r = Ok v r' ->
  k = KInterface /\ exists m, v = VMap m.
Proof.
  unfold decodeMap. destruct k; try discriminate.
  destruct (decodeMapLoop dv fuel size 0 [] r) as [m r0 | e | ]; cbn [bind];
    try discriminate.
  intros [= <- _]. split; [ reflexivity | eexists; reflexivity ].
Qed.

(** The leading byte decides what an [interface{}] holds afterwards. *)
Lemma decodeValue_interface (fuel : nat) (cur v : value) (c : Z) (r r' : bytes) :
  decodeValue bigIntScan fuel KInterface cur (c :: r) = Ok v r' ->
  holdsFor c cur v.
Proof.
  destruct fuel as [ | f ]; [ discriminate | ].
  unfold holdsFor.
  destruct (leading_byte c)
    as [H | [H | [H | [H | [H | [H | [H | [H | [H | [H | [H | [H | [H | [H |
       [H | [H | [H | [H | H]]]]]]]]]]]]]]]]]].
  - rewrite decodeValue_unsupported by lia. discriminate.
  - rewrite decodeValue_FixedPosInt by lia. intros Hv.
    apply setInt_interface in Hv.
    do 3 right. left. split; [ left; tags; lia | exact Hv ].
  - subst c. rewrite decodeValue_Float64. intros Hv.
    apply decodeFloat_value in Hv.
    do 4 right. left. split; [ right; reflexivity | exact Hv ].
  - rewrite decodeValue_unsupported by lia. discriminate.
  - rewrite decodeValue_String by lia.
    destruct (decodeStringSize c r) as [size r0 | e | ]; cbn [bind];
      try discriminate.
    intros Hv. apply decodeString_value in Hv.
    do 5 right. left. split; [ right; tags; lia | exact (proj2 Hv) ].
  - rewrite decodeValue_unsupported by lia. discriminate.
  - subst c. rewrite decodeValue_List. intros Hv.
    apply decodeSlice_value in Hv.
    do 6 right. left. split; [ left; reflexivity | exact (proj2 Hv) ].
  - subst c. rewrite decodeValue_Dict. intros Hv. apply decodeMap_value in Hv.
    do 7 right. split; [ left; reflexivity | exact (proj2 Hv) ].
  - rewrite decodeValue_Int by lia. intros Hv. apply decodeInt_interface in Hv.
    do 3 right. left. split; [ right; right; tags; lia | exact Hv ].
  - subst c. rewrite decodeValue_Float32. intros Hv.
    apply decodeFloat_value in Hv.
    do 4 right. left. split; [ left; reflexivity | exact Hv ].
  - subst c. rewrite decodeValue_True. intros [= <- _].
    right. left. split; reflexivity.
  - subst c. rewrite decodeValue_False. intros [= <- _].
    do 2 right. left. split; reflexivity.
  - subst c. rewrite decodeValue_None. intros [= <- _].
    left. split; reflexivity.
  - rewrite decodeValue_FixedNegInt by lia. intros Hv.
    apply setInt_interface in Hv.
    do 3 right. left. split; [ right; left; tags; lia | exact Hv ].
  - rewrite decodeValue_FixedMap by lia. intros Hv. apply decodeMap_value in Hv.
    do 7 right. split; [ right; tags; lia | exact (proj2 Hv) ].
  - rewrite decodeValue_unsupported by lia. discriminate.
  - rewrite decodeValue_FixedString by lia. intros Hv.
    apply decodeString_value in Hv.
    do 5 right. left. split; [ left; tags; lia | exact (proj2 Hv) ].
  - rewrite decodeValue_FixedSlice by lia. intros Hv.
    apply decodeSlice_value in Hv.
    do 6 right. left. split; [ right; tags; lia | exact (proj2 Hv) ].
  - rewrite decodeValue_unsupported by lia. discriminate.
Qed.

(** A [string] slot and a [[]interface{}] slot take only what they can
    hold; nil and a float leave them as they were. *)
Lemma decodeValue_slot (fuel : nat) (k : kind) (cur v : value) (c : Z)
      (r r' : bytes) :
  k <> KInterface ->
  decodeValue bigIntScan fuel k cur (c :: r) = Ok v r' ->
  slotHoldsFor k c cur v.
Proof.
  intros Hk. destruct fuel as [ | f ]; [ discriminate | ].
  assert (Hfloat : forall b, setFloat b k cur = cur)
    by (intros b; destruct k; [ congruence | reflexivity | reflexivity ]).
  unfold slotHoldsFor.
  destruct (leading_byte c)
    as [H | [H | [H | [H | [H | [H | [H | [H | [H | [H | [H | [H | [H | [H |
       [H | [H | [H | [H | H]]]]]]]]]]]]]]]]]].
  - rewrite decodeValue_unsupported by lia. discriminate.
  - rewrite decodeValue_FixedPosInt by lia. intros Hv.
    exfalso. exact (@setInt_slot _ _ _ _ _ _ Hk Hv).
  - subst c. rewrite decodeValue_Float64. intros Hv.
    apply decodeFloat_value in Hv. destruct Hv as (b & ->).
    left. split; [ right; right; reflexivity | apply Hfloat ].
  - rewrite decodeValue_unsupported by lia. discriminate.
  - rewrite decodeValue_String by lia.
    destruct (decodeStringSize c r) as [size r0 | e | ]; cbn [bind];
      try discriminate.
    intros Hv. apply decodeString_value in Hv. destruct Hv as (Hs & Hv).
    right. left. split; [ destruct k; congruence | ].
    split; [ right; tags; lia | exact Hv ].
  - rewrite decodeValue_unsupported by lia. discriminate.
  - subst c. rewrite decodeValue_List. intros Hv.
    apply decodeSlice_value in Hv. destruct Hv as (Hs & Hv).
    right. right. split; [ destruct k; congruence | ].
    split; [ left; reflexivity | exact Hv ].
  - subst c. rewrite decodeValue_Dict. intros Hv. apply decodeMap_value in Hv.
    destruct Hv as (Hi & _). contradiction.
  - rewrite decodeValue_Int by lia. intros Hv.
    exfalso. exact (@decodeInt_slot _ _ _ _ _ _ Hk Hv).
  - subst c. rewrite decodeValue_Float32. intros Hv.
    apply decodeFloat_value in Hv. destruct Hv as (b & ->).
    left. split; [ right; left; reflexivity | apply Hfloat ].
  - subst c. rewrite decodeValue_True. destruct k; [ congruence | | ];
      discriminate.
  - subst c. rewrite decodeValue_False. destruct k; [ congruence | | ];
      discriminate.
  - subst c. rewrite decodeValue_None. intros [= <- _].
    left. split; [ left; reflexivity | reflexivity ].
  - rewrite decodeValue_FixedNegInt by lia. intros Hv.
    exfalso. exact (@setInt_slot _ _ _ _ _ _ Hk Hv).
  - rewrite decodeValue_FixedMap by lia. intros Hv. apply decodeMap_value in Hv.
    destruct Hv as (Hi & _). contradiction.
  - rewrite decodeValue_unsupported by lia. discriminate.
  - rewrite decodeValue_FixedString by lia. intros Hv.
    apply decodeString_value in Hv. destruct Hv as (Hs & Hv).
    right. left. split; [ destruct k; congruence | ].
    split; [ left; tags; lia | exact Hv ].
  - rewrite decodeValue_FixedSlice by lia. intros Hv.
    apply decodeSlice_value in Hv. destruct Hv as (Hs & Hv).
    right. right. split; [ destruct k; congruence | ].
    split; [ right; tags; lia | exact Hv ].
  - rewrite decodeValue_unsupported by lia. discriminate.
Qed.

(** X8: what [Decode] stores in an [interface{}] is decided by the leading
    byte of the stream. *)
Theorem Decode_interface_kind (cur v : value) (c : Z) (r r' : bytes) :
  Decode bigIntScan (Some (KInterface, cur)) (c :: r) = Ok v r' ->
  holdsFor c cur v.
Proof. unfold Decode. apply decodeValue_interface. Qed.

(** X9: [Decode] into a [string] or a [[]interface{}] succeeds only on a
    string, resp. a list, and on nil and a float, which leave the slot as
    it was. *)
Theorem Decode_slot_kind (k : kind) (cur v : value) (c : Z) (r r' : bytes) :
  k <> KInterface ->
  Decode bigIntScan (Some (k, cur)) (c :: r) = Ok v r' ->
  slotHoldsFor k c cur v.
Proof. unfold Decode. apply decodeValue_slot. Qed.

(** X10: the leading bytes no value starts with are refused with
    [UnsupportedCode], whatever the slot and whatever follows. *)
Theorem Decode_unsupported_code (k : kind) (cur : value) (c : Z) (r : bytes) :
  45 <= c <= 47 \/ c = 58 \/ c = chrTerm ->
  Decode bigIntScan (Some (k, cur)) (c :: r) = Err (UnsupportedCode c).
Proof.
  intros Hc. unfold Decode. apply decodeValue_unsupported.
  unfold chrTerm in Hc. lia.
Qed.

End Slots.

Lemma Decode_interface_kind_witness :
  holdsFor 194 VNil (VSlice [VInt 1; VInt 2]).
Proof.
  apply (@Decode_interface_kind scanDecimal VNil (VSlice [VInt 1; VInt 2])
           194 [1; 2] []).
  reflexivity.
Defined.

Lemma Decode_slot_kind_witness :
  slotHoldsFor KString 129 (VString []) (VString [97]).
Proof.
  apply (@Decode_slot_kind scanDecimal KString (VString []) (VString [97])
           129 [97] []).
  - discriminate.
  - reflexivity.
Defined.

Lemma Decode_unsupported_code_witness :
  Decode scanDecimal (Some (KInterface, VNil)) [58; 1; 2]
  = Err (UnsupportedCode 58).
Proof.
  apply (@Decode_unsupported_code scanDecimal KInterface VNil 58 [1; 2]).
  right. left. reflexivity.
Defined.

(** ** TERM inside a list or dict with a count *)

Section FixedCount.

Variable bigIntScan : bytes -> option Z.

(** X11: TERM where an element is due.  A dict with a count stops at TERM
    as a dict without one does, takes the byte and has the entries read so
    far; a list with a count refuses the byte. *)
Theorem TERM_inside_fixed_count (n : Z) (rest : bytes) :
  1 <= n ->
  (n < dictFixedCount ->
   Decode bigIntScan (Some (KInterface, VNil))
          (dictFixedStart + n :: chrTerm :: rest)
   = Ok (VMap []) rest) /\
  (n < listFixedCount ->
   Decode bigIntScan (Some (KInterface, VNil))
          (listFixedStart + n :: chrTerm :: rest)
   = Err (UnsupportedCode chrTerm)).
Proof.
  intros Hn. unfold Decode. cbn [List.length]. tags. split; intros Hlt.
  - rewrite decodeValue_FixedMap by lia.
    cbn [decodeMap decodeMapLoop peekByte ReadByte bind].
    replace (102 + n - 102) with n by lia.
    rewrite (proj2 (Z.leb_le 0 n)) by lia.
    rewrite (proj2 (Z.ltb_lt (Z.of_nat 0) n)) by (cbn; lia).
    reflexivity.
  - rewrite decodeValue_FixedSlice by lia.
    cbn [decodeSlice decodeSliceLoop bind].
    replace (128 + 64 + n - (128 + 64)) with n by lia.
    rewrite (proj2 (Z.leb_le 0 n)) by lia.
    rewrite (proj2 (Z.ltb_lt (Z.of_nat 0) n)) by (cbn; lia).
    rewrite (proj2 (Z.ltb_ge n 0)) by lia.
    cbv beta iota delta [andb orb]. unfold decodeSliceElem.
    cbn [List.length Nat.leb Nat.add Nat.sub repeat app nth].
    rewrite decodeValue_unsupported by lia. reflexivity.
Qed.

End FixedCount.

Lemma TERM_inside_fixed_count_witness :
  Decode scanDecimal (Some (KInterface, VNil)) [104; 127; 7] = Ok (VMap []) [7] /\
  Decode scanDecimal (Some (KInterface, VNil)) [194; 127; 7]
  = Err (UnsupportedCode 127).
Proof.
  destruct (@TERM_inside_fixed_count scanDecimal 2 [7] ltac:(lia)) as [Hd Hl].
  split; [ apply Hd | apply Hl ]; reflexivity.
Defined.

(** ** Integers in slots of the numeric kinds *)

Section NumericSlotsProperties.

Variable bigIntScan : bytes -> option Z.

Lemma ParseUint_FormatInt (n : Z) :
  ParseUint (FormatInt n)
  = if n <? 0 then inr ErrSyntax
    else if n <=? MaxUint64 then inl n else inr ErrRange.
Proof.
  unfold FormatInt. destruct (Z.ltb_spec n 0) as [Hneg | Hpos].
  - reflexivity.
  - destruct (FormatUint_head Hpos) as (c & s & Hcs & Hc).
    unfold ParseUint. rewrite Hcs, <- Hcs.
    rewrite parseUintLoop_digits
      by (try apply FormatUint_digits; limits; lia).
    rewrite (FormatUint_value Hpos). reflexivity.
Qed.

Lemma FormatInt_zero (n : Z) : FormatInt n = str "0" <-> n = 0.
Proof.
  split.
  - intros H. pose proof (scanDecimal_FormatInt n) as Hs.
    rewrite H in Hs. inversion Hs. reflexivity.
  - intros ->. reflexivity.
Qed.

(** X12: an integer [n] of the wire stored by [setInt] in a slot of a
    numeric kind.  A signed slot of [bits] bits takes [n] when [n] is in
    its range and refuses it with a type error when not; an unsigned slot
    likewise, a negative [n] being a syntax error of [ParseUint]; a bool
    slot holds whether [n] is not zero. *)
Theorem setInt_numeric_slots (n : Z) (bits : Z) :
  (is_int64 n ->
   setIntSlot bigIntScan (FormatInt n) (SInt bits)
   = if (- 2 ^ (bits - 1) <=? n) && (n <? 2 ^ (bits - 1)) then inr (VInt n)
     else inl (SlotTypeError (str "integer " ++ FormatInt n) (SInt bits))) /\
  (0 <= n <= MaxUint64 ->
   setIntSlot bigIntScan (FormatInt n) (SUint bits)
   = if n <? 2 ^ bits then inr (VUint n)
     else inl (SlotTypeError (str "integer " ++ FormatInt n) (SUint bits))) /\
  (n < 0 ->
   setIntSlot bigIntScan (FormatInt n) (SUint bits)
   = inl (SlotNumError (FormatInt n) ErrSyntax)) /\
  setIntSlot bigIntScan (FormatInt n) SBool = inr (VBool (negb (n =? 0))).
Proof.
  repeat split.
  - intros Hn. unfold setIntSlot, OverflowInt. rewrite ParseInt_FormatInt.
    destruct Hn as [H1 H2].
    rewrite (proj2 (Z.leb_le _ _) H1), (proj2 (Z.leb_le _ _) H2).
    cbv beta iota delta [andb].
    destruct (- 2 ^ (bits - 1) <=? n); destruct (n <? 2 ^ (bits - 1));
      reflexivity.
  - intros [H1 H2]. unfold setIntSlot, OverflowUint.
    rewrite ParseUint_FormatInt.
    rewrite (proj2 (Z.ltb_ge _ _) H1), (proj2 (Z.leb_le _ _) H2).
    destruct (n <? 2 ^ bits); reflexivity.
  - intros Hneg. unfold setIntSlot. rewrite ParseUint_FormatInt.
    rewrite (proj2 (Z.ltb_lt _ _) Hneg). reflexivity.
  - unfold setIntSlot. do 2 f_equal.
    destruct (Z.eqb_spec n 0) as [-> | Hnz]; [ reflexivity | ].
    destruct (bytes_eqb (FormatInt n) (str "0")) eqn:Hb; [ | reflexivity ].
    apply bytes_eqb_eq, FormatInt_zero in Hb. contradiction.
Qed.

End NumericSlotsProperties.

(** ** Streams of values *)

Section Streams.

Variable bigIntScan : bytes -> option Z.
Hypothesis bigIntScan_FormatInt : forall n : Z, bigIntScan (FormatInt n) = Some n.

Lemma encoded_appends (v : value) (out : bytes) :
  appends (Encode v) out -> encoded v = (None, out).
Proof. intros Ha. unfold encoded. rewrite Ha. reflexivity. Qed.

(** X2: two values written one after the other are read back one after
    the other: the first [Decode] stops where the second value starts. *)
Theorem Decode_two_values (v1 v2 : value) :
  plain v1 -> plain v2 ->
  exists out1 out2,
    (Encode v1 ;; Encode v2) [] = (None, out1 ++ out2) /\
    Decode bigIntScan (Some (KInterface, VNil)) (out1 ++ out2)
    = Ok (canonical v1) out2 /\
    Decode bigIntScan (Some (KInterface, VNil)) out2 = Ok (canonical v2) [].
Proof.
  intros H1 H2.
  destruct (@plain_round_trip _ bigIntScan_FormatInt _ H1) as (out1 & Ha1 & _ & Hr1).
  destruct (@plain_round_trip _ bigIntScan_FormatInt _ H2) as (out2 & Ha2 & _ & Hr2).
  exists out1, out2. repeat split.
  - unfold andThen. rewrite Ha1, Ha2. reflexivity.
  - unfold Decode. apply Hr1. rewrite length_app. lia.
  - unfold Decode. rewrite <- (app_nil_r out2) at 2. apply Hr2. lia.
Qed.

(** A list written by the encoder is read back into a [[]interface{}]
    as it is into an [interface{}]. *)
Lemma Decode_into_slice (l : list value) :
  plain (VSlice l) ->
  exists out,
    encoded (VSlice l) = (None, out) /\
    Decode bigIntScan (Some (KSlice, VSlice [])) out
    = Ok (VSlice (List.map canonical l)) [].
Proof.
  intros Hp.
  destruct (@plain_round_trip _ bigIntScan_FormatInt _ Hp) as (out & Ha & Ho & Hr).
  exists out. split; [ apply encoded_appends; exact Ha | ].
  destruct Ho as (c & out' & -> & Hc).
  specialize (Hr (S (List.length (c :: out'))) [] (Nat.lt_succ_diag_r _)).
  rewrite app_nil_r in Hr. unfold Decode.
  change (canonical (VSlice l)) with (VSlice (List.map canonical l)) in Hr.
  rewrite <- Hr. pose proof (@decodeValue_interface bigIntScan _ _ _ _ _ _ Hr) as Hk.
  assert (Hlist : c = chrList \/ isFixedSlice c = true).
  { destruct Hk as [(_ & Hv) | [(_ & Hv) | [(_ & Hv) | [(_ & n & [Hv | Hv])
      | [(_ & b & Hv) | [(_ & s & Hv) | [(Hl & _) | (_ & m & Hv)]]]]]]];
      try discriminate. exact Hl. }
  cbn [List.length]. destruct Hlist as [-> | Hfix].
  - rewrite !decodeValue_List. reflexivity.
  - assert (192 <= c <= 255) by (revert Hfix; tags; lia).
    rewrite !decodeValue_FixedSlice by assumption. reflexivity.
Qed.

End Streams.

(** X3: no encoding is the beginning of another: when the bytes of [v2]
    start with the bytes of [v1], they are the same bytes and the two
    values are decoded alike. *)
Theorem encoded_prefix_free (v1 v2 : value) (rest : bytes) :
  plain v1 -> plain v2 ->
  snd (encoded v2) = snd (encoded v1) ++ rest ->
  rest = [] /\ canonical v1 = canonical v2.
Proof.
  intros H1 H2.
  destruct (@plain_round_trip _ scanDecimal_FormatInt _ H1) as (out1 & Ha1 & _ & Hr1).
  destruct (@plain_round_trip _ scanDecimal_FormatInt _ H2) as (out2 & Ha2 & _ & Hr2).
  rewrite (@encoded_appends _ _ Ha1), (@encoded_appends _ _ Ha2). cbn [snd]. intros ->.
  specialize (Hr1 (S (List.length (out1 ++ rest))) rest).
  specialize (Hr2 (S (List.length (out1 ++ rest))) [] (Nat.lt_succ_diag_r _)).
  rewrite app_nil_r, Hr1 in Hr2.
  - inversion Hr2 as [[Hv Hrest]]. split; reflexivity.
  - rewrite length_app. lia.
Qed.

Lemma Decode_two_values_witness :
  exists out1 out2,
    (Encode (VString (str "ab")) ;; Encode (VInt 300)) [] = (None, out1 ++ out2) /\
    Decode scanDecimal (Some (KInterface, VNil)) (out1 ++ out2)
    = Ok (canonical (VString (str "ab"))) out2 /\
    Decode scanDecimal (Some (KInterface, VNil)) out2
    = Ok (canonical (VInt 300)) [].
Proof.
  apply (@Decode_two_values scanDecimal scanDecimal_FormatInt
           (VString (str "ab")) (VInt 300)).
  - apply plain_string; [ apply fits_small; reflexivity | limits; cbn; lia ].
  - apply plain_int. limits. lia.
Defined.

Lemma encoded_prefix_free_witness :
  @nil Z = [] /\ canonical (VBytes (str "ab")) = canonical (VString (str "ab")).
Proof.
  apply (@encoded_prefix_free (VBytes (str "ab")) (VString (str "ab")) []).
  - apply plain_bytes; [ apply fits_small; reflexivity | limits; cbn; lia ].
  - apply plain_string; [ apply fits_small; reflexivity | limits; cbn; lia ].
  - reflexivity.
Defined.

(** ** Values cut short *)

Section Truncation.

Variable bigIntScan : bytes -> option Z.
Hypothesis bigIntScan_FormatInt : forall n : Z, bigIntScan (FormatInt n) = Some n.

Local Abbreviation reads := (readsBy bigIntScan).
Local Abbreviation fails := (failsBy bigIntScan).
Local Abbreviation cuts := (cutsBy bigIntScan).

Lemma cutOf_nil (p : bytes) : ~ cutOf [] p.
Proof.
  intros (q & Heq & Hq). symmetry in Heq. apply app_eq_nil in Heq.
  destruct Heq as [_ ->]. contradiction.
Qed.

Lemma cutOf_cons (c : Z) (out p : bytes) :
  cutOf (c :: out) p -> p = [] \/ exists p', p = c :: p' /\ cutOf out p'.
Proof.
  intros (q & Heq & Hq). destruct p as [ | c' p' ]; [ left; reflexivity | ].
  right. cbn [app] in Heq. inversion Heq; subst.
  exists p'. split; [ reflexivity | ]. exists q. split; [ reflexivity | exact Hq ].
Qed.

Lemma cutOf_single (c : Z) (p : bytes) : cutOf [c] p -> p = [].
Proof.
  intros H. destruct (cutOf_cons H) as [-> | (p' & _ & Hp')];
    [ reflexivity | ].
  exfalso. exact (cutOf_nil Hp').
Qed.

Lemma cutOf_app (a b p : bytes) :
  cutOf (a ++ b) p -> cutOf a p \/ exists p', p = a ++ p' /\ cutOf b p'.
Proof.
  revert p. induction a as [ | x a IH ]; intros p H.
  - right. exists p. split; [ reflexivity | exact H ].
  - cbn [app] in H. destruct (cutOf_cons H) as [-> | (p1 & -> & H1)].
    + left. exists (x :: a). split; [ reflexivity | discriminate ].
    + destruct (IH p1 H1) as [(q & -> & Hq) | (p' & -> & Hp')].
      * left. exists q. split; [ reflexivity | exact Hq ].
      * right. exists p'. split; [ reflexivity | exact Hp' ].
Qed.

Lemma cutOf_length (out p : bytes) :
  cutOf out p -> (List.length p < List.length out)%nat.
Proof.
  intros (q & -> & Hq). rewrite length_app.
  destruct q; [ contradiction | cbn [List.length]; lia ].
Qed.

Lemma cutOf_In (out p : bytes) (c : Z) : cutOf out p -> In c p -> In c out.
Proof. intros (q & -> & _) Hin. apply in_or_app. left. exact Hin. Qed.

Lemma cutOf_head (c : Z) (out p : bytes) (c' : Z) :
  cutOf (c :: out) (c' :: p) -> c' = c.
Proof. intros (q & Heq & _). cbn [app] in Heq. congruence. Qed.

Lemma fails_nil (k : kind) (cur : value) : fails k cur [].
Proof.
  intros fuel Hfuel. destruct fuel as [ | f ]; [ cbn in Hfuel; lia | ].
  exists EOF. reflexivity.
Qed.

Lemma ReadFull_short (n : nat) (p : bytes) :
  (List.length p < n)%nat -> exists e, ReadFull n p = Err e.
Proof.
  intros H. unfold ReadFull.
  rewrite (proj2 (Nat.leb_gt n (List.length p))) by exact H.
  destruct p; eexists; reflexivity.
Qed.

Lemma ReadBytes_missing (delim : Z) (p : bytes) :
  ~ In delim p -> ReadBytes delim p = Err EOF.
Proof.
  induction p as [ | c p IH ]; intros Hnot; cbn [ReadBytes]; [ reflexivity | ].
  rewrite (proj2 (Z.eqb_neq c delim))
    by (intros ->; apply Hnot; left; reflexivity).
  rewrite IH by (intros Hin; apply Hnot; right; exact Hin). reflexivity.
Qed.

(** *** Scalars *)

(** A tag followed by a body of fixed size. *)
Lemma fails_sized (tag : Z) (body p : bytes) :
  In (List.length body, tag)
     [(1%nat, 62); (2%nat, 63); (4%nat, 64); (8%nat, 65); (8%nat, 44)] ->
  cutOf (tag :: body) p -> fails KInterface VNil p.
Proof.
  intros Htag Hcut.
  destruct (cutOf_cons Hcut) as [-> | (p' & -> & Hp')]; [ apply fails_nil | ].
  apply cutOf_length in Hp'.
  destruct (@ReadFull_short _ _ Hp') as (e & He).
  intros fuel Hfuel. destruct fuel as [ | f ]; [ cbn in Hfuel; lia | ].
  exists e. cbn [In] in Htag.
  destruct Htag as [H | [H | [H | [H | [H | []]]]]];
    inversion H as [[Hn Ht]]; rewrite <- Hn in He; clear H; subst tag.
  - rewrite decodeValue_Int by lia. unfold decodeInt. tags.
    repeat decide_test. rewrite He. reflexivity.
  - rewrite decodeValue_Int by lia. unfold decodeInt. tags.
    repeat decide_test. rewrite He. reflexivity.
  - rewrite decodeValue_Int by lia. unfold decodeInt. tags.
    repeat decide_test. rewrite He. reflexivity.
  - rewrite decodeValue_Int by lia. unfold decodeInt. tags.
    repeat decide_test. rewrite He. reflexivity.
  - rewrite decodeValue_Float64. unfold decodeFloat. tags.
    repeat decide_test. rewrite He. reflexivity.
Qed.

Ltac cut_scalar :=
  match goal with
  | H : cutOf [_] ?p |- _ => apply cutOf_single in H; subst p; apply fails_nil
  | H : cutOf (?tag :: ?body) _ |- _ =>
      apply (@fails_sized tag body);
      [ rewrite ?bigEndian_length; cbn; auto 8 | exact H ]
  end.

Lemma cuts_encodeBigInt (n : Z) : cuts KInterface VNil (encodeBigInt n).
Proof.
  intros p. unfold encodeBigInt. cbv zeta.
  destruct (len (FormatInt n) >? maxIntLength).
  - intros H. exfalso. exact (cutOf_nil H).
  - unfold andThen, write. cbn [snd app]. tags. intros Hcut.
    destruct (cutOf_cons Hcut) as [-> | (p' & -> & Hp')]; [ apply fails_nil | ].
    assert (Hno : ~ In 127 p').
    { intros Hin.
      assert (Hs : In 127 (FormatInt n)).
      { destruct (@cutOf_app _ _ _ Hp') as [H | (p'' & -> & H)].
        - exact (@cutOf_In _ _ _ H Hin).
        - apply cutOf_single in H. subst p''. rewrite app_nil_r in Hin.
          exact Hin. }
      revert Hs. apply FormatInt_no; unfold isDigit; lia. }
    intros fuel Hfuel. destruct fuel as [ | f ]; [ cbn in Hfuel; lia | ].
    exists EOF. rewrite decodeValue_Int by lia. unfold decodeInt. tags.
    repeat decide_test. rewrite (@ReadBytes_missing _ _ Hno). reflexivity.
Qed.

Lemma cuts_encodeInt (i : Z) : cuts KInterface VNil (encodeInt i).
Proof.
  intros p. unfold encodeInt.
  repeat match goal with
         | |- context [ if ?b then _ else _ ] => destruct b
         end;
    unfold andThen, write; cbn [snd app]; tags; intros Hcut; cut_scalar.
Qed.

Lemma cuts_encodeUint (u : Z) : cuts KInterface VNil (encodeUint u).
Proof.
  intros p. unfold encodeUint.
  repeat match goal with
         | |- context [ if ?b then _ else _ ] => destruct b
         end;
    try apply cuts_encodeBigInt;
    unfold andThen, write; cbn [snd app]; tags; intros Hcut; cut_scalar.
Qed.

Lemma cuts_encodeFloat64 (b : Z) : cuts KInterface VNil (encodeFloat64 b).
Proof.
  intros p. unfold encodeFloat64, andThen, write. cbn [snd app]. tags.
  intros Hcut. cut_scalar.
Qed.

Lemma cuts_encodeBool (b : bool) : cuts KInterface VNil (encodeBool b).
Proof.
  intros p. destruct b; unfold encodeBool, write; cbn [snd app];
    intros Hcut; cut_scalar.
Qed.

Lemma cuts_encodeNil : cuts KInterface VNil encodeNil.
Proof.
  intros p. unfold encodeNil, write. cbn [snd app]. intros Hcut. cut_scalar.
Qed.

(** A string, in the slot of a value and in that of a key. *)
Lemma cuts_encodeBytes (s : bytes) (k : kind) (cur : value) :
  fits 64 (len s) -> len s <= MaxInt64 -> cuts k cur (encodeBytes s).
Proof.
  intros Hfits Hmax p. pose proof (len_nonneg s) as H0.
  pose proof (byte_range (len s)) as Hb.
  assert (Hshorter : forall s', cutOf s s' ->
            exists e, ReadFull (Z.to_nat (len s)) s' = Err e).
  { intros s' Hs'. apply ReadFull_short. apply cutOf_length in Hs'.
    unfold len. lia. }
  destruct (Z.lt_ge_cases (len s) 64) as [Hshort | Hlong].
  - rewrite encodeBytes_fixed by exact Hshort. cbn [snd app]. intros Hcut.
    destruct (cutOf_cons Hcut) as [-> | (p' & -> & Hp')]; [ apply fails_nil | ].
    destruct (Hshorter _ Hp') as (e & He).
    intros fuel Hfuel. destruct fuel as [ | f ]; [ cbn in Hfuel; lia | ].
    exists e. rewrite decodeValue_FixedString by lia. unfold decodeString.
    replace (128 + len s - 128) with (len s) by lia. rewrite He. reflexivity.
  - assert (Hvar : 64 <= byte (len s)) by (destruct Hfits; lia).
    rewrite encodeBytes_variable by exact Hvar. cbn [snd app].
    destruct (FormatUint_head H0) as (c & tl & Hfmt & Hc).
    assert (Hfmt' : FormatInt (len s) = c :: tl).
    { unfold FormatInt. destruct (Z.ltb_spec (len s) 0); [ lia | exact Hfmt ]. }
    assert (Hno : ~ In 58 tl).
    { intros Hin. apply (@FormatInt_no 58 (len s)); try lia.
      - unfold isDigit. lia.
      - rewrite Hfmt'. right. exact Hin. }
    rewrite Hfmt'. cbn [app]. unfold isDigit in Hc. intros Hcut.
    destruct (cutOf_cons Hcut) as [-> | (p' & -> & Hp')]; [ apply fails_nil | ].
    intros fuel Hfuel. destruct fuel as [ | f ]; [ cbn in Hfuel; lia | ].
    rewrite decodeValue_String by lia. unfold decodeStringSize.
    destruct (@cutOf_app _ _ _ Hp') as [H | (p1 & -> & H)].
    + exists EOF. rewrite ReadBytes_missing; [ reflexivity | ].
      intros Hin. apply Hno. exact (@cutOf_In _ _ _ H Hin).
    + change (str ":" ++ s) with (58 :: s) in H.
      destruct (cutOf_cons H) as [-> | (s' & -> & Hs')].
      * exists EOF. rewrite app_nil_r, (@ReadBytes_missing _ _ Hno). reflexivity.
      * destruct (Hshorter _ Hs') as (e & He). exists e.
        rewrite (@ReadBytes_app 58 tl s' Hno). cbn [bind].
        rewrite removelast_last, <- Hfmt', ParseInt_FormatInt.
        limits. repeat decide_test. cbv beta iota delta [andb]. cbn [bind].
        unfold decodeString. rewrite He. reflexivity.
Qed.

(** *** The loops *)

(** The loop of [decodeSlice] on a beginning of the encodings of the
    elements: the elements that are whole are read, and the loop fails in
    the one that is not, or at the end of the stream. *)
Lemma decodeSliceLoop_cut (xs : list (bytes * value)) :
  Forall (fun x => opens (fst x) /\ reads (fst x) (snd x)
                   /\ forall p, cutOf (fst x) p -> fails KInterface VNil p) xs ->
  forall (f lf : nat) (acc : list value) (size : Z) (tail p : bytes),
    (List.length p < f)%nat -> (List.length p < lf)%nat ->
    (size = Z.of_nat (List.length acc + List.length xs) /\ tail = [])
    \/ (size < 0 /\ tail = [127]) ->
    cutOf (List.concat (List.map fst xs) ++ tail) p ->
    exists e,
      decodeSliceLoop (decodeValue bigIntScan f) lf size (List.length acc) acc p
      = Err e.
Proof.
  induction 1 as [ | [out x] xs (Hopen & Hreads & Hcuts) _ IH ];
    intros f lf acc size tail p Hf Hlf Hmode Hcut;
    (destruct lf as [ | lf ]; [ lia | ]);
    cbn [decodeSliceLoop List.map List.concat fst snd List.length app] in *.
  - destruct Hmode as [[-> ->] | [Hneg ->]].
    + exfalso. exact (cutOf_nil Hcut).
    + apply cutOf_single in Hcut. subst p. tags. repeat decide_test.
      cbv beta iota delta [andb orb]. exists EOF. reflexivity.
  - assert (Hcond :
      ((0 <=? size) && (Z.of_nat (List.length acc) <? size)) || (size <? 0)
      = true).
    { destruct Hmode as [[-> _] | [Hneg _]]; repeat decide_test;
        reflexivity. }
    rewrite Hcond. clear Hcond.
    assert (Helem : forall p0,
              (List.length p0 < f)%nat -> cutOf out p0 ->
              exists e,
                decodeSliceElem (decodeValue bigIntScan f) (List.length acc)
                                acc p0 = Err e).
    { intros p0 Hp0 Hcut0. destruct (Hcuts p0 Hcut0 f Hp0) as (e & He).
      exists e. unfold decodeSliceElem. rewrite Nat.leb_refl.
      replace (List.length acc + 1 - List.length acc)%nat with 1%nat by lia.
      cbn [repeat]. rewrite nth_middle, He. reflexivity. }
    rewrite <- app_assoc in Hcut.
    destruct Hopen as (c & out' & -> & Hc).
    destruct (@cutOf_app _ _ _ Hcut) as [Hin | (p' & -> & Hrest)].
    + (* the cut is inside this element *)
      destruct (Helem p Hf Hin) as (e & He).
      destruct p as [ | c' p' ].
      * destruct (size <? 0); [ exists EOF; reflexivity | ].
        exists e. rewrite He. reflexivity.
      * pose proof (cutOf_head Hin) as Hhead. subst c'.
        exists e. tags. cbn [peekByte bind].
        rewrite (proj2 (Z.eqb_neq c 127)) by exact Hc.
        rewrite He. destruct (size <? 0); reflexivity.
    + (* this element is whole *)
      rewrite length_app in Hf, Hlf. cbn [List.length] in Hf, Hlf.
      assert (Hnext :
        exists e,
          bind (decodeSliceElem (decodeValue bigIntScan f) (List.length acc) acc
                  ((c :: out') ++ p'))
               (fun l' r' =>
                  decodeSliceLoop (decodeValue bigIntScan f) lf size
                                  (S (List.length acc)) l' r')
          = Err e).
      { rewrite (@decodeSliceElem_next bigIntScan f acc (c :: out') x p')
          by (cbn [List.length]; try lia; exact Hreads).
        cbn [bind].
        specialize (IH f lf (acc ++ [x]) size tail p').
        rewrite length_app in IH. cbn [List.length] in IH.
        replace (List.length acc + 1)%nat with (S (List.length acc)) in IH by lia.
        apply IH; try lia; [ | exact Hrest ].
        destruct Hmode as [[-> ->] | [Hneg ->]]; [ left | right ];
          (split; [ | reflexivity ]); lia. }
      destruct Hnext as (e & He). exists e.
      cbn [app peekByte bind] in *. tags.
      rewrite (proj2 (Z.eqb_neq c 127)) by exact Hc.
      rewrite He. destruct (size <? 0); reflexivity.
Qed.

(** The same for the loop of [decodeMap], over keys and values. *)
Lemma decodeMapLoop_cut (es : list wireEntry) :
  Forall (fun en => goodEntryBy bigIntScan en
                    /\ (forall p, cutOf (keyBytes en) p ->
                                  fails KString (VString []) p)
                    /\ (forall p, cutOf (valueBytes en) p ->
                                  fails KInterface VNil p)) es ->
  forall (f lf i : nat) (acc : list (bytes * value)) (size : Z)
         (tail p : bytes),
    (List.length p < f)%nat -> (List.length p < lf)%nat ->
    (size = Z.of_nat (i + List.length es) /\ tail = [])
    \/ (size < 0 /\ tail = [127]) ->
    cutOf (List.concat (List.map (fun en => keyBytes en ++ valueBytes en) es)
           ++ tail) p ->
    exists e,
      decodeMapLoop (decodeValue bigIntScan f) lf size i acc p = Err e.
Proof.
  induction 1 as [ | en es ((Hopen & Hkey & Hvopen & Hreads) & Hkcut & Hvcut)
                           _ IH ];
    intros f lf i acc size tail p Hf Hlf Hmode Hcut;
    (destruct lf as [ | lf ]; [ lia | ]);
    cbn [decodeMapLoop List.map List.concat List.length app] in *.
  - destruct Hmode as [[-> ->] | [Hneg ->]].
    + exfalso. exact (cutOf_nil Hcut).
    + apply cutOf_single in Hcut. subst p. tags. repeat decide_test.
      cbv beta iota delta [andb orb]. exists EOF. reflexivity.
  - assert (Hcond :
      ((0 <=? size) && (Z.of_nat i <? size)) || (size <? 0) = true).
    { destruct Hmode as [[-> _] | [Hneg _]]; repeat decide_test;
        reflexivity. }
    rewrite Hcond. clear Hcond.
    rewrite <- !app_assoc in Hcut.
    destruct Hopen as (c & kout & Hkout & Hc). rewrite Hkout in *.
    destruct (@cutOf_app _ _ _ Hcut) as [Hin | (p1 & -> & Hrest)].
    + (* the cut is inside the key *)
      destruct (Hkcut p Hin f Hf) as (e & He).
      destruct p as [ | c' p' ]; [ exists EOF; reflexivity | ].
      pose proof (cutOf_head Hin) as Hhead. subst c'.
      exists e. tags. cbn [peekByte bind].
      rewrite (proj2 (Z.eqb_neq c 127)) by exact Hc.
      rewrite He. reflexivity.
    + rewrite length_app in Hf, Hlf. cbn [List.length] in Hf, Hlf.
      cbn [app peekByte bind]. tags.
      rewrite (proj2 (Z.eqb_neq c 127)) by exact Hc.
      change (c :: kout ++ p1) with ((c :: kout) ++ p1).
      rewrite Hkey by (cbn [List.length]; lia). cbn [bind].
      destruct (@cutOf_app _ _ _ Hrest) as [Hin | (p2 & -> & Hrest')].
      * (* the cut is inside the value *)
        destruct (Hvcut p1 Hin f ltac:(lia)) as (e & He).
        exists e. rewrite He. reflexivity.
      * rewrite length_app in Hf, Hlf.
        rewrite (Hreads f p2) by lia. cbn [bind].
        apply IH with (tail := tail); try lia; [ | exact Hrest' ].
        destruct Hmode as [[-> ->] | [Hneg ->]]; [ left | right ];
          (split; [ | reflexivity ]); lia.
Qed.

(** *** Lists, dicts and every value *)

Lemma appends_snd (m : enc) (out : bytes) : appends m out -> snd (m []) = out.
Proof. intros H. rewrite H. reflexivity. Qed.

(** The bytes of a plain value, as [Encode] writes them on a fresh
    buffer. *)
Lemma plain_parts (v : value) :
  plain v ->
  appends (Encode v) (snd (Encode v [])) /\ opens (snd (Encode v []))
  /\ reads (snd (Encode v [])) (canonical v).
Proof.
  intros Hp.
  destruct (@plain_round_trip _ bigIntScan_FormatInt _ Hp) as (out & Ha & Ho & Hr).
  rewrite (@appends_snd _ _ Ha). repeat split; assumption.
Qed.

Lemma key_parts (k : bytes) :
  fits 64 (len k) -> len k <= MaxInt64 ->
  appends (encodeBytes k) (snd (encodeBytes k [])) /\
  opens (snd (encodeBytes k [])) /\
  forall fuel rest,
    (List.length (snd (encodeBytes k [])) < fuel)%nat ->
    decodeValue bigIntScan fuel KString (VString [])
                (snd (encodeBytes k []) ++ rest)
    = Ok (VString k) rest.
Proof.
  intros Hfits Hmax.
  destruct (@encodeBytes_reads bigIntScan k Hfits Hmax) as (out & Ha & Ho & Hr).
  rewrite (@appends_snd _ _ Ha). repeat split; try assumption.
  intros fuel rest Hfuel. apply Hr; [ discriminate | exact Hfuel ].
Qed.

(** A list whose elements are refused when cut short is refused when cut
    short. *)
Lemma cuts_slice (l : list value) :
  fits 64 (len l) ->
  Forall (fun x => plain x /\ cuts KInterface VNil (Encode x)) l ->
  cuts KInterface VNil (Encode (VSlice l)).
Proof.
  intros Hfits Hall.
  set (xs := List.map (fun x => (snd (Encode x []), canonical x)) l).
  set (body := List.concat (List.map fst xs)).
  assert (Hxs : Forall (fun x => opens (fst x) /\ reads (fst x) (snd x)
                                 /\ forall p, cutOf (fst x) p ->
                                              fails KInterface VNil p) xs).
  { subst xs. apply Forall_map.
    apply (Forall_impl (P := fun x => plain x
                                      /\ cuts KInterface VNil (Encode x)));
      [ | exact Hall ].
    intros x [Hp Hc]. destruct (plain_parts Hp) as (_ & Ho & Hr).
    cbn [fst snd]. repeat split; assumption. }
  assert (Hbody : appends (encodeAll (List.map Encode l)) body).
  { subst body xs. rewrite map_map. cbn [fst].
    apply appends_encodeAll. clear Hfits Hxs.
    induction Hall as [ | x l [Hp _] _ IH ]; cbn [List.map];
      [ constructor | constructor; [ apply (plain_parts Hp) | exact IH ] ]. }
  assert (Hlen : List.length xs = List.length l)
    by (subst xs; apply length_map).
  pose proof (len_nonneg l) as H0.
  destruct (@fixed_test 64 (len l) H0 ltac:(lia) Hfits) as [Htest Hbyte].
  assert (Hl : len (List.map Encode l) = len l)
    by (unfold len; rewrite length_map; reflexivity).
  assert (Hloop : forall f size tail p,
             (List.length p < f)%nat ->
             (size = Z.of_nat (List.length xs) /\ tail = [])
             \/ (size < 0 /\ tail = [127]) ->
             cutOf (body ++ tail) p ->
             exists e,
               decodeSlice (decodeValue bigIntScan f) f KInterface VNil size p
               = Err e).
  { intros f size tail p Hf Hmode Hcut. unfold decodeSlice.
    change 0%nat with (List.length (@nil value)).
    destruct (@decodeSliceLoop_cut xs Hxs f f [] size tail p Hf Hf Hmode Hcut)
      as (e & He).
    exists e. rewrite He. reflexivity. }
  intros p.
  change (Encode (VSlice l)) with (encodeSlice (List.map Encode l)).
  unfold encodeSlice, andThen, write. tags. cbv zeta. rewrite Hl, Htest.
  destruct (Z.lt_ge_cases (len l) 64) as [Hshort | Hlong].
  - rewrite (Hbyte Hshort).
    rewrite (proj2 (Z.ltb_lt (len l) 64)) by lia.
    cbv beta iota delta [negb]. rewrite byte_small by lia.
    rewrite Hbody. unfold ok. cbn [snd app]. intros Hcut.
    destruct (cutOf_cons Hcut) as [-> | (p' & -> & Hp')]; [ apply fails_nil | ].
    intros fuel Hfuel. destruct fuel as [ | f ]; [ cbn in Hfuel; lia | ].
    cbn [List.length] in Hfuel. rewrite decodeValue_FixedSlice by lia.
    apply (Hloop f _ [] p'); [ lia | | rewrite app_nil_r; exact Hp' ].
    left. split; [ unfold len; lia | reflexivity ].
  - rewrite (proj2 (Z.ltb_ge (len l) 64)) by lia.
    cbv beta iota delta [negb]. rewrite Hbody. cbn [snd app]. intros Hcut.
    destruct (cutOf_cons Hcut) as [-> | (p' & -> & Hp')]; [ apply fails_nil | ].
    intros fuel Hfuel. destruct fuel as [ | f ]; [ cbn in Hfuel; lia | ].
    cbn [List.length] in Hfuel. rewrite decodeValue_List.
    apply (Hloop f _ [127] p'); [ lia | | exact Hp' ].
    right. split; [ lia | reflexivity ].
Qed.

(** The same for a dict. *)
Lemma cuts_map (m : list (bytes * value)) :
  fits 25 (len m) -> NoDup (MapKeys m) ->
  Forall (fun kv => (fits 64 (len (fst kv)) /\ len (fst kv) <= MaxInt64)
                    /\ plain (snd kv)
                    /\ cuts KInterface VNil (Encode (snd kv))) m ->
  cuts KInterface VNil (Encode (VMap m)).
Proof.
  intros Hfits Hnd Hall.
  set (em := List.map (fun kv => (fst kv, Encode (snd kv))) m).
  assert (Hes : forall ks, incl ks (MapKeys m) ->
    exists es : list wireEntry,
      List.length es = List.length ks /\
      Forall (fun en => goodEntryBy bigIntScan en
                        /\ (forall p, cutOf (keyBytes en) p ->
                                      fails KString (VString []) p)
                        /\ (forall p, cutOf (valueBytes en) p ->
                                      fails KInterface VNil p)) es /\
      Forall2 appends
        (List.map (fun k => encodeBytes k ;;
                            match MapIndex em k with
                            | Some val => val
                            | None => ok
                            end) ks)
        (List.map (fun en => keyBytes en ++ valueBytes en) es)).
  { induction ks as [ | k ks IH ]; intros Hincl.
    - exists []. repeat split; constructor.
    - destruct IH as (es & H1 & H2 & H3).
      { intros k' Hk'. apply Hincl. right. exact Hk'. }
      destruct (MapIndex_key m k (Hincl k (or_introl eq_refl))) as [x Hx].
      pose proof (MapIndex_In _ _ Hx) as Hin.
      rewrite Forall_forall in Hall.
      destruct (Hall _ Hin) as [[Hkfits Hkmax] [Hp Hc]].
      cbn [fst snd] in *.
      destruct (plain_parts Hp) as (Hva & Hvo & Hvr).
      destruct (@key_parts k Hkfits Hkmax) as (Hka & Hko & Hkr).
      exists ({| keyBytes := snd (encodeBytes k []); key := k;
                 valueBytes := snd (Encode x []);
                 decoded := canonical x |} :: es).
      cbn [List.map List.length keyBytes valueBytes].
      subst em. rewrite !MapIndex_map, Hx. cbn [option_map].
      repeat split.
      + congruence.
      + constructor; [ | exact H2 ]. repeat split; cbn; try assumption.
        apply cuts_encodeBytes; assumption.
      + constructor; [ | exact H3 ]. apply appends_andThen; assumption. }
  destruct (Hes (Sort (MapKeys m))) as (es & Hcount & Hgood & Henc).
  { intros k Hk. apply (Permutation_in _ (Sort_Permutation _) Hk). }
  clear Hes.
  pose proof (appends_encodeAll Henc) as Hbody.
  set (body := List.concat (List.map (fun en => keyBytes en ++ valueBytes en) es))
    in *.
  assert (Hlen : List.length es = List.length m).
  { rewrite Hcount, (Permutation_length (Sort_Permutation _)).
    unfold MapKeys. apply length_map. }
  assert (Hloop : forall f size tail p,
             (List.length p < f)%nat ->
             (size = Z.of_nat (List.length es) /\ tail = [])
             \/ (size < 0 /\ tail = [127]) ->
             cutOf (body ++ tail) p ->
             exists e,
               decodeMap (decodeValue bigIntScan f) f KInterface VNil size p
               = Err e).
  { intros f size tail p Hf Hmode Hcut. unfold decodeMap.
    destruct (@decodeMapLoop_cut es Hgood f f 0 [] size tail p Hf Hf Hmode Hcut)
      as (e & He).
    exists e. rewrite He. reflexivity. }
  pose proof (len_nonneg m) as H0.
  destruct (@fixed_test 25 (len m) H0 ltac:(lia) Hfits) as [Htest Hbyte].
  assert (Hl : len em = len m)
    by (subst em; unfold len; rewrite length_map; reflexivity).
  assert (Hk : MapKeys em = MapKeys m) by (subst em; apply MapKeys_map).
  intros p. change (Encode (VMap m)) with (encodeMap em).
  unfold encodeMap, andThen, write. tags. cbv zeta. rewrite Hl, Hk, Htest.
  destruct (Z.lt_ge_cases (len m) 25) as [Hshort | Hlong].
  - rewrite (Hbyte Hshort).
    rewrite (proj2 (Z.ltb_lt (len m) 25)) by lia.
    cbv beta iota delta [negb]. rewrite byte_small by lia.
    rewrite Hbody. unfold ok. cbn [snd app]. intros Hcut.
    destruct (cutOf_cons Hcut) as [-> | (p' & -> & Hp')]; [ apply fails_nil | ].
    intros fuel Hfuel. destruct fuel as [ | f ]; [ cbn in Hfuel; lia | ].
    cbn [List.length] in Hfuel. rewrite decodeValue_FixedMap by lia.
    apply (Hloop f _ [] p'); [ lia | | rewrite app_nil_r; exact Hp' ].
    left. split; [ unfold len; lia | reflexivity ].
  - rewrite (proj2 (Z.ltb_ge (len m) 25)) by lia.
    cbv beta iota delta [negb]. rewrite Hbody. cbn [snd app]. intros Hcut.
    destruct (cutOf_cons Hcut) as [-> | (p' & -> & Hp')]; [ apply fails_nil | ].
    intros fuel Hfuel. destruct fuel as [ | f ]; [ cbn in Hfuel; lia | ].
    cbn [List.length] in Hfuel. rewrite decodeValue_Dict.
    apply (Hloop f _ [127] p'); [ lia | | exact Hp' ].
    right. split; [ lia | reflexivity ].
Qed.

(** Every beginning of the bytes of a plain value without a [float32]
    that stops short of their end fails to decode. *)
Lemma plain_cuts (v : value) :
  plain v -> noFloat32 v = true -> cuts KInterface VNil (Encode v).
Proof.
  induction v as [ | b | i | u | b | b | n | s | s | l IH | m IH | | x IH | ]
    using value_nested_ind; intros Hp Hno; inversion Hp; subst.
  - apply cuts_encodeNil.
  - apply cuts_encodeBool.
  - apply cuts_encodeInt.
  - apply cuts_encodeUint.
  - discriminate.
  - apply cuts_encodeFloat64.
  - apply cuts_encodeBigInt.
  - apply (@cuts_encodeBytes s KInterface VNil); assumption.
  - apply (@cuts_encodeBytes s KInterface VNil); assumption.
  - apply cuts_slice; [ assumption | ].
    cbn [noFloat32] in Hno. rewrite forallb_forall in Hno.
    rewrite Forall_forall in *. intros x Hx. split; auto.
  - apply cuts_map; try assumption.
    cbn [noFloat32] in Hno. rewrite forallb_forall in Hno.
    rewrite Forall_forall in *. intros kv Hkv.
    match goal with H : forall x, In x m -> _ /\ plain _ |- _ =>
      destruct (H kv Hkv) as [Hkey Hplain] end.
    repeat split; try apply Hkey; try exact Hplain.
    apply (IH kv Hkv Hplain). apply (Hno kv Hkv).
  - apply cuts_encodeNil.
  - match goal with Hx : plain x |- _ => specialize (IH Hx Hno) end.
    intros p. change (Encode (VPtr (Some x))) with (encodeValue x).
    destruct x; try exact (IH p); contradiction.
Qed.

(** X4: a value cut short is refused.  For every value the encoder writes
    soundly and that holds no [float32], [Decode] returns an error on
    every beginning of the bytes of the value that stops short of their
    end; it never takes a truncated value for a value. *)
Theorem Decode_truncated (v : value) (p q : bytes) :
  plain v -> noFloat32 v = true ->
  snd (encoded v) = p ++ q -> q <> [] ->
  exists e, Decode bigIntScan (Some (KInterface, VNil)) p = Err e.
Proof.
  intros Hp Hno Heq Hq. unfold Decode.
  apply (@plain_cuts v Hp Hno p); [ | lia ].
  exists q. split; [ exact Heq | exact Hq ].
Qed.

End Truncation.

Lemma Decode_truncated_witness :
  exists e,
    Decode scanDecimal (Some (KInterface, VNil)) [194; 129; 97; 62] = Err e.
Proof.
  apply (@Decode_truncated scanDecimal scanDecimal_FormatInt
           (VSlice [VString (str "a"); VInt 100]) [194; 129; 97; 62] [100]).
  - apply plain_slice; [ apply fits_small; reflexivity | ].
    repeat apply Forall_cons; try apply Forall_nil.
    + apply plain_string; [ apply fits_small; reflexivity | limits; cbn; lia ].
    + apply plain_int. limits. lia.
  - reflexivity.
  - reflexivity.
  - discriminate.
Defined.

(** ** The client codec end to end *)

Section ClientRoundTrip.

Variable bigIntScan : bytes -> option Z.
Variable zlibClose : bytes -> error + bytes.
Variable zlibNewReader : Conn -> error + bytes.
Variable connWrite : bytes -> option error.
Variable fmtV : value -> bytes.

Hypothesis bigIntScan_FormatInt : forall n : Z, bigIntScan (FormatInt n) = Some n.

(** X13: a result response [[1, seq, payload]] written by an encoder
    reaches the caller: [ReadResponseHeader] succeeds with [uint64(seq)]
    in the response and the payload in the stash, and [ReadResponseBody]
    then stores the payload, unless it is nil. *)
Theorem ReadResponse_delivers (c : clientCodec) (r : Response) (seq : Z)
        (payload : value) :
  is_int64 seq -> plain payload ->
  zlibNewReader (conn c)
  = inr (snd (encoded (VSlice [VInt rpcResponse; VInt seq; payload]))) ->
  let c' := {| conn := conn c; respBody := canonical payload |} in
  ReadResponseHeader bigIntScan zlibNewReader fmtV c r
  = Returns None (c', {| Seq := uint64 seq |}) /\
  (canonical payload <> VNil ->
   forall cur, ReadResponseBody c' (PtrTo cur)
               = (None, PtrTo (canonical payload), c')).
Proof.
  intros Hseq Hp Hzlib c'.
  assert (Hplain : plain (VSlice [VInt rpcResponse; VInt seq; payload])).
  { apply plain_slice; [ left; reflexivity | ].
    repeat apply Forall_cons; try apply Forall_nil; try assumption;
      apply plain_int; [ unfold rpcResponse; limits; lia | exact Hseq ]. }
  destruct (@Decode_into_slice _ bigIntScan_FormatInt _ Hplain) as (out & Henc & Hdec).
  rewrite Henc in Hzlib. cbn [snd] in Hzlib. split.
  - unfold ReadResponseHeader. rewrite Hzlib, Hdec. reflexivity.
  - intros Hnil cur. unfold ReadResponseBody. subst c'. cbn [respBody].
    destruct (canonical payload); try contradiction; reflexivity.
Qed.

(** X15: the frame of a request holds the request: with arguments the
    encoder writes soundly, the bytes handed to the zlib writer decode to
    [[seq, method, args, kwargs]], and the frame that the writer makes of
    them is what the transport receives. *)
Theorem WriteRequest_frame (c : clientCodec) (r : Request) (args : list value)
        (kwargs : list (bytes * value)) :
  is_uint64 (ReqSeq r) -> plain (VString (ServiceMethod r)) ->
  plain (VSlice args) -> plain (VMap kwargs) ->
  exists raw,
    Decode bigIntScan (Some (KInterface, VNil)) raw
    = Ok (requestDecoded r args kwargs) [] /\
    forall frame, zlibClose raw = inr frame ->
      WriteRequestArgsKwargs zlibClose connWrite c r (ArgsKwargs args kwargs)
      = (connWrite frame,
         {| conn := {| sent := sent (conn c) ++ [frame];
                       incoming := incoming (conn c) |};
            respBody := respBody c |}).
Proof.
  intros Hseq Hmethod Hargs Hkwargs.
  assert (Hplain : plain (requestMessage r args kwargs)).
  { unfold requestMessage. apply plain_slice; [ left; reflexivity | ].
    constructor; [ | constructor ].
    apply plain_slice; [ left; reflexivity | ].
    repeat apply Forall_cons; try apply Forall_nil; try assumption.
    apply plain_uint. exact Hseq. }
  destruct (@plain_round_trip _ bigIntScan_FormatInt _ Hplain) as (raw & Ha & _ & Hr).
  exists raw. split.
  - unfold Decode. rewrite <- (app_nil_r raw) at 2. apply Hr. lia.
  - intros frame Hclose. unfold WriteRequestArgsKwargs, writeFrame.
    rewrite Ha. cbn [app]. rewrite Hclose. reflexivity.
Qed.

(** The switch of [ReadResponseHeader] returns, with or without an
    error, exactly on the responses of the expected shape; on every other
    list it panics. *)
Lemma dispatchResponse_returns_iff (c : clientCodec) (r : Response)
        (resp : list value) :
  (exists err st, dispatchResponse fmtV c r resp = Returns err st)
  <-> wellShaped resp.
Proof.
  unfold wellShaped, dispatchResponse, rpcResponse, rpcError. split.
  - intros (err & st & H).
    destruct (nth_error resp 0) as [[ | | messageType | | | | | | | | | | ] | ];
      try discriminate.
    destruct (nth_error resp 1) as [[ | | seq | | | | | | | | | | ] | ];
      try discriminate.
    exists messageType, seq. repeat split.
    + intros ->. change (1 =? 1) with true in H. cbv iota in H.
      destruct (nth_error resp 2) as [payload | ]; [ | discriminate ].
      exists payload. reflexivity.
    + intros ->. change (2 =? 1) with false in H.
      change (2 =? 2) with true in H. cbv iota in H.
      destruct (nth_error resp 2) as [[ | | | | | | | | | errMsg | | | ] | ];
        try discriminate.
      destruct errMsg as [ | t [ | m more]]; try discriminate.
      exists t, m, more. reflexivity.
  - intros (messageType & seq & -> & -> & H1 & H2).
    destruct (Z.eqb_spec messageType 1) as [-> | _].
    + destruct (H1 eq_refl) as (payload & ->). eexists _, _. reflexivity.
    + destruct (Z.eqb_spec messageType 2) as [-> | _].
      * destruct (H2 eq_refl) as (t & m & more & ->). eexists _, _. reflexivity.
      * destruct (messageType =? rpcEvent); eexists _, _; reflexivity.
Qed.

End ClientRoundTrip.

Lemma ReadResponse_delivers_witness :
  let c := {| conn := {| sent := []; incoming := [] |}; respBody := VNil |} in
  let c' := {| conn := conn c; respBody := VString (str "ok") |} in
  ReadResponseHeader scanDecimal (fun _ => inr [195; 1; 9; 130; 111; 107])
                     fmtStrings c {| Seq := 0 |}
  = Returns None (c', {| Seq := uint64 9 |}) /\
  (VString (str "ok") <> VNil ->
   forall cur, ReadResponseBody c' (PtrTo cur)
               = (None, PtrTo (VString (str "ok")), c')).
Proof.
  intros c.
  apply (@ReadResponse_delivers scanDecimal
           (fun _ => inr [195; 1; 9; 130; 111; 107]) fmtStrings
           scanDecimal_FormatInt c {| Seq := 0 |} 9 (VString (str "ok"))).
  - limits. lia.
  - apply plain_string; [ apply fits_small; reflexivity | limits; cbn; lia ].
  - reflexivity.
Defined.

Lemma WriteRequest_frame_witness :
  let c := {| conn := {| sent := []; incoming := [] |}; respBody := VNil |} in
  let r := {| ReqSeq := 3; ServiceMethod := str "daemon.info" |} in
  exists raw,
    Decode scanDecimal (Some (KInterface, VNil)) raw
    = Ok (requestDecoded r [VInt 1] [(str "k", VNil)]) [] /\
    forall frame, (fun b : bytes => @inr error bytes (0 :: b)) raw = inr frame ->
      WriteRequestArgsKwargs (fun b => inr (0 :: b)) (fun _ => None) c r
                             (ArgsKwargs [VInt 1] [(str "k", VNil)])
      = ((fun _ : bytes => @None error) frame,
         {| conn := {| sent := sent (conn c) ++ [frame];
                       incoming := incoming (conn c) |};
            respBody := respBody c |}).
Proof.
  intros c r.
  apply (@WriteRequest_frame scanDecimal (fun b => inr (0 :: b)) (fun _ => None)
           scanDecimal_FormatInt c r [VInt 1] [(str "k", VNil)]).
  - cbn. limits. lia.
  - apply plain_string; [ apply fits_small; reflexivity | limits; cbn; lia ].
  - apply plain_slice; [ apply fits_small; reflexivity | ].
    apply Forall_cons; [ apply plain_int; limits; lia | apply Forall_nil ].
  - apply plain_map.
    + apply fits_small. reflexivity.
    + repeat constructor. cbn. intuition.
    + repeat constructor; cbn [fst snd];
        try (apply fits_small; reflexivity); try (limits; cbn; lia).
Defined.

(** ** The end of [Decode] and the panics of [ReadResponseHeader] *)

Section Progress.

Variable bigIntScan : bytes -> option Z.
Variable zlibNewReader : Conn -> error + bytes.
Variable fmtV : value -> bytes.


Lemma dispatchResponse_Panics (c : clientCodec) (r : Response)
      (resp : list value) :
  dispatchResponse fmtV c r resp = Panics <-> ~ wellShaped resp.
Proof.
  rewrite <- (dispatchResponse_returns_iff fmtV c r resp). split.
  - intros H (err & st & H'). congruence.
  - intros H. destruct (dispatchResponse fmtV c r resp) as [err st | ];
      [ | reflexivity ].
    exfalso. apply H. exists err, st. reflexivity.
Qed.


End Progress.

(** ** The arguments of a request *)

Section Arguments.

Variable EqualFold : bytes -> bytes -> bool.

(** The body of the loop of [getArgs] over the keys of the map [m]. *)
Let step (m : list (bytes * value))
    (acc : list value * list (bytes * value)) (key : bytes) :=
  let (args, kwargs) := acc in
  if EqualFold (str "args") key then
    match MapIndex m key with
    | Some argsValue => (args ++ sliceElems argsValue, kwargs)
    | None => acc
    end
  else if EqualFold (str "kwargs") key then
    match MapIndex m key with
    | Some (VMap kw) => (args, kw)
    | _ => acc
    end
  else acc.

Lemma getArgs_fold (m : list (bytes * value)) :
  getArgs EqualFold (VMap m) = fold_left (step m) (MapKeys m) ([], []).
Proof. reflexivity. Qed.

Lemma MapIndex_NoDup {A} (m : list (bytes * A)) (k : bytes) (x : A) :
  NoDup (MapKeys m) -> In (k, x) m -> MapIndex m k = Some x.
Proof.
  induction m as [ | [k' y] m IH ]; cbn [MapKeys List.map fst MapIndex In];
    [ contradiction | ].
  intros Hnd Hin. inversion Hnd as [ | ? ? Hnotin Hnd' ]; subst.
  destruct Hin as [[= -> ->] | Hin].
  - rewrite (proj2 (bytes_eqb_eq k k) eq_refl). reflexivity.
  - destruct (bytes_eqb k' k) eqn:Hk.
    + apply bytes_eqb_eq in Hk. subst k'. exfalso. apply Hnotin.
      change k with (fst (k, x)). apply in_map. exact Hin.
    + apply IH; assumption.
Qed.

Lemma MapIndex_Permutation {A} (m1 m2 : list (bytes * A)) (k : bytes) :
  NoDup (MapKeys m1) -> Permutation m1 m2 -> MapIndex m1 k = MapIndex m2 k.
Proof.
  intros Hnd Hp.
  assert (Hnd2 : NoDup (MapKeys m2))
    by (apply (Permutation_NoDup (Permutation_map fst Hp)); exact Hnd).
  destruct (MapIndex m1 k) as [x | ] eqn:H1.
  - symmetry. apply MapIndex_NoDup; [ exact Hnd2 | ].
    apply (Permutation_in _ Hp). apply MapIndex_In. exact H1.
  - destruct (MapIndex m2 k) as [y | ] eqn:H2; [ | reflexivity ].
    apply MapIndex_In in H2. apply (Permutation_in _ (Permutation_sym Hp)) in H2.
    rewrite (@MapIndex_NoDup _ _ _ _ Hnd H2) in H1. discriminate.
Qed.

Lemma fold_left_Permutation {A B} (f : A -> B -> A) (l1 l2 : list B) :
  Permutation l1 l2 -> NoDup l1 ->
  (forall x y a, In x l1 -> In y l1 -> x <> y -> f (f a x) y = f (f a y) x) ->
  forall a, fold_left f l1 a = fold_left f l2 a.
Proof.
  induction 1 as [ | x l l' Hp IH | x y l | l l' l'' Hp1 IH1 Hp2 IH2 ];
    intros Hnd Hcomm a.
  - reflexivity.
  - cbn [fold_left]. inversion Hnd; subst. apply IH; [ assumption | ].
    intros u v b Hu Hv. apply Hcomm; right; assumption.
  - cbn [fold_left]. f_equal. inversion Hnd as [ | ? ? Hnotin ]; subst.
    apply Hcomm; [ left; reflexivity | right; left; reflexivity | ].
    intros ->. apply Hnotin. left. reflexivity.
  - rewrite IH1 by assumption. apply IH2.
    + apply (Permutation_NoDup Hp1). exact Hnd.
    + intros u v b Hu Hv. apply Hcomm;
        apply (Permutation_in _ (Permutation_sym Hp1)); assumption.
Qed.

Lemma step_commutes (m : list (bytes * value)) (x y : bytes)
      (a : list value * list (bytes * value)) :
  atMostOne (EqualFold (str "args")) (MapKeys m) ->
  atMostOne (EqualFold (str "kwargs")) (MapKeys m) ->
  In x (MapKeys m) -> In y (MapKeys m) -> x <> y ->
  step m (step m a x) y = step m (step m a y) x.
Proof.
  intros Hargs Hkwargs Hx Hy Hxy. destruct a as [args kwargs]. unfold step.
  destruct (EqualFold (str "args") x) eqn:Hax;
    destruct (EqualFold (str "args") y) eqn:Hay;
    try (exfalso; apply Hxy; apply Hargs; assumption);
    destruct (EqualFold (str "kwargs") x) eqn:Hkx;
    destruct (EqualFold (str "kwargs") y) eqn:Hky;
    try (exfalso; apply Hxy; apply Hkwargs; assumption);
    destruct (MapIndex m x) as [[ | | | | | | | | | | | | ] | ];
    destruct (MapIndex m y) as [[ | | | | | | | | | | | | ] | ];
    rewrite ?Hax, ?Hay, ?Hkx, ?Hky; reflexivity.
Qed.

Lemma step_ext (m1 m2 : list (bytes * value)) (ks : list bytes) :
  (forall k, MapIndex m1 k = MapIndex m2 k) ->
  forall a, fold_left (step m1) ks a = fold_left (step m2) ks a.
Proof.
  intros Heq. induction ks as [ | k ks IH ]; intros a; [ reflexivity | ].
  cbn [fold_left]. rewrite IH. f_equal. unfold step. rewrite Heq. reflexivity.
Qed.

(** X17: the arguments [getArgs] takes from a map do not depend on the
    order in which the keys of the map are enumerated, when at most one
    key is "args" and at most one is "kwargs" up to case. *)
Theorem getArgs_order (m1 m2 : list (bytes * value)) :
  NoDup (MapKeys m1) -> Permutation m1 m2 ->
  atMostOne (EqualFold (str "args")) (MapKeys m1) ->
  atMostOne (EqualFold (str "kwargs")) (MapKeys m1) ->
  getArgs EqualFold (VMap m1) = getArgs EqualFold (VMap m2).
Proof.
  intros Hnd Hp Hargs Hkwargs. rewrite !getArgs_fold.
  rewrite <- (@step_ext m1 m2)
    by (intros k; apply MapIndex_Permutation; assumption).
  apply fold_left_Permutation.
  - apply Permutation_map. exact Hp.
  - exact Hnd.
  - intros x y a Hx Hy Hxy. apply step_commutes; assumption.
Qed.

Lemma step_others (m : list (bytes * value)) (ks : list bytes) :
  forall a,
    (forall k, In k ks -> EqualFold (str "args") k = false) ->
    fst (fold_left (step m) ks a) = fst a.
Proof.
  induction ks as [ | k ks IH ]; intros a Hno; [ reflexivity | ].
  cbn [fold_left]. rewrite IH by (intros k' Hk'; apply Hno; right; exact Hk').
  destruct a as [args kwargs]. unfold step.
  rewrite (Hno k (or_introl eq_refl)).
  destruct (EqualFold (str "kwargs") k); [ | reflexivity ].
  destruct (MapIndex m k) as [[ | | | | | | | | | | | | ] | ]; reflexivity.
Qed.

Lemma step_others_kwargs (m : list (bytes * value)) (ks : list bytes) :
  forall a,
    (forall k, In k ks -> EqualFold (str "args") k = true
                          \/ EqualFold (str "kwargs") k = false) ->
    snd (fold_left (step m) ks a) = snd a.
Proof.
  induction ks as [ | k ks IH ]; intros a Hno; [ reflexivity | ].
  cbn [fold_left]. rewrite IH by (intros k' Hk'; apply Hno; right; exact Hk').
  destruct a as [args kwargs]. unfold step.
  destruct (EqualFold (str "args") k) eqn:Ha.
  - destruct (MapIndex m k); reflexivity.
  - destruct (Hno k (or_introl eq_refl)) as [H | H]; [ congruence | ].
    rewrite H. reflexivity.
Qed.

(** X16: from a map, [getArgs] takes as [args] the elements of the list
    under the key "args" (none when the value there is no list) and as
    [kwargs] the map under the key "kwargs", the keys compared up to
    case, when each is the one key of its name; without such a key
    [args], resp. [kwargs], is empty. *)
Theorem getArgs_map (m : list (bytes * value)) :
  NoDup (MapKeys m) ->
  atMostOne (EqualFold (str "args")) (MapKeys m) ->
  atMostOne (EqualFold (str "kwargs")) (MapKeys m) ->
  (forall k x, In (k, x) m -> EqualFold (str "args") k = true ->
               fst (getArgs EqualFold (VMap m)) = sliceElems x) /\
  (forall k kw, In (k, VMap kw) m -> EqualFold (str "args") k = false ->
                EqualFold (str "kwargs") k = true ->
                snd (getArgs EqualFold (VMap m)) = kw) /\
  ((forall k, In k (MapKeys m) -> EqualFold (str "args") k = false) ->
   fst (getArgs EqualFold (VMap m)) = []) /\
  ((forall k, In k (MapKeys m) -> EqualFold (str "kwargs") k = false) ->
   snd (getArgs EqualFold (VMap m)) = []).
Proof.
  intros Hnd Hargs Hkwargs.
  assert (Hfront : forall k x, In (k, x) m ->
            exists rest,
              Permutation (MapKeys m) (k :: rest) /\ ~ In k rest /\
              (forall k', In k' rest -> In k' (MapKeys m)) /\
              getArgs EqualFold (VMap m)
              = fold_left (step m) rest (step m ([], []) k)).
  { intros k x Hin.
    assert (Hk : In k (MapKeys m))
      by (change k with (fst (k, x)); apply in_map; exact Hin).
    destruct (in_split _ _ Hk) as (l1 & l2 & Hsplit).
    exists (l1 ++ l2).
    assert (Hp : Permutation (MapKeys m) (k :: l1 ++ l2))
      by (rewrite Hsplit; apply Permutation_sym, Permutation_middle).
    pose proof (Permutation_NoDup Hp Hnd) as Hnd'.
    inversion Hnd'; subst. repeat split; try assumption.
    - intros k' Hk'. apply (Permutation_in _ (Permutation_sym Hp)).
      right. exact Hk'.
    - rewrite getArgs_fold.
      rewrite (@fold_left_Permutation _ _ (step m) _ _ Hp Hnd); [ reflexivity | ].
      intros u v a Hu Hv Huv. apply step_commutes; assumption. }
  repeat split.
  - intros k x Hin Hk.
    destruct (Hfront k _ Hin) as (rest & Hp & Hnotin & Hsub & ->).
    rewrite step_others.
    + unfold step. rewrite Hk, (@MapIndex_NoDup _ _ _ _ Hnd Hin). reflexivity.
    + intros k' Hk'. destruct (EqualFold (str "args") k') eqn:Hk''; [ | reflexivity ].
      exfalso. apply Hnotin.
      assert (Heq : k = k').
      { apply Hargs; try assumption; [ | apply Hsub; exact Hk' ].
        apply (Permutation_in _ (Permutation_sym Hp)). left. reflexivity. }
      rewrite Heq. exact Hk'.
  - intros k kw Hin Hk Hkk.
    destruct (Hfront k _ Hin) as (rest & Hp & Hnotin & Hsub & ->).
    rewrite step_others_kwargs.
    + unfold step. rewrite Hk, Hkk, (@MapIndex_NoDup _ _ _ _ Hnd Hin). reflexivity.
    + intros k' Hk'.
      destruct (EqualFold (str "kwargs") k') eqn:Hk''; [ | right; reflexivity ].
      exfalso. apply Hnotin.
      assert (Heq : k = k').
      { apply Hkwargs; try assumption; [ | apply Hsub; exact Hk' ].
        apply (Permutation_in _ (Permutation_sym Hp)). left. reflexivity. }
      rewrite Heq. exact Hk'.
  - intros Hno. rewrite getArgs_fold, step_others; [ reflexivity | exact Hno ].
  - intros Hno. rewrite getArgs_fold, step_others_kwargs; [ reflexivity | ].
    intros k Hk. right. apply Hno. exact Hk.
Qed.

End Arguments.

Lemma atMostOne_pair (p : bytes -> bool) (a b : bytes) :
  p a = false \/ p b = false -> atMostOne p [a; b].
Proof.
  intros H k1 k2 [<- | [<- | []]] [<- | [<- | []]] H1 H2;
    try reflexivity; destruct H; congruence.
Qed.

Lemma getArgs_order_witness :
  getArgs EqualFoldASCII (VMap [(str "Args", VSlice [VInt 1]);
                                (str "kwargs", VMap [(str "k", VNil)])])
  = getArgs EqualFoldASCII (VMap [(str "kwargs", VMap [(str "k", VNil)]);
                                  (str "Args", VSlice [VInt 1])]).
Proof.
  apply (@getArgs_order EqualFoldASCII
           [(str "Args", VSlice [VInt 1]); (str "kwargs", VMap [(str "k", VNil)])]
           [(str "kwargs", VMap [(str "k", VNil)]); (str "Args", VSlice [VInt 1])]).
  - repeat constructor; cbn; intuition discriminate.
  - apply perm_swap.
  - apply atMostOne_pair. right. reflexivity.
  - apply atMostOne_pair. left. reflexivity.
Defined.

Lemma getArgs_map_witness :
  fst (getArgs EqualFoldASCII
         (VMap [(str "Args", VSlice [VInt 1]);
                (str "kwargs", VMap [(str "k", VNil)])])) = [VInt 1].
Proof.
  refine (proj1 (@getArgs_map EqualFoldASCII
           [(str "Args", VSlice [VInt 1]); (str "kwargs", VMap [(str "k", VNil)])]
           _ _ _) (str "Args") (VSlice [VInt 1]) _ _).
  - repeat constructor; cbn; intuition discriminate.
  - apply atMostOne_pair. right. reflexivity.
  - apply atMostOne_pair. left. reflexivity.
  - left. reflexivity.
  - reflexivity.
Defined.
